(** * gschpoozi wizard rule engine: condition evaluator, implications,
      conflicts, exclusive groups, inheritance and validator.

    A shallow embedding of the TypeScript sources in
    [web/frontend/src/lib] (conditionEngine, implications, conflicts,
    exclusiveGroups, inheritance, validator), of the store of
    [stores/wizardStore.ts] and of the two actions of
    [hooks/useWizardLogic.ts] that write to it.

    Modelling conventions.
    - A JavaScript string is a [string]: a sequence of code units below 256.
    - A JavaScript number is a [Number]: an exact rational, NaN, or one of
      the two infinities.  +0 and -0 are one value (the code never tells
      them apart); binary64 rounding is not modelled.
    - An object used as a map ([WizardState], [changedValues], a conflict's
      [context], the diff of [selectOption]) is a [gmap string Value] over
      its own properties; a property holding [undefined] is an entry
      holding [VUndefined].  Keys are the paths of the wizard
      ([stepper_x.run_current]), never a name that [Object.prototype]
      defines ([constructor], [toString]), so that a lookup and an [in]
      test see own properties only.  The one object that is looked up
      under any word, the [keywords] of the tokenizer, is modelled with the
      members it inherits ([keywordsAt]).
    - The call stack is as deep as a condition needs, except in [Stack],
      which counts the frames of the parser and has the [RangeError] of a
      full stack.
    - Wizard states hold scalars; arrays exist only as values of the
      condition language, where every list literal is a fresh object.
    - The store is a record that every action maps to the next store; it
      starts as [Store.initial], the persistence to local storage is not
      modelled. *)

From Stdlib Require Import ZArith QArith Qround Qfield String Ascii List Lia.
From stdpp Require Import gmap strings list fin_maps.

#[local] Set Warnings "-register-all".
Local Open Scope string_scope.
Local Open Scope nat_scope.

(** ** JavaScript values *)

Inductive Number :=
| NaN
| NegInf
| Fin (q : Q)
| PosInf.

Inductive Value :=
| VUndefined
| VNull
| VBool (b : bool)
| VNum (n : Number)
| VStr (s : string).

Global Instance Q_eq_dec : EqDecision Q.
Proof. solve_decision. Defined.
Global Instance Number_eq_dec : EqDecision Number.
Proof. solve_decision. Defined.
Global Instance Value_eq_dec : EqDecision Value.
Proof. solve_decision. Defined.

(** Values manipulated by the condition parser: scalars and array literals. *)
Inductive PVal :=
| Scal (v : Value)
| Arr (items : list PVal).

Definition WizardState := gmap string Value.

(** [state[key]]: a missing property reads as [undefined]. *)
Definition get (state : gmap string Value) (key : string) : Value :=
  default VUndefined (state !! key).

Definition num (z : Z) : Value := VNum (Fin (inject_Z z)).

(** ** Characters and strings *)

Definition code (c : ascii) : nat := nat_of_ascii c.

(** [/\s/]: tab, line feed, vertical tab, form feed, carriage return, space,
    no-break space. *)
Definition isSpace (c : ascii) : bool :=
  let n := code c in
  ((9 <=? n) && (n <=? 13)) || (n =? 32) || (n =? 160).

(** [/[0-9]/] *)
Definition isDigit (c : ascii) : bool :=
  let n := code c in (48 <=? n) && (n <=? 57).

(** [/[a-zA-Z_]/] *)
Definition isIdentStart (c : ascii) : bool :=
  let n := code c in
  ((97 <=? n) && (n <=? 122)) || ((65 <=? n) && (n <=? 90)) || (n =? 95).

(** [/[a-zA-Z0-9_.]/] *)
Definition isIdentChar (c : ascii) : bool :=
  isIdentStart c || isDigit c || (code c =? 46).

(** [/[0-9.]/] *)
Definition isNumChar (c : ascii) : bool := isDigit c || (code c =? 46).

(** The regular expression [.]: any code unit but a line terminator. *)
Definition isDot (c : ascii) : bool :=
  negb ((code c =? 10) || (code c =? 13)).

Definition isQuote (c : ascii) : bool := (code c =? 34) || (code c =? 39).

Definition lowerChar (c : ascii) : ascii :=
  let n := code c in
  if (65 <=? n) && (n <=? 90) then ascii_of_nat (n + 32) else c.

Fixpoint toLowerCase (s : string) : string :=
  match s with
  | EmptyString => EmptyString
  | String c r => String (lowerChar c) (toLowerCase r)
  end.

Fixpoint dropWhile (p : ascii -> bool) (s : string) : string :=
  match s with
  | EmptyString => EmptyString
  | String c r => if p c then dropWhile p r else s
  end.

Fixpoint takeWhile (p : ascii -> bool) (s : string) : string :=
  match s with
  | EmptyString => EmptyString
  | String c r => if p c then String c (takeWhile p r) else EmptyString
  end.

Fixpoint allChars (p : ascii -> bool) (s : string) : bool :=
  match s with
  | EmptyString => true
  | String c r => p c && allChars p r
  end.

Fixpoint revString (s acc : string) : string :=
  match s with
  | EmptyString => acc
  | String c r => revString r (String c acc)
  end.

Definition trimStart (s : string) : string := dropWhile isSpace s.
Definition trimEnd (s : string) : string :=
  revString (dropWhile isSpace (revString s EmptyString)) EmptyString.

(** [String.prototype.trim] *)
Definition trim (s : string) : string := trimEnd (trimStart s).

Fixpoint dropN (n : nat) (s : string) : string :=
  match n, s with
  | S n', String _ r => dropN n' r
  | _, _ => s
  end.

Fixpoint takeN (n : nat) (s : string) : string :=
  match n, s with
  | S n', String c r => String c (takeN n' r)
  | _, _ => EmptyString
  end.

(** [s.substring(0, p.length) === p] *)
Definition startsWith (p s : string) : bool := String.prefix p s.

(** [String.prototype.includes] *)
Fixpoint includes (needle s : string) : bool :=
  startsWith needle s ||
  match s with
  | EmptyString => false
  | String _ r => includes needle r
  end.

(** [Array.prototype.join] on strings. *)
Fixpoint join (sep : string) (l : list string) : string :=
  match l with
  | [] => EmptyString
  | [x] => x
  | x :: r => x ++ sep ++ join sep r
  end.

(** [String.prototype.split] with a non-empty separator: [skip] counts the
    characters of a separator occurrence still to be passed over, [cur]
    holds the current piece in reverse. *)
Fixpoint splitAux (sep : string) (skip : nat) (cur s : string) : list string :=
  match s with
  | EmptyString => [revString cur EmptyString]
  | String c r =>
      match skip with
      | S k => splitAux sep k cur r
      | O =>
          if startsWith sep s
          then revString cur EmptyString :: splitAux sep (String.length sep - 1) EmptyString r
          else splitAux sep 0 (String c cur) r
      end
  end.

Definition split (sep s : string) : list string := splitAux sep 0 EmptyString s.

(** ** Numbers *)

Definition digitVal (c : ascii) : Z := Z.of_nat (code c - 48).

(** Value of a run of decimal digits, most significant first. *)
Fixpoint digitsFrom (acc : Z) (s : string) : Z :=
  match s with
  | EmptyString => acc
  | String c r => digitsFrom (10 * acc + digitVal c) r
  end.

Definition digits (s : string) : Z := digitsFrom 0 s.

Fixpoint pow10 (n : nat) : positive :=
  match n with
  | O => 1%positive
  | S n' => (10 * pow10 n')%positive
  end.

(** The decimal [intPart.fracPart]. *)
Definition decimal (intPart fracPart : string) : Q :=
  Qmake (digits (intPart ++ fracPart)) (pow10 (String.length fracPart)).

(** [parseFloat] on the text the tokenizer collects, which starts with a
    digit after an optional minus sign and holds digits and dots only: the
    longest prefix [digits (. digits)?] is read. *)
Definition parseFloat (s : string) : Number :=
  let '(neg, body) :=
    match s with
    | String "-" r => (true, r)
    | _ => (false, s)
    end in
  let intPart := takeWhile isDigit body in
  let rest := dropN (String.length intPart) body in
  let fracPart :=
    match rest with
    | String "." r => takeWhile isDigit r
    | _ => EmptyString
    end in
  match intPart with
  | EmptyString => NaN
  | _ => let q := decimal intPart fracPart in Fin (if neg then Qopp q else q)
  end.

Definition hexVal (c : ascii) : option Z :=
  let n := code c in
  if isDigit c then Some (Z.of_nat (n - 48))
  else if (97 <=? n) && (n <=? 102) then Some (Z.of_nat (n - 87))
  else if (65 <=? n) && (n <=? 70) then Some (Z.of_nat (n - 55))
  else None.

(** A non-empty run of digits in base [base] (2, 8 or 16). *)
Fixpoint radixFrom (base : Z) (acc : Z) (s : string) : option Z :=
  match s with
  | EmptyString => Some acc
  | String c r =>
      match hexVal c with
      | Some d => if (d <? base)%Z then radixFrom base (base * acc + d) r else None
      | None => None
      end
  end.

Definition radixLiteral (base : Z) (s : string) : Number :=
  match s with
  | EmptyString => NaN
  | _ => match radixFrom base 0 s with Some z => Fin (inject_Z z) | None => NaN end
  end.

(** [ExponentPart?] at the end of a decimal literal: the power of ten, or
    [None] when the text is not an exponent part. *)
Definition exponentPart (s : string) : option Z :=
  match s with
  | EmptyString => Some 0%Z
  | String c r =>
      if (code c =? 101) || (code c =? 69) then
        let '(neg, ds) :=
          match r with
          | String "-" r' => (true, r')
          | String "+" r' => (false, r')
          | _ => (false, r)
          end in
        match ds with
        | EmptyString => None
        | _ => if allChars isDigit ds
               then Some (if neg then (- digits ds)%Z else digits ds)
               else None
        end
      else None
  end.

Definition scale10 (q : Q) (e : Z) : Q :=
  match e with
  | Z0 => q
  | Zpos p => Qmult q (inject_Z (Z.pow 10 (Zpos p)))
  | Zneg p => Qdiv q (inject_Z (Z.pow 10 (Zpos p)))
  end.

(** [StrUnsignedDecimalLiteral] *)
Definition unsignedDecimal (s : string) : Number :=
  if String.eqb s "Infinity" then PosInf else
  let intPart := takeWhile isDigit s in
  let rest := dropN (String.length intPart) s in
  let '(fracPart, rest') :=
    match rest with
    | String "." r =>
        let f := takeWhile isDigit r in (f, dropN (String.length f) r)
    | _ => (EmptyString, rest)
    end in
  match intPart ++ fracPart with
  | EmptyString => NaN
  | _ =>
      match exponentPart rest' with
      | Some e => Fin (scale10 (decimal intPart fracPart) e)
      | None => NaN
      end
  end.

Definition negNumber (n : Number) : Number :=
  match n with
  | NaN => NaN
  | NegInf => PosInf
  | Fin q => Fin (Qopp q)
  | PosInf => NegInf
  end.

(** [StringToNumber]: surrounding white space is ignored, the empty string
    is 0, then a binary, octal or hexadecimal integer literal or a signed
    decimal literal; anything else is NaN. *)
Definition StringToNumber (s : string) : Number :=
  match trim s with
  | EmptyString => Fin 0
  | String "0" (String c r) as t =>
      if (code c =? 120) || (code c =? 88) then radixLiteral 16 r
      else if (code c =? 111) || (code c =? 79) then radixLiteral 8 r
      else if (code c =? 98) || (code c =? 66) then radixLiteral 2 r
      else unsignedDecimal t
  | String "-" r => negNumber (unsignedDecimal r)
  | String "+" r => unsignedDecimal r
  | t => unsignedDecimal t
  end.

(** [ToNumber] *)
Definition ToNumber (v : Value) : Number :=
  match v with
  | VUndefined => NaN
  | VNull => Fin 0
  | VBool b => Fin (if b then 1 else 0)
  | VNum n => n
  | VStr s => StringToNumber s
  end.

(** Decimal digits of a natural number. *)
Fixpoint natDigits (fuel : nat) (n : N) (acc : string) : string :=
  match fuel with
  | O => acc
  | S fuel' =>
      let acc' := String (ascii_of_N (48 + N.modulo n 10)) acc in
      if (n <? 10)%N then acc' else natDigits fuel' (N.div n 10) acc'
  end.

Definition NToString (n : N) : string := natDigits (S (N.to_nat (N.log2 n))) n EmptyString.

(** Digits of the fraction [r / d] (with [r < d]), at most [fuel] of them. *)
Fixpoint fracDigits (fuel : nat) (r d : N) : string :=
  match fuel with
  | O => EmptyString
  | S fuel' =>
      if (r =? 0)%N then EmptyString
      else String (ascii_of_N (48 + N.div (10 * r) d))
                  (fracDigits fuel' (N.modulo (10 * r) d) d)
  end.

(** [Number::toString]: plain decimal notation, with at most 20 fraction
    digits (exponent notation is not produced). *)
Definition NumberToString (n : Number) : string :=
  match n with
  | NaN => "NaN"
  | NegInf => "-Infinity"
  | PosInf => "Infinity"
  | Fin q =>
      let a := Z.abs_N (Qnum q) in
      let d := Npos (Qden q) in
      let body := NToString (N.div a d) in
      let frac := fracDigits 20 (N.modulo a d) d in
      let text := match frac with EmptyString => body | _ => body ++ "." ++ frac end in
      if (Qnum q <? 0)%Z then "-" ++ text else text
  end.

(** [String(value)] *)
Definition ToString (v : Value) : string :=
  match v with
  | VUndefined => "undefined"
  | VNull => "null"
  | VBool true => "true"
  | VBool false => "false"
  | VNum n => NumberToString n
  | VStr s => s
  end.

(** [Boolean(value)] *)
Definition ToBoolean (v : Value) : bool :=
  match v with
  | VUndefined | VNull => false
  | VBool b => b
  | VNum NaN => false
  | VNum (Fin q) => negb (Qeq_bool q 0)
  | VNum _ => true
  | VStr s => negb (String.eqb s EmptyString)
  end.

Definition numEq (a b : Number) : bool :=
  match a, b with
  | Fin p, Fin q => Qeq_bool p q
  | NegInf, NegInf | PosInf, PosInf => true
  | _, _ => false
  end.

(** [a === b] on scalars. *)
Definition strictEq (a b : Value) : bool :=
  match a, b with
  | VUndefined, VUndefined | VNull, VNull => true
  | VBool x, VBool y => Bool.eqb x y
  | VNum x, VNum y => numEq x y
  | VStr x, VStr y => String.eqb x y
  | _, _ => false
  end.

(** SameValueZero, the comparison of [Array.prototype.includes]. *)
Definition sameValueZero (a b : Value) : bool :=
  match a, b with
  | VNum NaN, VNum NaN => true
  | _, _ => strictEq a b
  end.

(** [a < b] on numbers; [None] is the undefined outcome of a comparison
    with NaN. *)
Definition numLt (a b : Number) : option bool :=
  match a, b with
  | NaN, _ | _, NaN => None
  | NegInf, NegInf => Some false
  | NegInf, _ => Some true
  | _, NegInf => Some false
  | PosInf, _ => Some false
  | _, PosInf => Some true
  | Fin p, Fin q => Some (negb (Qle_bool q p))
  end.

Definition typeofNumber (v : Value) : bool :=
  match v with VNum _ => true | _ => false end.

(** [Math.round]: the nearest integer, halves towards plus infinity. *)
Definition MathRound (q : Q) : Z := Qfloor (Qplus q (1 # 2)).

(** ** Condition engine: tokens *)

(** [INHERITED] is the type of a token whose [type] is no type string at
    all: the function that the [keywords] object inherits under the word's
    name (see [wordToken]). *)
Inductive TokenType :=
| IDENTIFIER | STRING | NUMBER | BOOLEAN | OPERATOR
| LPAREN | RPAREN | LBRACKET | RBRACKET | COMMA
| AND | OR | NOT | IN | EOF
| INHERITED.

Global Instance TokenType_eq_dec : EqDecision TokenType.
Proof. solve_decision. Defined.

Record Token := mkToken { tok_type : TokenType; tok_value : Value }.

Definition isType (ty : TokenType) (t : Token) : bool :=
  bool_decide (tok_type t = ty).

Definition keywords : list (string * TokenType) :=
  [("and", AND); ("or", OR); ("not", NOT); ("in", IN);
   ("true", BOOLEAN); ("false", BOOLEAN); ("True", BOOLEAN); ("False", BOOLEAN)].

Definition operators : list string := ["=="; "!="; "<="; ">="; "<"; ">"; "="].

(** [table[key]] on an object literal given by its entries. *)
Fixpoint lookupEntry {A} (table : list (string * A)) (key : string) : option A :=
  match table with
  | [] => None
  | (k, v) :: r => if String.eqb k key then Some v else lookupEntry r key
  end.

(** The names that every object literal inherits from [Object.prototype];
    each holds a truthy value. *)
Definition prototypeMembers : list string :=
  [ "constructor"; "__defineGetter__"; "__defineSetter__"; "hasOwnProperty";
    "__lookupGetter__"; "__lookupSetter__"; "isPrototypeOf";
    "propertyIsEnumerable"; "toString"; "valueOf"; "__proto__"; "toLocaleString" ].

Inductive KeywordEntry :=
| Own (ty : TokenType)
| Inherited.

(** [keywords[key]]: an own entry of the object literal, a member it
    inherits, or nothing. *)
Definition keywordsAt (key : string) : option KeywordEntry :=
  match lookupEntry keywords key with
  | Some ty => Some (Own ty)
  | None =>
      if existsb (String.eqb key) prototypeMembers then Some Inherited else None
  end.

(** The token for the identifier-like word [id]; [keywords[id] ||
    keywords[lower]] is truthy also for a word that names an inherited
    member, in its own spelling or in lower case. *)
Definition wordToken (id : string) : Token :=
  let lower := toLowerCase id in
  match (match keywordsAt id with Some e => Some e | None => keywordsAt lower end) with
  | Some (Own BOOLEAN) => mkToken BOOLEAN (VBool (String.eqb lower "true"))
  | Some (Own ty) => mkToken ty (VStr id)
  | Some Inherited => mkToken INHERITED (VStr id)
  | None => mkToken IDENTIFIER (VStr id)
  end.

(** One character tokens. *)
Definition punctuation (c : ascii) : option Token :=
  if Ascii.eqb c "(" then Some (mkToken LPAREN (VStr "("))
  else if Ascii.eqb c ")" then Some (mkToken RPAREN (VStr ")"))
  else if Ascii.eqb c "[" then Some (mkToken LBRACKET (VStr "["))
  else if Ascii.eqb c "]" then Some (mkToken RBRACKET (VStr "]"))
  else if Ascii.eqb c "," then Some (mkToken COMMA (VStr ","))
  else None.

Definition eofToken : Token := mkToken EOF (VStr EmptyString).

(** The loop of [tokenize] from position [pos], on the text [s] that starts
    there; every round passes over at least one character, [fuel] bounds
    the number of rounds. *)
Fixpoint tokenizeFrom (fuel : nat) (s : string) : option (list Token) :=
  match fuel with
  | O => None
  | S fuel' =>
      match s with
      | EmptyString => Some [eofToken]
      | String c rest =>
          if isSpace c then tokenizeFrom fuel' rest
          else if isQuote c then
            let str := takeWhile (fun x => negb (Ascii.eqb x c)) rest in
            cons (mkToken STRING (VStr str))
              <$> tokenizeFrom fuel' (dropN (S (String.length str)) rest)
          else if isDigit c ||
                  (Ascii.eqb c "-" &&
                   match rest with String d _ => isDigit d | EmptyString => false end)
          then
            let body := if Ascii.eqb c "-" then rest else s in
            let run := takeWhile isNumChar body in
            let text := if Ascii.eqb c "-" then String c run else run in
            cons (mkToken NUMBER (VNum (parseFloat text)))
              <$> tokenizeFrom fuel' (dropN (String.length run) body)
          else
            match find (fun op => startsWith op s) operators with
            | Some op =>
                cons (mkToken OPERATOR (VStr op))
                  <$> tokenizeFrom fuel' (dropN (String.length op) s)
            | None =>
                match punctuation c with
                | Some t => cons t <$> tokenizeFrom fuel' rest
                | None =>
                    if isIdentStart c then
                      let id := takeWhile isIdentChar s in
                      cons (wordToken id)
                        <$> tokenizeFrom fuel' (dropN (String.length id) s)
                    else tokenizeFrom fuel' rest
                end
            end
      end
  end.

Definition tokenize (condition : string) : option (list Token) :=
  tokenizeFrom (S (String.length condition)) condition.

(** ** Condition engine: operations on parser values *)

Definition truthy (v : PVal) : bool :=
  match v with
  | Scal s => ToBoolean s
  | Arr _ => true
  end.

(** [left || right] *)
Definition jsOr (lhs rhs : PVal) : PVal := if truthy lhs then lhs else rhs.

(** [left && right] *)
Definition jsAnd (lhs rhs : PVal) : PVal := if truthy lhs then rhs else lhs.

(** [!v] *)
Definition jsNot (v : PVal) : PVal := Scal (VBool (negb (truthy v))).

(** [a === b]; two arrays met by the parser are never the same object. *)
Definition pStrictEq (a b : PVal) : bool :=
  match a, b with
  | Scal x, Scal y => strictEq x y
  | _, _ => false
  end.

Definition pSameValueZero (a b : PVal) : bool :=
  match a, b with
  | Scal x, Scal y => sameValueZero x y
  | _, _ => false
  end.

(** [items.includes(x)] *)
Definition arrayIncludes (items : list PVal) (x : PVal) : bool :=
  existsb (fun y => pSameValueZero y x) items.

(** [String(v)]; an array is its elements joined by commas, with
    [undefined] and [null] elements lhs empty. *)
Fixpoint pToString (v : PVal) : string :=
  match v with
  | Scal s => ToString s
  | Arr items =>
      join "," (map (fun x =>
                       match x with
                       | Scal VUndefined | Scal VNull => EmptyString
                       | _ => pToString x
                       end) items)
  end.

Definition ToPrimitive (v : PVal) : Value :=
  match v with
  | Scal s => s
  | Arr _ => VStr (pToString v)
  end.

(** The abstract relational comparison [a < b]: two strings compare by
    code units, anything else as numbers; [None] when a side is NaN. *)
Definition jsLt (a b : PVal) : option bool :=
  match ToPrimitive a, ToPrimitive b with
  | VStr x, VStr y => Some (String.ltb x y)
  | x, y => numLt (ToNumber x) (ToNumber y)
  end.

Definition isTrue (o : option bool) : bool :=
  match o with Some true => true | _ => false end.
Definition isFalse (o : option bool) : bool :=
  match o with Some false => true | _ => false end.

(** The [switch (op)] of [parseComparison]. *)
Definition applyOperator (op : Value) (lhs rhs : PVal) : PVal :=
  let o := ToString op in
  Scal (VBool (
    if String.eqb o "==" || String.eqb o "=" then pStrictEq lhs rhs
    else if String.eqb o "!=" then negb (pStrictEq lhs rhs)
    else if String.eqb o "<" then isTrue (jsLt lhs rhs)
    else if String.eqb o "<=" then isFalse (jsLt rhs lhs)
    else if String.eqb o ">" then isTrue (jsLt rhs lhs)
    else if String.eqb o ">=" then isFalse (jsLt lhs rhs)
    else false)).

(** ** Condition engine: the recursive descent parser

    The parser's position is the list of tokens from [pos] on; past the end
    of the array [current] answers an EOF token.  [fuel] bounds the depth of
    the calls. *)

Definition current (ts : list Token) : Token := hd eofToken ts.
Definition advance (ts : list Token) : list Token := tl ts.
Definition peek (offset : nat) (ts : list Token) : Token := nth offset ts eofToken.

Section Parser.
Variable state : gmap string Value.

Fixpoint parseOr (fuel : nat) (ts : list Token) : option (PVal * list Token) :=
  match fuel with
  | O => None
  | S n =>
      match parseAnd n ts with
      | Some (lhs, ts1) => parseOrLoop n lhs ts1
      | None => None
      end
  end

with parseOrLoop (fuel : nat) (lhs : PVal) (ts : list Token)
  : option (PVal * list Token) :=
  match fuel with
  | O => None
  | S n =>
      if isType OR (current ts) then
        match parseAnd n (advance ts) with
        | Some (rhs, ts1) => parseOrLoop n (jsOr lhs rhs) ts1
        | None => None
        end
      else Some (lhs, ts)
  end

with parseAnd (fuel : nat) (ts : list Token) : option (PVal * list Token) :=
  match fuel with
  | O => None
  | S n =>
      match parseNot n ts with
      | Some (lhs, ts1) => parseAndLoop n lhs ts1
      | None => None
      end
  end

with parseAndLoop (fuel : nat) (lhs : PVal) (ts : list Token)
  : option (PVal * list Token) :=
  match fuel with
  | O => None
  | S n =>
      if isType AND (current ts) then
        match parseNot n (advance ts) with
        | Some (rhs, ts1) => parseAndLoop n (jsAnd lhs rhs) ts1
        | None => None
        end
      else Some (lhs, ts)
  end

with parseNot (fuel : nat) (ts : list Token) : option (PVal * list Token) :=
  match fuel with
  | O => None
  | S n =>
      if isType NOT (current ts) then
        match parseNot n (advance ts) with
        | Some (v, ts1) => Some (jsNot v, ts1)
        | None => None
        end
      else parseComparison n ts
  end

with parseComparison (fuel : nat) (ts : list Token) : option (PVal * list Token) :=
  match fuel with
  | O => None
  | S n =>
      match parsePrimary n ts with
      | None => None
      | Some (lhs, ts1) =>
          if isType IN (current ts1) then
            match parseArray n (advance ts1) with
            | Some (rhs, ts2) => Some (Scal (VBool (arrayIncludes rhs lhs)), ts2)
            | None => None
            end
          else if isType NOT (current ts1) && isType IN (peek 1 ts1) then
            match parseArray n (advance (advance ts1)) with
            | Some (rhs, ts2) =>
                Some (Scal (VBool (negb (arrayIncludes rhs lhs))), ts2)
            | None => None
            end
          else if isType OPERATOR (current ts1) then
            let op := tok_value (current ts1) in
            match parsePrimary n (advance ts1) with
            | Some (rhs, ts2) => Some (applyOperator op lhs rhs, ts2)
            | None => None
            end
          else Some (lhs, ts1)
      end
  end

with parseArray (fuel : nat) (ts : list Token) : option (list PVal * list Token) :=
  match fuel with
  | O => None
  | S n =>
      if negb (isType LBRACKET (current ts)) then Some ([], ts)
      else parseArrayLoop n [] (advance ts)
  end

with parseArrayLoop (fuel : nat) (items : list PVal) (ts : list Token)
  : option (list PVal * list Token) :=
  match fuel with
  | O => None
  | S n =>
      if isType RBRACKET (current ts) then Some (items, advance ts)
      else if isType EOF (current ts) then Some (items, ts)
      else
        match parsePrimary n ts with
        | Some (item, ts1) =>
            parseArrayLoop n (items ++ [item])%list
              (if isType COMMA (current ts1) then advance ts1 else ts1)
        | None => None
        end
  end

with parsePrimary (fuel : nat) (ts : list Token) : option (PVal * list Token) :=
  match fuel with
  | O => None
  | S n =>
      let token := current ts in
      match tok_type token with
      | STRING | NUMBER | BOOLEAN => Some (Scal (tok_value token), advance ts)
      | IDENTIFIER => Some (Scal (get state (ToString (tok_value token))), advance ts)
      | LPAREN =>
          match parseOr n (advance ts) with
          | Some (result, ts1) =>
              Some (result, if isType RPAREN (current ts1) then advance ts1 else ts1)
          | None => None
          end
      | LBRACKET =>
          match parseArray n ts with
          | Some (items, ts1) => Some (Arr items, ts1)
          | None => None
          end
      | _ => Some (Scal VUndefined, advance ts)
      end
  end.

(** [new ConditionParser(tokens, state).parse()] *)
Definition parse (tokens : list Token) : option bool :=
  match parseOr (5 * length tokens + 6) tokens with
  | Some (result, _) => Some (truthy result)
  | None => None
  end.
End Parser.

(** [evaluateCondition]: [None] is an absent ([undefined] or [null])
    condition.  A run of the tokenizer or of the parser that does not come
    to a result is the exception caught by the [try] block.  The parser
    here runs on a call stack that is deep enough for the condition;
    [Stack.evaluateCondition] below is the function on a stack of a given
    depth. *)
Definition evaluateCondition (condition : option string) (state : gmap string Value)
  : bool :=
  match condition with
  | None => true
  | Some c =>
      if String.eqb c EmptyString || String.eqb (trim c) EmptyString then true
      else
        match tokenize c with
        | Some tokens =>
            match parse state tokens with
            | Some b => b
            | None => false
            end
        | None => false
        end
  end.

(** ** Condition engine: the call stack

    The methods of [ConditionParser] call each other as deep as the
    expression nests, and the call stack of the engine is finite: a call for
    which no frame is left throws a [RangeError], which no method of the
    parser catches.  [Stack] is the parser once more, with the frames
    counted: every call of a method of the class takes one frame while it
    runs, [current], [advance] (which calls [current]) and [peek] included.
    The functions of the language itself ([includes], [push], [Boolean]) and
    the calls that [evaluateCondition] makes in its own body are taken to
    fit. *)
Module Stack.

(** The outcome of a call: a result, the [RangeError] of a full stack, or
    fuel that does not reach (which no run of [parse] meets, see
    [stack_parse_cases]). *)
Inductive Run (A : Type) :=
| Ok (a : A)
| Overflow
| Starved.
#[global] Arguments Ok {A} a.
#[global] Arguments Overflow {A}.
#[global] Arguments Starved {A}.

Notation "'call' p <- e 'in' k" :=
  (match e with Ok p => k | Overflow => Overflow | Starved => Starved end)
  (at level 10, p pattern, e at level 100, k at level 200).

(** The three small methods, called with [free] frames left. *)
Definition current (free : nat) (ts : list Token) : Run Token :=
  if 1 <=? free then Ok (hd eofToken ts) else Overflow.
Definition advance (free : nat) (ts : list Token) : Run (list Token) :=
  if 2 <=? free then Ok (tl ts) else Overflow.
Definition peek (free : nat) (offset : nat) (ts : list Token) : Run Token :=
  if 1 <=? free then Ok (nth offset ts eofToken) else Overflow.

Section Parser.
Variable state : gmap string Value.

(** A method is called with [free] frames left and runs its body with one
    less; a loop runs in the frame of its method. *)
Fixpoint parseOr (fuel free : nat) (ts : list Token) : Run (PVal * list Token) :=
  match fuel, free with
  | O, _ => Starved
  | _, O => Overflow
  | S n, S d =>
      call (lhs, ts1) <- parseAnd n d ts in
      parseOrLoop n d lhs ts1
  end

with parseOrLoop (fuel d : nat) (lhs : PVal) (ts : list Token)
  : Run (PVal * list Token) :=
  match fuel with
  | O => Starved
  | S n =>
      call token <- current d ts in
      if isType OR token then
        call ts0 <- advance d ts in
        call (rhs, ts1) <- parseAnd n d ts0 in
        parseOrLoop n d (jsOr lhs rhs) ts1
      else Ok (lhs, ts)
  end

with parseAnd (fuel free : nat) (ts : list Token) : Run (PVal * list Token) :=
  match fuel, free with
  | O, _ => Starved
  | _, O => Overflow
  | S n, S d =>
      call (lhs, ts1) <- parseNot n d ts in
      parseAndLoop n d lhs ts1
  end

with parseAndLoop (fuel d : nat) (lhs : PVal) (ts : list Token)
  : Run (PVal * list Token) :=
  match fuel with
  | O => Starved
  | S n =>
      call token <- current d ts in
      if isType AND token then
        call ts0 <- advance d ts in
        call (rhs, ts1) <- parseNot n d ts0 in
        parseAndLoop n d (jsAnd lhs rhs) ts1
      else Ok (lhs, ts)
  end

with parseNot (fuel free : nat) (ts : list Token) : Run (PVal * list Token) :=
  match fuel, free with
  | O, _ => Starved
  | _, O => Overflow
  | S n, S d =>
      call token <- current d ts in
      if isType NOT token then
        call ts0 <- advance d ts in
        call (v, ts1) <- parseNot n d ts0 in
        Ok (jsNot v, ts1)
      else parseComparison n d ts
  end

with parseComparison (fuel free : nat) (ts : list Token) : Run (PVal * list Token) :=
  match fuel, free with
  | O, _ => Starved
  | _, O => Overflow
  | S n, S d =>
      call (lhs, ts1) <- parsePrimary n d ts in
      call token <- current d ts1 in
      if isType IN token then
        call ts0 <- advance d ts1 in
        call (rhs, ts2) <- parseArray n d ts0 in
        Ok (Scal (VBool (arrayIncludes rhs lhs)), ts2)
      else
        call next <- (if isType NOT token then peek d 1 ts1 else Ok token) in
        if isType NOT token && isType IN next then
          call ts0 <- advance d ts1 in
          call ts0' <- advance d ts0 in
          call (rhs, ts2) <- parseArray n d ts0' in
          Ok (Scal (VBool (negb (arrayIncludes rhs lhs))), ts2)
        else if isType OPERATOR token then
          call ts0 <- advance d ts1 in
          call (rhs, ts2) <- parsePrimary n d ts0 in
          Ok (applyOperator (tok_value token) lhs rhs, ts2)
        else Ok (lhs, ts1)
  end

with parseArray (fuel free : nat) (ts : list Token) : Run (list PVal * list Token) :=
  match fuel, free with
  | O, _ => Starved
  | _, O => Overflow
  | S n, S d =>
      call token <- current d ts in
      if negb (isType LBRACKET token) then Ok ([], ts)
      else
        call ts0 <- advance d ts in
        parseArrayLoop n d [] ts0
  end

with parseArrayLoop (fuel d : nat) (items : list PVal) (ts : list Token)
  : Run (list PVal * list Token) :=
  match fuel with
  | O => Starved
  | S n =>
      call token <- current d ts in
      if isType RBRACKET token then
        call ts0 <- advance d ts in
        Ok (items, ts0)
      else if isType EOF token then Ok (items, ts)
      else
        call (item, ts1) <- parsePrimary n d ts in
        call token1 <- current d ts1 in
        call ts2 <- (if isType COMMA token1 then advance d ts1 else Ok ts1) in
        parseArrayLoop n d (items ++ [item])%list ts2
  end

with parsePrimary (fuel free : nat) (ts : list Token) : Run (PVal * list Token) :=
  match fuel, free with
  | O, _ => Starved
  | _, O => Overflow
  | S n, S d =>
      call token <- current d ts in
      match tok_type token with
      | STRING | NUMBER | BOOLEAN =>
          call ts0 <- advance d ts in
          Ok (Scal (tok_value token), ts0)
      | IDENTIFIER =>
          call ts0 <- advance d ts in
          Ok (Scal (get state (ToString (tok_value token))), ts0)
      | LPAREN =>
          call ts0 <- advance d ts in
          call (result, ts1) <- parseOr n d ts0 in
          call token1 <- current d ts1 in
          call ts2 <- (if isType RPAREN token1 then advance d ts1 else Ok ts1) in
          Ok (result, ts2)
      | LBRACKET =>
          call (items, ts1) <- parseArray n d ts in
          Ok (Arr items, ts1)
      | _ =>
          call ts0 <- advance d ts in
          Ok (Scal VUndefined, ts0)
      end
  end.

(** [parser.parse()], called with [free] frames left. *)
Definition parse (free : nat) (tokens : list Token) : Run bool :=
  match free with
  | O => Overflow
  | S d =>
      call (result, _) <- parseOr (5 * length tokens + 6) d tokens in
      Ok (truthy result)
  end.
End Parser.

(** [evaluateCondition] on an engine that has [stack] frames left when the
    parser is started; the [catch] block answers [false] to the
    [RangeError]. *)
Definition evaluateCondition (stack : nat) (condition : option string)
    (state : gmap string Value) : bool :=
  match condition with
  | None => true
  | Some c =>
      if String.eqb c EmptyString || String.eqb (trim c) EmptyString then true
      else
        match tokenize c with
        | Some tokens =>
            match parse state stack tokens with
            | Ok b => b
            | Overflow | Starved => false
            end
        | None => false
        end
  end.

End Stack.

(** ** Implications (implications.ts) *)

(** An optional flag that is absent reads as [false]; an absent [priority]
    is [None]. *)
Record Implication := mkImplication {
  imp_id : string;
  imp_description : string;
  imp_condition : string;
  imp_setValues : list (string * Value);
  imp_allowOverride : bool;
  imp_priority : option Z;
}.

Definition implication (id description condition : string)
    (setValues : list (string * Value)) : Implication :=
  mkImplication id description condition setValues false None.

Definition IMPLICATIONS : list Implication :=
  [ implication "corexy_awd_enables_awd" "CoreXY-AWD kinematics enables AWD mode"
      "printer.kinematics == 'corexy-awd'"
      [("printer.awd_enabled", VBool true)];
    implication "hybrid_corexy_enables_awd" "Hybrid CoreXY kinematics enables AWD mode"
      "printer.kinematics == 'hybrid_corexy'"
      [("printer.awd_enabled", VBool true)];
    mkImplication "non_awd_disables_awd" "Non-AWD kinematics disables AWD mode"
      "printer.kinematics != 'corexy-awd' and printer.kinematics != 'hybrid_corexy'"
      [("printer.awd_enabled", VBool false)]
      false (Some (-1)%Z);
    implication "tap_zero_offsets" "Tap probe has zero X/Y offsets"
      "probe.probe_type == 'tap'"
      [("probe.x_offset", num 0); ("probe.y_offset", num 0)];
    implication "beacon_contact_homing" "Beacon with contact mode sets homing method"
      "probe.probe_type == 'beacon' and probe.homing_mode == 'contact'"
      [("homing.homing_method", VStr "beacon_contact")];
    implication "cartographer_touch_homing" "Cartographer with touch mode sets homing method"
      "probe.probe_type == 'cartographer' and probe.homing_mode == 'touch'"
      [("homing.homing_method", VStr "cartographer_touch")];
    implication "bltouch_homing" "BLTouch sets standard probe homing"
      "probe.probe_type == 'bltouch'"
      [("homing.homing_method", VStr "probe")];
    implication "tap_homing" "Tap sets probe homing method"
      "probe.probe_type == 'tap'"
      [("homing.homing_method", VStr "probe")];
    mkImplication "z_motor_count_2_enables_z_tilt" "2 Z motors enables Z tilt"
      "z_config.motor_count == 2"
      [("leveling.type", VStr "z_tilt")]
      true None;
    mkImplication "z_motor_count_3_enables_z_tilt" "3 Z motors enables Z tilt"
      "z_config.motor_count == 3"
      [("leveling.type", VStr "z_tilt")]
      true None;
    mkImplication "z_motor_count_4_enables_qgl" "4 Z motors enables QGL"
      "z_config.motor_count == 4"
      [("leveling.type", VStr "quad_gantry_level")]
      true None;
    mkImplication "toolboard_default_extruder_location"
      "Toolboard enabled defaults extruder to toolboard"
      "mcu.toolboard.enabled == true"
      [("extruder.motor_location", VStr "toolboard");
       ("fans.part_cooling.location", VStr "toolboard");
       ("fans.hotend.location", VStr "toolboard")]
      true (Some (-1)%Z);
    implication "sensorless_x_uses_diag" "Sensorless X homing uses diag pin"
      "homing.x_endstop_type == 'sensorless'"
      [("stepper_x.endstop_pin", VStr "virtual_endstop")];
    implication "sensorless_y_uses_diag" "Sensorless Y homing uses diag pin"
      "homing.y_endstop_type == 'sensorless'"
      [("stepper_y.endstop_pin", VStr "virtual_endstop")];
    mkImplication "safe_z_home_center" "Safe Z home defaults to bed center"
      "printer.bed_size_x and printer.bed_size_y"
      []
      true None ].

Record ImplicationResult := mkImplicationResult {
  changedValues : gmap string Value;
  appliedImplications : list string;
  skippedImplications : list string;
}.

(** [a.priority ?? 0] *)
Definition priorityOf (imp : Implication) : Z := default 0%Z (imp_priority imp).

(** [Array.prototype.sort] with the comparator
    [(a, b) => (a.priority ?? 0) - (b.priority ?? 0)]: a stable sort, here by
    insertion. *)
Fixpoint insertByPriority (imp : Implication) (sorted : list Implication)
  : list Implication :=
  match sorted with
  | [] => [imp]
  | other :: rest =>
      if (priorityOf other <? priorityOf imp)%Z
      then other :: insertByPriority imp rest
      else imp :: sorted
  end.

Definition sortByPriority (imps : list Implication) : list Implication :=
  foldr insertByPriority [] imps.

(** The body of the inner loop of [applyImplications] for one entry of
    [setValues]. *)
Definition applyEntry (imp : Implication) (state : gmap string Value)
    (userOverrides : gset string) (result : ImplicationResult)
    (entry : string * Value) : ImplicationResult :=
  let '(key, value) := entry in
  if imp_allowOverride imp && bool_decide (key ∈ userOverrides) then
    mkImplicationResult (changedValues result) (appliedImplications result)
      (skippedImplications result ++ [(imp_id imp ++ ":" ++ key)%string])%list
  else if strictEq (get state key) value then result
  else
    mkImplicationResult (<[key := value]> (changedValues result))
      (appliedImplications result ++ [imp_id imp])%list
      (skippedImplications result).

(** The body of the outer loop. *)
Definition applyImplication (state : gmap string Value) (userOverrides : gset string)
    (result : ImplicationResult) (imp : Implication) : ImplicationResult :=
  if negb (evaluateCondition (Some (imp_condition imp)) state) then result
  else fold_left (applyEntry imp state userOverrides) (imp_setValues imp) result.

(** [applyImplications] over a rule table. *)
Definition applyImplicationsWith (rules : list Implication)
    (state : gmap string Value) (userOverrides : gset string) : ImplicationResult :=
  fold_left (applyImplication state userOverrides) (sortByPriority rules)
    (mkImplicationResult ∅ [] []).

Definition applyImplications (state : gmap string Value) (userOverrides : gset string)
  : ImplicationResult :=
  applyImplicationsWith IMPLICATIONS state userOverrides.

(** ** State merge (wizardStore.ts) *)

Definition isEmptyValue (value : Value) : bool :=
  match value with
  | VUndefined | VNull => true
  | VStr s => String.eqb s EmptyString
  | _ => false
  end.

(** [setFields]: every entry of [fields] is written into a copy of the
    state, an empty value deleting its key. *)
Definition setFields (state fields : gmap string Value) : gmap string Value :=
  map_fold (fun key value newState =>
              if isEmptyValue value then delete key newState
              else <[key := value]> newState)
           state fields.

(** ** Conflicts (conflicts.ts) *)

Inductive ConflictSeverity := SevError | SevWarning | SevInfo.

Inductive ConflictCategory :=
| Hardware | Motion | Heating | Probing | Leveling | Homing | General.

Global Instance ConflictSeverity_eq_dec : EqDecision ConflictSeverity.
Proof. solve_decision. Defined.
Global Instance ConflictCategory_eq_dec : EqDecision ConflictCategory.
Proof. solve_decision. Defined.

(** The display texts [details] and [suggestion], which no function reads,
    are left out. *)
Record ConflictRule := mkConflictRule {
  cr_id : string;
  cr_message : string;
  cr_condition : string;
  cr_severity : ConflictSeverity;
  cr_category : ConflictCategory;
  cr_relatedFields : option (list string);
}.

Record Conflict := mkConflict {
  conflict_rule : ConflictRule;
  conflict_context : gmap string Value;
}.

(** The double quote character as a string. *)
Definition dquote : string := String (ascii_of_nat 34) EmptyString.

Definition tmcDrivers : string := "['tmc2209', 'tmc2226', 'tmc2240', 'tmc5160', 'tmc2130']".

Definition CONFLICT_RULES : list ConflictRule :=
  [ mkConflictRule "qgl_requires_4_motors"
      "Quad Gantry Level requires exactly 4 Z motors"
      "leveling.type == 'quad_gantry_level' and z_config.motor_count != 4"
      SevError Leveling (Some ["leveling.type"; "z_config.motor_count"]);
    mkConflictRule "z_tilt_requires_2_or_3_motors"
      "Z Tilt requires 2 or 3 Z motors"
      "leveling.type == 'z_tilt' and (z_config.motor_count < 2 or z_config.motor_count > 3)"
      SevError Leveling (Some ["leveling.type"; "z_config.motor_count"]);
    mkConflictRule "sensorless_needs_stallguard_x"
      "Sensorless X homing requires a TMC driver with StallGuard"
      ("homing.x_endstop_type == 'sensorless' and stepper_x.driver_type not in " ++ tmcDrivers)
      SevError Homing (Some ["homing.x_endstop_type"; "stepper_x.driver_type"]);
    mkConflictRule "sensorless_needs_stallguard_y"
      "Sensorless Y homing requires a TMC driver with StallGuard"
      ("homing.y_endstop_type == 'sensorless' and stepper_y.driver_type not in " ++ tmcDrivers)
      SevError Homing (Some ["homing.y_endstop_type"; "stepper_y.driver_type"]);
    mkConflictRule "toolboard_extruder_needs_toolboard"
      "Extruder set to toolboard but toolboard is not enabled"
      "extruder.motor_location == 'toolboard' and mcu.toolboard.enabled != true"
      SevError Hardware (Some ["extruder.motor_location"; "mcu.toolboard.enabled"]);
    mkConflictRule "toolboard_fan_needs_toolboard"
      "Fan set to toolboard but toolboard is not enabled"
      "(fans.part_cooling.location == 'toolboard' or fans.hotend.location == 'toolboard') and mcu.toolboard.enabled != true"
      SevError Hardware
      (Some ["fans.part_cooling.location"; "fans.hotend.location"; "mcu.toolboard.enabled"]);
    mkConflictRule "toolboard_probe_needs_toolboard"
      "Probe set to toolboard but toolboard is not enabled"
      "probe.location == 'toolboard' and mcu.toolboard.enabled != true"
      SevError Probing (Some ["probe.location"; "mcu.toolboard.enabled"]);
    mkConflictRule "awd_needs_corexy"
      "AWD mode requires CoreXY-based kinematics"
      "printer.awd_enabled == true and printer.kinematics not in ['corexy', 'corexy-awd', 'hybrid_corexy']"
      SevError Motion (Some ["printer.awd_enabled"; "printer.kinematics"]);
    mkConflictRule "beacon_needs_i2c_or_can"
      "Beacon probe requires I2C or CAN connection"
      "probe.probe_type == 'beacon' and probe.connection_type not in ['i2c', 'can']"
      SevWarning Probing (Some ["probe.probe_type"; "probe.connection_type"]);
    mkConflictRule "cartographer_needs_can"
      "Cartographer probe typically uses CAN connection"
      "probe.probe_type == 'cartographer' and probe.connection_type != 'can'"
      SevWarning Probing (Some ["probe.probe_type"; "probe.connection_type"]);
    mkConflictRule "high_bed_temp_warning"
      "Bed max temperature is set very high"
      "heater_bed.max_temp > 120"
      SevWarning Heating (Some ["heater_bed.max_temp"]);
    mkConflictRule "high_hotend_temp_warning"
      "Hotend max temperature is set very high"
      "extruder.max_temp > 300"
      SevWarning Heating (Some ["extruder.max_temp"]);
    mkConflictRule "high_xy_current_warning"
      "XY motor current is set high"
      "stepper_x.run_current > 1.2 or stepper_y.run_current > 1.2"
      SevWarning Motion (Some ["stepper_x.run_current"; "stepper_y.run_current"]);
    mkConflictRule "no_kinematics_selected"
      "No kinematics type selected"
      "not printer.kinematics"
      SevError General (Some ["printer.kinematics"]);
    mkConflictRule "no_mainboard_selected"
      "No mainboard selected"
      "not mcu.main.board_type"
      SevError Hardware (Some ["mcu.main.board_type"]);
    mkConflictRule "mesh_exceeds_bed"
      "Bed mesh area may exceed printable area"
      "bed_mesh.mesh_max_x > printer.bed_size_x or bed_mesh.mesh_max_y > printer.bed_size_y"
      SevWarning Probing
      (Some ["bed_mesh.mesh_max_x"; "bed_mesh.mesh_max_y";
             "printer.bed_size_x"; "printer.bed_size_y"]) ].

(** The [context] of a conflict: [context[field] = state[field]] for every
    related field. *)
Definition buildContext (state : gmap string Value) (relatedFields : option (list string))
  : gmap string Value :=
  match relatedFields with
  | Some fields =>
      fold_left (fun context field => <[field := get state field]> context) fields ∅
  | None => ∅
  end.

(** [detectConflicts] over a rule table. *)
Definition detectConflictsWith (rules : list ConflictRule) (state : gmap string Value)
  : list Conflict :=
  fold_left (fun conflicts rule =>
               if evaluateCondition (Some (cr_condition rule)) state
               then (conflicts ++
                     [mkConflict rule (buildContext state (cr_relatedFields rule))])%list
               else conflicts)
            rules [].

Definition detectConflicts (state : gmap string Value) : list Conflict :=
  detectConflictsWith CONFLICT_RULES state.

Definition getConflictsBySeverity (state : gmap string Value) (severity : ConflictSeverity)
  : list Conflict :=
  filter (fun c => cr_severity (conflict_rule c) = severity) (detectConflicts state).

(** ** Exclusive groups (exclusiveGroups.ts) *)

(** The display text [description] is left out. *)
Record ExclusiveOption := mkOption {
  opt_value : string;
  opt_label : string;
  opt_impliedValues : option (list (string * Value));
  opt_clearValues : option (list string);
  opt_condition : option string;
}.

Record ExclusiveGroup := mkGroup {
  grp_id : string;
  grp_name : string;
  grp_stateKey : string;
  grp_options : list ExclusiveOption;
  grp_condition : option string;
  grp_required : bool;
}.

Definition plainOption (value label : string) : ExclusiveOption :=
  mkOption value label None None None.

Definition endstopGroup (id name stateKey stepper : string) : ExclusiveGroup :=
  mkGroup id name stateKey
    [ plainOption "physical" "Physical Switch";
      mkOption "sensorless" "Sensorless (StallGuard)" None None
        (Some (stepper ++ ".driver_type in " ++ tmcDrivers)) ]
    None false.

Definition EXCLUSIVE_GROUPS : list ExclusiveGroup :=
  [ mkGroup "kinematics" "Kinematics Type" "printer.kinematics"
      [ plainOption "cartesian" "Cartesian";
        plainOption "corexy" "CoreXY";
        mkOption "corexy-awd" "CoreXY AWD"
          (Some [("printer.awd_enabled", VBool true)]) None None;
        mkOption "hybrid_corexy" "Hybrid CoreXY"
          (Some [("printer.awd_enabled", VBool true)]) None None;
        plainOption "corexz" "CoreXZ";
        plainOption "delta" "Delta" ]
      None true;
    mkGroup "probe_type" "Probe Type" "probe.probe_type"
      [ mkOption "none" "None / Manual" None
          (Some ["probe.x_offset"; "probe.y_offset"; "probe.z_offset"]) None;
        mkOption "bltouch" "BLTouch / 3DTouch"
          (Some [("probe.needs_deploy", VBool true)]) None None;
        plainOption "inductive" "Inductive Probe";
        mkOption "tap" "Voron Tap"
          (Some [("probe.x_offset", num 0); ("probe.y_offset", num 0)]) None None;
        plainOption "beacon" "Beacon";
        plainOption "cartographer" "Cartographer";
        mkOption "klicky" "Klicky / Euclid"
          (Some [("probe.needs_deploy", VBool true)]) None None ]
      None false;
    mkGroup "leveling_type" "Leveling Type" "leveling.type"
      [ plainOption "none" "None";
        mkOption "bed_mesh" "Bed Mesh Only" None None
          (Some ("probe.probe_type != " ++ dquote ++ "none" ++ dquote));
        mkOption "z_tilt" "Z Tilt Adjust" None None
          (Some "z_config.motor_count >= 2 and z_config.motor_count <= 3");
        mkOption "quad_gantry_level" "Quad Gantry Level" None None
          (Some "z_config.motor_count == 4") ]
      None false;
    endstopGroup "x_endstop_type" "X Endstop Type" "homing.x_endstop_type" "stepper_x";
    endstopGroup "y_endstop_type" "Y Endstop Type" "homing.y_endstop_type" "stepper_y";
    mkGroup "z_endstop_type" "Z Endstop Type" "homing.z_endstop_type"
      [ plainOption "physical" "Physical Switch";
        mkOption "probe" "Probe" None None (Some "probe.probe_type != 'none'") ]
      None false;
    mkGroup "tooling_type" "Tooling Configuration" "tooling.type"
      [ plainOption "single" "Single Extruder";
        plainOption "multi_extruder" "Multi-Extruder";
        plainOption "mmu" "MMU/ERCF";
        plainOption "toolchanger" "Toolchanger" ]
      None false;
    mkGroup "mcu_connection" "MCU Connection" "mcu.main.connection_type"
      [ plainOption "usb" "USB Serial";
        plainOption "can" "CAN Bus" ]
      None false ].

(** [group.options.find(o => o.value === optionValue)] *)
Definition findOption (group : ExclusiveGroup) (optionValue : string)
  : option ExclusiveOption :=
  find (fun o => String.eqb (opt_value o) optionValue) (grp_options group).

(** [Object.assign(changes, values)] *)
Definition objectAssign (changes : gmap string Value) (values : list (string * Value))
  : gmap string Value :=
  fold_left (fun acc entry => <[entry.1 := entry.2]> acc) values changes.

(** The loop of [selectOption] over the keys of one other option. *)
Definition clearOther (changes : gmap string Value) (keys : list string)
  : gmap string Value :=
  fold_left (fun acc key =>
               match acc !! key with
               | Some _ => acc
               | None => <[key := VUndefined]> acc
               end) keys changes.

(** The loop over [option.clearValues]. *)
Definition clearKeys (changes : gmap string Value) (keys : list string)
  : gmap string Value :=
  fold_left (fun acc key => <[key := VUndefined]> acc) keys changes.

(** [selectOption]; a key whose value in the diff is [VUndefined] is to be
    deleted. *)
Definition selectOption (group : ExclusiveGroup) (optionValue : string)
  : gmap string Value :=
  match findOption group optionValue with
  | None => {[ grp_stateKey group := VUndefined ]}
  | Some option =>
      let changes : gmap string Value := {[ grp_stateKey group := VStr optionValue ]} in
      let changes :=
        match opt_impliedValues option with
        | Some implied => objectAssign changes implied
        | None => changes
        end in
      let changes :=
        fold_left (fun acc otherOption =>
                     match opt_impliedValues otherOption with
                     | Some implied =>
                         if negb (String.eqb (opt_value otherOption) optionValue)
                         then clearOther acc (map fst implied)
                         else acc
                     | None => acc
                     end)
                  (grp_options group) changes in
      match opt_clearValues option with
      | Some keys => clearKeys changes keys
      | None => changes
      end
  end.

(** ** Inheritance (inheritance.ts) *)

Definition COPYABLE_STEPPER_FIELDS : list string :=
  [ "driver_type"; "microsteps"; "rotation_distance"; "run_current";
    "hold_current"; "stealthchop_threshold"; "interpolate" ].

Record InheritanceRelation := mkRelation {
  rel_child : string;
  rel_parent : string;
  rel_fields : list string;
  rel_condition : option string;
  rel_description : string;
}.

Definition INHERITANCE_RELATIONS : list InheritanceRelation :=
  [ mkRelation "stepper_y" "stepper_x" COPYABLE_STEPPER_FIELDS None
      "Y stepper uses same settings as X (common for CoreXY)";
    mkRelation "stepper_x1" "stepper_x" COPYABLE_STEPPER_FIELDS
      (Some "printer.awd_enabled") "X1 stepper (AWD) inherits from X";
    mkRelation "stepper_y1" "stepper_y" COPYABLE_STEPPER_FIELDS
      (Some "printer.awd_enabled") "Y1 stepper (AWD) inherits from Y";
    mkRelation "stepper_z1" "stepper_z" COPYABLE_STEPPER_FIELDS
      (Some "z_config.motor_count >= 2") "Z1 stepper inherits from Z";
    mkRelation "stepper_z2" "stepper_z" COPYABLE_STEPPER_FIELDS
      (Some "z_config.motor_count >= 3") "Z2 stepper inherits from Z";
    mkRelation "stepper_z3" "stepper_z" COPYABLE_STEPPER_FIELDS
      (Some "z_config.motor_count >= 4") "Z3 stepper inherits from Z" ].

Definition getInheritanceRelation (stepperName : string) : option InheritanceRelation :=
  find (fun r => String.eqb (rel_child r) stepperName) INHERITANCE_RELATIONS.

(** [relation.condition && !evaluateCondition(relation.condition, state)];
    an empty condition string is falsy. *)
Definition conditionFails (relation : InheritanceRelation) (state : gmap string Value)
    (evaluate : string -> gmap string Value -> bool) : bool :=
  match rel_condition relation with
  | Some c => negb (String.eqb c EmptyString) && negb (evaluate c state)
  | None => false
  end.

(** [`${stepper}.${field}`] *)
Definition fieldKey (stepper field : string) : string := stepper ++ "." ++ field.

Definition getInheritedValues (stepperName : string) (state : gmap string Value)
    (evaluate : string -> gmap string Value -> bool) : gmap string Value :=
  match getInheritanceRelation stepperName with
  | None => ∅
  | Some relation =>
      if conditionFails relation state evaluate then ∅
      else
        fold_left (fun inherited field =>
                     let parentValue := get state (fieldKey (rel_parent relation) field) in
                     if negb (strictEq parentValue VUndefined)
                     then <[fieldKey stepperName field := parentValue]> inherited
                     else inherited)
                  (rel_fields relation) ∅
  end.

Definition applyInheritance (stepperName : string) (state : gmap string Value)
    (evaluate : string -> gmap string Value -> bool) : gmap string Value :=
  match getInheritanceRelation stepperName with
  | None => ∅
  | Some relation =>
      if conditionFails relation state evaluate then ∅
      else
        fold_left (fun changes field =>
                     let childKey := fieldKey stepperName field in
                     let parentKey := fieldKey (rel_parent relation) field in
                     let childValue := get state childKey in
                     let parentValue := get state parentKey in
                     if strictEq childValue VUndefined &&
                        negb (strictEq parentValue VUndefined)
                     then <[childKey := parentValue]> changes
                     else changes)
                  (rel_fields relation) ∅
  end.

(** ** Validator (validator.ts) *)

Inductive Severity := Error | Warning.

Global Instance Severity_eq_dec : EqDecision Severity.
Proof. solve_decision. Defined.

Record FieldValidation := mkFieldValidation {
  fv_field : string;
  fv_valid : bool;
  fv_message : option string;
  fv_severity : Severity;
}.

Record ValidationResult := mkValidationResult {
  vr_valid : bool;
  vr_errors : list FieldValidation;
  vr_warnings : list FieldValidation;
  vr_conflicts : list Conflict;
  vr_missingRequired : list string;
  vr_invalidValues : list FieldValidation;
}.

(** An absent [required] reads as [false]; [validate] answers [None] for
    [null]. *)
Record FieldDefinition := mkField {
  fd_key : string;
  fd_label : string;
  fd_required : bool;
  fd_requiredWhen : option string;
  fd_min : option Number;
  fd_max : option Number;
  fd_validValues : option (list string);
  fd_validate : option (Value -> gmap string Value -> option string);
}.

Definition dec (n : Z) (d : positive) : option Number := Some (Fin (Qmake n d)).

Definition requiredField (key label : string) (validValues : option (list string))
  : FieldDefinition :=
  mkField key label true None None None validValues None.

Definition fieldWhen (key label requiredWhen : string) : FieldDefinition :=
  mkField key label false (Some requiredWhen) None None None None.

Definition rangeWhen (key label requiredWhen : string) (min max : option Number)
  : FieldDefinition :=
  mkField key label false (Some requiredWhen) min max None None.

Definition rangeField (key label : string) (min max : option Number) : FieldDefinition :=
  mkField key label false None min max None None.

(** The [validate] function of [stepper_x.microsteps]. *)
Definition validateMicrosteps (value : Value) (_ : gmap string Value) : option string :=
  let valid := [num 16; num 32; num 64; num 128; num 256] in
  if negb (existsb (fun x => sameValueZero x (VNum (ToNumber value))) valid)
  then Some "Microsteps must be 16, 32, 64, 128, or 256"
  else None.

Definition FIELD_DEFINITIONS : list FieldDefinition :=
  [ requiredField "printer.kinematics" "Kinematics Type"
      (Some ["cartesian"; "corexy"; "corexy-awd"; "hybrid_corexy"; "corexz"; "delta"]);
    requiredField "mcu.main.board_type" "Mainboard Type" None;

    fieldWhen "stepper_x.motor_port" "Stepper X Motor Port" "printer.kinematics";
    fieldWhen "stepper_x.step_pin" "Stepper X Step Pin" "stepper_x.motor_port";
    fieldWhen "stepper_x.dir_pin" "Stepper X Direction Pin" "stepper_x.motor_port";
    fieldWhen "stepper_x.enable_pin" "Stepper X Enable Pin" "stepper_x.motor_port";
    rangeWhen "stepper_x.rotation_distance" "Stepper X Rotation Distance"
      "stepper_x.motor_port" (dec 1 10) (dec 500 1);
    mkField "stepper_x.microsteps" "Stepper X Microsteps" false
      (Some "stepper_x.motor_port") None None
      (Some ["16"; "32"; "64"; "128"; "256"]) (Some validateMicrosteps);
    rangeField "stepper_x.run_current" "Stepper X Run Current" (dec 1 10) (dec 3 1);

    fieldWhen "stepper_y.motor_port" "Stepper Y Motor Port" "printer.kinematics";
    fieldWhen "stepper_y.step_pin" "Stepper Y Step Pin" "stepper_y.motor_port";
    fieldWhen "stepper_y.dir_pin" "Stepper Y Direction Pin" "stepper_y.motor_port";
    fieldWhen "stepper_y.enable_pin" "Stepper Y Enable Pin" "stepper_y.motor_port";
    rangeWhen "stepper_y.rotation_distance" "Stepper Y Rotation Distance"
      "stepper_y.motor_port" (dec 1 10) (dec 500 1);
    fieldWhen "stepper_y.microsteps" "Stepper Y Microsteps" "stepper_y.motor_port";

    fieldWhen "stepper_z.motor_port" "Stepper Z Motor Port" "printer.kinematics";
    rangeWhen "stepper_z.rotation_distance" "Stepper Z Rotation Distance"
      "stepper_z.motor_port" (dec 1 10) (dec 100 1);

    fieldWhen "stepper_x1.motor_port" "Stepper X1 Motor Port" "printer.awd_enabled";
    fieldWhen "stepper_y1.motor_port" "Stepper Y1 Motor Port" "printer.awd_enabled";

    fieldWhen "stepper_z1.motor_port" "Stepper Z1 Motor Port" "z_config.motor_count >= 2";
    fieldWhen "stepper_z2.motor_port" "Stepper Z2 Motor Port" "z_config.motor_count >= 3";
    fieldWhen "stepper_z3.motor_port" "Stepper Z3 Motor Port" "z_config.motor_count >= 4";

    fieldWhen "extruder.motor_port" "Extruder Motor Port" "printer.kinematics";
    rangeWhen "extruder.rotation_distance" "Extruder Rotation Distance"
      "extruder.motor_port" (dec 1 1) (dec 100 1);

    rangeField "heater_bed.heater_port" "Heater Bed Port" None None;
    fieldWhen "heater_bed.thermistor_port" "Heater Bed Thermistor Port"
      "heater_bed.heater_port";
    fieldWhen "heater_bed.sensor_type" "Heater Bed Sensor Type" "heater_bed.heater_port";
    rangeField "heater_bed.max_temp" "Heater Bed Max Temperature" (dec 50 1) (dec 150 1);

    fieldWhen "extruder.heater_port" "Hotend Heater Port" "extruder.motor_port";
    fieldWhen "extruder.thermistor_port" "Hotend Thermistor Port" "extruder.heater_port";
    fieldWhen "extruder.sensor_type" "Hotend Sensor Type" "extruder.heater_port";
    rangeField "extruder.max_temp" "Hotend Max Temperature" (dec 150 1) (dec 500 1);

    fieldWhen "mcu.toolboard.board_type" "Toolboard Type" "mcu.toolboard.enabled";
    fieldWhen "mcu.toolboard.canbus_uuid" "Toolboard CAN UUID"
      "mcu.toolboard.enabled and mcu.toolboard.connection_type == 'can'" ].

(** [isEmpty] *)
Definition isEmpty (value : Value) : bool :=
  match value with
  | VUndefined | VNull => true
  | VStr s => String.eqb s EmptyString
  | _ => false
  end.

(** *** The two regular expressions of [evaluateSimpleCondition]

    In the comments below [Q] stands for the character class of the two
    quote characters. *)

(** A lazy group [(.+?)] at the start of the text followed by [tail]: the
    shortest non-empty prefix of characters other than line terminators
    after which [tail] matches.  [pre] holds the prefix in reverse. *)
Fixpoint lazyPrefix {A} (tail : string -> option A) (pre s : string)
  : option (string * A) :=
  match s with
  | EmptyString => None
  | String c r =>
      if isDot c then
        match tail r with
        | Some a => Some (revString (String c pre) EmptyString, a)
        | None => lazyPrefix tail (String c pre) r
        end
      else None
  end.

(** [\s*>=\s*(\d+)$]: the digits. *)
Definition geTail (s : string) : option string :=
  match dropWhile isSpace s with
  | String ">" (String "=" r) =>
      let ds := dropWhile isSpace r in
      match ds with
      | EmptyString => None
      | _ => if allChars isDigit ds then Some ds else None
      end
  | _ => None
  end.

(** [condition.match(/^(.+?)\s*>=\s*(\d+)$/)]: the two groups. *)
Definition geMatch (condition : string) : option (string * string) :=
  lazyPrefix geTail EmptyString condition.

Fixpoint lastChar (s : string) : option ascii :=
  match s with
  | EmptyString => None
  | String c EmptyString => Some c
  | String _ r => lastChar r
  end.

Definition initChars (s : string) : string := takeN (String.length s - 1) s.

(** [(.+?)Q?$]: the group is the text without a closing quote when it
    ends with one, the whole text otherwise. *)
Definition valueBody (s : string) : option string :=
  match s, lastChar s with
  | EmptyString, _ | _, None => None
  | _, Some c =>
      let init := initChars s in
      if negb (String.eqb init EmptyString) && allChars isDot init && isQuote c
      then Some init
      else if allChars isDot s then Some s else None
  end.

(** [Q?(.+?)Q?$]: an opening quote is taken when the rest then
    matches. *)
Definition quotedValue (s : string) : option string :=
  match s with
  | String c r =>
      if isQuote c then
        match valueBody r with
        | Some v => Some v
        | None => valueBody s
        end
      else valueBody s
  | EmptyString => None
  end.

(** [\s*] before the value: the longest run of white space first, then
    shorter ones. *)
Fixpoint spacesThenValue (j : nat) (s : string) : option string :=
  match quotedValue (dropN j s) with
  | Some v => Some v
  | None =>
      match j with
      | O => None
      | S j' => spacesThenValue j' s
      end
  end.

(** [\s*==\s*Q?(.+?)Q?$]: the second group. *)
Definition eqTail (s : string) : option string :=
  match dropWhile isSpace s with
  | String "=" (String "=" r) =>
      spacesThenValue (String.length (takeWhile isSpace r)) r
  | _ => None
  end.

(** [condition.match(/^(.+?)\s*==\s*Q?(.+?)Q?$/)]: the two groups. *)
Definition eqMatch (condition : string) : option (string * string) :=
  lazyPrefix eqTail EmptyString condition.

(** [evaluateSimpleCondition]; [fuel] bounds the depth of the recursion
    through the parts of an [and] condition. *)
Fixpoint evaluateSimpleConditionFrom (fuel : nat) (condition : string)
    (state : gmap string Value) : option bool :=
  match fuel with
  | O => None
  | S fuel' =>
      if String.eqb condition EmptyString then Some true
      else
        match geMatch condition with
        | Some (field, valueStr) =>
            let fieldValue := get state (trim field) in
            Some (isFalse (numLt (ToNumber fieldValue) (StringToNumber valueStr)))
        | None =>
            match eqMatch condition with
            | Some (field, value) =>
                Some (strictEq (get state (trim field)) (VStr (trim value)))
            | None =>
                if includes " and " condition then
                  foldr (fun part acc =>
                           match evaluateSimpleConditionFrom fuel' (trim part) state, acc with
                           | Some b, Some rest => Some (b && rest)
                           | _, _ => None
                           end)
                        (Some true) (split " and " condition)
                else Some (ToBoolean (get state (trim condition)))
            end
        end
  end.

(** A run that does not come to a result stands for a call that does not
    return; [evaluateSimpleCondition_total] shows that there is none. *)
Definition evaluateSimpleCondition (condition : string) (state : gmap string Value)
  : bool :=
  default false
    (evaluateSimpleConditionFrom (S (String.length condition)) condition state).

Definition fieldError (def : FieldDefinition) (message : string) : FieldValidation :=
  mkFieldValidation (fd_key def) false (Some message) Error.

(** [validateField] *)
Definition validateField (def : FieldDefinition) (state : gmap string Value)
  : option FieldValidation :=
  let value := get state (fd_key def) in
  let isRequired :=
    fd_required def ||
    match fd_requiredWhen def with
    | Some c => negb (String.eqb c EmptyString) && evaluateSimpleCondition c state
    | None => false
    end in
  if isRequired && isEmpty value then
    Some (fieldError def (fd_label def ++ " is required"))
  else if isEmpty value then None
  else
    match fd_min def with
    | Some min =>
        if typeofNumber value && isTrue (numLt (ToNumber value) min)
        then Some (fieldError def (fd_label def ++ " must be at least " ++ NumberToString min))
        else None
    | None => None
    end
    ∪
    match fd_max def with
    | Some max =>
        if typeofNumber value && isTrue (numLt max (ToNumber value))
        then Some (fieldError def (fd_label def ++ " must be at most " ++ NumberToString max))
        else None
    | None => None
    end
    ∪
    match fd_validValues def with
    | Some validValues =>
        if negb (existsb (String.eqb (ToString value)) validValues)
        then Some (fieldError def
                     (fd_label def ++ " must be one of: " ++ join ", " validValues))
        else None
    | None => None
    end
    ∪
    match fd_validate def with
    | Some validate =>
        match validate value state with
        | Some error =>
            if negb (String.eqb error EmptyString) then Some (fieldError def error) else None
        | None => None
        end
    | None => None
    end.

(** [validateExclusiveGroups] over a table of groups. *)
Definition validateExclusiveGroupsWith (groups : list ExclusiveGroup)
    (state : gmap string Value) : list FieldValidation :=
  fold_left (fun errors group =>
               if grp_required group && isEmpty (get state (grp_stateKey group))
               then (errors ++
                     [mkFieldValidation (grp_stateKey group) false
                        (Some (grp_name group ++ " must be selected")%string) Error])%list
               else errors)
            groups [].

Definition validateExclusiveGroups (state : gmap string Value) : list FieldValidation :=
  validateExclusiveGroupsWith EXCLUSIVE_GROUPS state.

(** [result.message?.includes('required')] *)
Definition mentionsRequired (result : FieldValidation) : bool :=
  match fv_message result with
  | Some m => includes "required" m
  | None => false
  end.

(** The first loop of [validateState]: the accumulators are [errors],
    [warnings], [missingRequired] and [invalidValues]. *)
Definition collectField (state : gmap string Value)
    (acc : list FieldValidation * list FieldValidation * list string * list FieldValidation)
    (def : FieldDefinition)
  : list FieldValidation * list FieldValidation * list string * list FieldValidation :=
  let '(errors, warnings, missingRequired, invalidValues) := acc in
  match validateField def state with
  | Some result =>
      match fv_severity result with
      | Error =>
          if mentionsRequired result
          then ((errors ++ [result])%list, warnings,
                (missingRequired ++ [fd_key def])%list, invalidValues)
          else ((errors ++ [result])%list, warnings, missingRequired,
                (invalidValues ++ [result])%list)
      | Warning => (errors, (warnings ++ [result])%list, missingRequired, invalidValues)
      end
  | None => acc
  end.

(** [conflict.rule.relatedFields?.[0] || conflict.rule.id] *)
Definition conflictField (rule : ConflictRule) : string :=
  match cr_relatedFields rule with
  | Some (f :: _) => if String.eqb f EmptyString then cr_id rule else f
  | _ => cr_id rule
  end.

(** The last loop of [validateState]: the accumulators are [errors] and
    [warnings]. *)
Definition collectConflict (acc : list FieldValidation * list FieldValidation)
    (conflict : Conflict) : list FieldValidation * list FieldValidation :=
  let '(errors, warnings) := acc in
  let rule := conflict_rule conflict in
  match cr_severity rule with
  | SevError =>
      ((errors ++ [mkFieldValidation (conflictField rule) false
                     (Some (cr_message rule)) Error])%list, warnings)
  | SevWarning =>
      (errors, (warnings ++ [mkFieldValidation (conflictField rule) true
                               (Some (cr_message rule)) Warning])%list)
  | SevInfo => acc
  end.

(** [validateState] over the three tables. *)
Definition validateStateWith (defs : list FieldDefinition) (groups : list ExclusiveGroup)
    (rules : list ConflictRule) (state : gmap string Value) : ValidationResult :=
  let '(errors, warnings, missingRequired, invalidValues) :=
    fold_left (collectField state) defs ([], [], [], []) in
  let groupErrors := validateExclusiveGroupsWith groups state in
  let errors := (errors ++ groupErrors)%list in
  let missingRequired := (missingRequired ++ map fv_field groupErrors)%list in
  let conflicts := detectConflictsWith rules state in
  let '(errors, warnings) := fold_left collectConflict conflicts (errors, warnings) in
  mkValidationResult (bool_decide (length errors = 0)) errors warnings conflicts
    missingRequired invalidValues.

Definition validateState (state : gmap string Value) : ValidationResult :=
  validateStateWith FIELD_DEFINITIONS EXCLUSIVE_GROUPS CONFLICT_RULES state.

Record ValidationSummary := mkSummary {
  canGenerate : bool;
  errorCount : nat;
  warningCount : nat;
  completionPercent : Z;
}.

(** [getValidationSummary] over the three tables. *)
Definition getValidationSummaryWith (defs : list FieldDefinition)
    (groups : list ExclusiveGroup) (rules : list ConflictRule)
    (state : gmap string Value) : ValidationSummary :=
  let result := validateStateWith defs groups rules state in
  let requiredFields := List.filter fd_required defs in
  let filledRequired :=
    length (List.filter (fun f => negb (isEmpty (get state (fd_key f)))) requiredFields) in
  let completionPercent :=
    if (0 <? length requiredFields)
    then MathRound (Qmult (Qdiv (inject_Z (Z.of_nat filledRequired))
                                (inject_Z (Z.of_nat (length requiredFields))))
                          (inject_Z 100))
    else 100%Z in
  mkSummary (vr_valid result) (length (vr_errors result)) (length (vr_warnings result))
    completionPercent.

Definition getValidationSummary (state : gmap string Value) : ValidationSummary :=
  getValidationSummaryWith FIELD_DEFINITIONS EXCLUSIVE_GROUPS CONFLICT_RULES state.

(** ** Condition engine: lists of conditions and dependencies *)

(** [evaluateConditions] *)
Definition evaluateConditions (conditions : list (option string))
    (state : gmap string Value) : bool :=
  forallb (fun c => evaluateCondition c state) conditions.

(** [evaluateAnyCondition] *)
Definition evaluateAnyCondition (conditions : list (option string))
    (state : gmap string Value) : bool :=
  if length conditions =? 0 then true
  else existsb (fun c => evaluateCondition c state) conditions.

(** The values of the IDENTIFIER tokens, in order. *)
Definition identifierNames (tokens : list Token) : list string :=
  omap (fun t =>
          match tok_type t, tok_value t with
          | IDENTIFIER, VStr name => Some name
          | _, _ => None
          end) tokens.

(** [[...new Set(deps)]]: the first occurrence of every element, in order;
    [seen] holds the elements met so far. *)
Fixpoint uniqueFrom (seen l : list string) : list string :=
  match l with
  | [] => []
  | x :: r =>
      if existsb (String.eqb x) seen then uniqueFrom seen r
      else x :: uniqueFrom (x :: seen) r
  end.

(** [getConditionDependencies]; the tokenizer comes to a result on every
    text ([tokenize_total]). *)
Definition getConditionDependencies (condition : option string) : list string :=
  match condition with
  | None => []
  | Some c =>
      if String.eqb c EmptyString then []
      else uniqueFrom [] (identifierNames (default [] (tokenize c)))
  end.

(** ** Exclusive groups: look-up and availability *)

Definition getExclusiveGroup (id : string) : option ExclusiveGroup :=
  find (fun g => String.eqb (grp_id g) id) EXCLUSIVE_GROUPS.

Definition getGroupForStateKey (stateKey : string) : option ExclusiveGroup :=
  find (fun g => String.eqb (grp_stateKey g) stateKey) EXCLUSIVE_GROUPS.

(** [group.options.find(o => o.value === state[group.stateKey])] *)
Definition getSelectedOption (group : ExclusiveGroup) (state : gmap string Value)
  : option ExclusiveOption :=
  let value := get state (grp_stateKey group) in
  find (fun o => strictEq (VStr (opt_value o)) value) (grp_options group).

(** [if (!condition) return true; return evaluateCondition(condition, state)] *)
Definition conditionHolds (condition : option string) (state : gmap string Value)
    (evaluate : string -> gmap string Value -> bool) : bool :=
  match condition with
  | Some c => String.eqb c EmptyString || evaluate c state
  | None => true
  end.

Definition getAvailableOptions (group : ExclusiveGroup) (state : gmap string Value)
    (evaluate : string -> gmap string Value -> bool) : list ExclusiveOption :=
  List.filter (fun option => conditionHolds (opt_condition option) state evaluate)
    (grp_options group).

Definition isGroupRelevant (group : ExclusiveGroup) (state : gmap string Value)
    (evaluate : string -> gmap string Value -> bool) : bool :=
  conditionHolds (grp_condition group) state evaluate.

Definition getRelevantGroups (state : gmap string Value)
    (evaluate : string -> gmap string Value -> bool) : list ExclusiveGroup :=
  List.filter (fun g => isGroupRelevant g state evaluate) EXCLUSIVE_GROUPS.

(** ** Implications: active rules and dynamic values *)

Definition getActiveImplications (state : gmap string Value) : list Implication :=
  List.filter (fun imp => evaluateCondition (Some (imp_condition imp)) state) IMPLICATIONS.

(** [field in implication.setValues] *)
Definition setsField (field : string) (imp : Implication) : bool :=
  existsb (String.eqb field) (map fst (imp_setValues imp)).

Definition getImplicationForField (field : string) (state : gmap string Value)
  : option Implication :=
  find (fun imp => setsField field imp &&
                   evaluateCondition (Some (imp_condition imp)) state)
       IMPLICATIONS.

(** [Math.round(x / 2)] on a number. *)
Definition roundHalf (n : Number) : Number :=
  match n with
  | Fin q => Fin (inject_Z (MathRound (Qdiv q (inject_Z 2))))
  | other => other
  end.

(** [calculateDynamicImplications] *)
Definition calculateDynamicImplications (state : gmap string Value) : gmap string Value :=
  let bedX := get state "printer.bed_size_x" in
  let bedY := get state "printer.bed_size_y" in
  if ToBoolean bedX && ToBoolean bedY then
    if negb (ToBoolean (get state "safe_z_home.home_xy_position")) then
      <["safe_z_home.home_y" := VNum (roundHalf (ToNumber bedY))]>
        (<["safe_z_home.home_x" := VNum (roundHalf (ToNumber bedX))]> ∅)
    else ∅
  else ∅.

(** ** Conflicts: views of the detected conflicts *)

Definition getConflictsByCategory (state : gmap string Value) (category : ConflictCategory)
  : list Conflict :=
  filter (fun c => cr_category (conflict_rule c) = category) (detectConflicts state).

Definition hasSeverity (severity : ConflictSeverity) (c : Conflict) : bool :=
  bool_decide (cr_severity (conflict_rule c) = severity).

Definition hasErrors (state : gmap string Value) : bool :=
  existsb (hasSeverity SevError) (detectConflicts state).

Definition hasWarnings (state : gmap string Value) : bool :=
  existsb (hasSeverity SevWarning) (detectConflicts state).

Record ConflictSummary := mkConflictSummary {
  cs_errors : nat;
  cs_warnings : nat;
  cs_info : nat;
  cs_total : nat;
}.

Definition getConflictSummary (state : gmap string Value) : ConflictSummary :=
  let conflicts := detectConflicts state in
  mkConflictSummary
    (length (List.filter (hasSeverity SevError) conflicts))
    (length (List.filter (hasSeverity SevWarning) conflicts))
    (length (List.filter (hasSeverity SevInfo) conflicts))
    (length conflicts).

(** [c.rule.relatedFields?.includes(field)] *)
Definition relatesTo (field : string) (c : Conflict) : bool :=
  match cr_relatedFields (conflict_rule c) with
  | Some fields => existsb (String.eqb field) fields
  | None => false
  end.

Definition getFieldConflicts (state : gmap string Value) (field : string) : list Conflict :=
  List.filter (relatesTo field) (detectConflicts state).

(** ** Inheritance: the other queries *)

Definition shouldInherit (stepperName : string) (state : gmap string Value)
    (evaluate : string -> gmap string Value -> bool) : bool :=
  match getInheritanceRelation stepperName with
  | None => false
  | Some relation => negb (conditionFails relation state evaluate)
  end.

Definition copyStepperSettings (fromStepper toStepper : string)
    (state : gmap string Value) (fieldsToSkip : list string) : gmap string Value :=
  fold_left (fun copied field =>
               if existsb (String.eqb field) fieldsToSkip then copied
               else
                 let fromValue := get state (fieldKey fromStepper field) in
                 if negb (strictEq fromValue VUndefined)
                 then <[fieldKey toStepper field := fromValue]> copied
                 else copied)
            COPYABLE_STEPPER_FIELDS ∅.

(** [childValue !== undefined && childValue !== parentValue] *)
Definition differsFromParent (stepperName : string) (relation : InheritanceRelation)
    (state : gmap string Value) (field : string) : bool :=
  let childValue := get state (fieldKey stepperName field) in
  let parentValue := get state (fieldKey (rel_parent relation) field) in
  negb (strictEq childValue VUndefined) && negb (strictEq childValue parentValue).

Definition hasCustomValues (stepperName : string) (state : gmap string Value)
    (evaluate : string -> gmap string Value -> bool) : bool :=
  match getInheritanceRelation stepperName with
  | None => true
  | Some relation =>
      if conditionFails relation state evaluate then true
      else existsb (differsFromParent stepperName relation state) (rel_fields relation)
  end.

Definition getCustomFields (stepperName : string) (state : gmap string Value)
    (evaluate : string -> gmap string Value -> bool) : list string :=
  match getInheritanceRelation stepperName with
  | None => []
  | Some relation =>
      if conditionFails relation state evaluate then []
      else List.filter (differsFromParent stepperName relation state) (rel_fields relation)
  end.

(** ** Validator: the quick check *)

Definition isValidForGeneration (state : gmap string Value) : bool :=
  if negb (ToBoolean (get state "printer.kinematics")) ||
     negb (ToBoolean (get state "mcu.main.board_type"))
  then false
  else if existsb (hasSeverity SevError) (detectConflicts state) then false
  else true.

(** ** The store (wizardStore.ts) *)

(** [cleanState] *)
Definition cleanState (state : gmap string Value) : gmap string Value :=
  map_fold (fun key value cleaned =>
              if negb (isEmptyValue value) then <[key := value]> cleaned else cleaned)
           ∅ state.

(** [array.slice(0, end)] *)
Definition sliceTo {A} (l : list A) (stop : Z) : list A :=
  if (stop <? 0)%Z then firstn (Z.to_nat (Z.of_nat (length l) + stop)) l
  else firstn (Z.to_nat stop) l.

(** [{ ...history[i] }]: an index out of range gives the empty object. *)
Definition entryAt (history : list (gmap string Value)) (i : Z) : gmap string Value :=
  if (i <? 0)%Z then ∅ else default ∅ (history !! Z.to_nat i).

Record WizardStore := mkStore {
  ws_state : gmap string Value;
  ws_history : list (gmap string Value);
  ws_historyIndex : Z;
  ws_activePanel : option string;
}.

Module Store.

Definition initial : WizardStore := mkStore ∅ [] (-1) None.

Definition pushHistory (s : WizardStore) : WizardStore :=
  let newHistory := (sliceTo (ws_history s) (ws_historyIndex s + 1) ++ [ws_state s])%list in
  let newHistory := if 20 <? length newHistory then tl newHistory else newHistory in
  mkStore (ws_state s) newHistory (Z.of_nat (length newHistory) - 1) (ws_activePanel s).

(** Every action below reads [state] before it calls [pushHistory], which
    leaves [state] as it is. *)
Definition withState (s : WizardStore) (newState : gmap string Value) : WizardStore :=
  let s' := pushHistory s in
  mkStore newState (ws_history s') (ws_historyIndex s') (ws_activePanel s').

Definition setField (key : string) (value : Value) (s : WizardStore) : WizardStore :=
  withState s
    (if isEmptyValue value then delete key (ws_state s)
     else <[key := value]> (ws_state s)).

Definition setFields (fields : gmap string Value) (s : WizardStore) : WizardStore :=
  withState s (setFields (ws_state s) fields).

Definition deleteField (key : string) (s : WizardStore) : WizardStore :=
  withState s (delete key (ws_state s)).

(** [state[key] ?? defaultValue] *)
Definition getFieldValue (key : string) (defaultValue : Value) (s : WizardStore) : Value :=
  match get (ws_state s) key with
  | VUndefined | VNull => defaultValue
  | v => v
  end.

Definition setActivePanel (panel : option string) (s : WizardStore) : WizardStore :=
  mkStore (ws_state s) (ws_history s) (ws_historyIndex s) panel.

Definition loadState (newState : gmap string Value) (s : WizardStore) : WizardStore :=
  withState s (cleanState newState).

Definition resetState (s : WizardStore) : WizardStore :=
  let s' := pushHistory s in
  mkStore ∅ (ws_history s') (ws_historyIndex s') None.

Definition undo (s : WizardStore) : WizardStore :=
  if (0 <? ws_historyIndex s)%Z then
    mkStore (entryAt (ws_history s) (ws_historyIndex s - 1)) (ws_history s)
      (ws_historyIndex s - 1) (ws_activePanel s)
  else s.

Definition redo (s : WizardStore) : WizardStore :=
  if (ws_historyIndex s <? Z.of_nat (length (ws_history s)) - 1)%Z then
    mkStore (entryAt (ws_history s) (ws_historyIndex s + 1)) (ws_history s)
      (ws_historyIndex s + 1) (ws_activePanel s)
  else s.

End Store.

(** ** The hook (useWizardLogic.ts)

    A render of the component calls [useWizardLogic], which reads the state
    of the store and builds its callbacks over it.  A callback keeps the
    state of its render until the component renders again, while the
    [setFields] that it calls reads the store as it is when the callback
    runs.  Below [state] is the state that the render has read, and [s] the
    store at the time of the call. *)

(** The hook's [evaluate]: the state is that of the render, whatever state
    the caller hands over. *)
Definition hookEvaluate (state : gmap string Value) (condition : string)
    (_ : gmap string Value) : bool :=
  evaluateCondition (Some condition) state.

(** [applyImplicationsToState] *)
Definition applyImplicationsToState (state : gmap string Value) (s : WizardStore)
  : WizardStore :=
  let result := applyImplications state ∅ in
  if 0 <? size (changedValues result) then Store.setFields (changedValues result) s
  else s.

(** [applyStepperInheritance] *)
Definition applyStepperInheritance (state : gmap string Value) (stepperName : string)
    (s : WizardStore) : WizardStore :=
  let changes := applyInheritance stepperName state (hookEvaluate state) in
  if 0 <? size changes then Store.setFields changes s else s.

(** ** Specification-side definitions *)

(** An absent, empty or blank condition. *)
Definition blank (c : string) : bool :=
  String.eqb c EmptyString || String.eqb (trim c) EmptyString.

(** The values that [Boolean] maps to [false]. *)
Inductive Falsy : Value -> Prop :=
| Falsy_undefined : Falsy VUndefined
| Falsy_null : Falsy VNull
| Falsy_false : Falsy (VBool false)
| Falsy_empty : Falsy (VStr EmptyString)
| Falsy_nan : Falsy (VNum NaN)
| Falsy_zero q : Qeq q 0 -> Falsy (VNum (Fin q)).

(** The state of the Z tilt scenario. *)
Definition zTiltState : gmap string Value :=
  {[ "leveling.type" := VStr "z_tilt"; "z_config.motor_count" := num 4 ]}.

(** What a conflict shows: the id and severity of its rule, and its context. *)
Definition conflictView (c : Conflict) : string * ConflictSeverity * gmap string Value :=
  (cr_id (conflict_rule c), cr_severity (conflict_rule c), conflict_context c).

(** The completion ratio in the words of the specification.  A field is
    filled when its value is not absent, [null] or the empty string; the
    counts range over the field rules that carry the unconditional flag
    [required]; [p] is the rounded [q] when it is the integer nearest to
    [q], the upper one when two are as near. *)
Definition Filled (v : Value) : Prop :=
  v <> VUndefined /\ v <> VNull /\ v <> VStr EmptyString.

Global Instance Filled_dec v : Decision (Filled v).
Proof. unfold Filled. apply _. Defined.

Definition totalCount (defs : list FieldDefinition) : nat :=
  length (List.filter fd_required defs).

Definition filledCount (defs : list FieldDefinition) (state : gmap string Value) : nat :=
  length (List.filter
            (fun f => fd_required f && bool_decide (Filled (get state (fd_key f)))) defs).

Definition completionRatio (defs : list FieldDefinition) (state : gmap string Value) : Q :=
  Qdiv (inject_Z (100 * Z.of_nat (filledCount defs state)))
       (inject_Z (Z.of_nat (totalCount defs))).

Definition RoundsTo (q : Q) (p : Z) : Prop :=
  Qle (inject_Z p) (Qplus q (1 # 2)) /\ Qlt (Qplus q (1 # 2)) (inject_Z (p + 1)).

(** Five unconditionally required fields, for the completion example of
    the specification. *)
Definition fiveRequired : list FieldDefinition :=
  map (fun k => requiredField k k None) ["a"; "b"; "c"; "d"; "e"].

(** The diff of [selectOption] in the words of the specification.  A key
    that maps to [VUndefined] is marked DELETE. *)
Definition deleteMarks (keys : list string) : gmap string Value :=
  list_to_map (map (fun k => (k, VUndefined)) keys).

Definition impliedOf (o : ExclusiveOption) : list (string * Value) :=
  default [] (opt_impliedValues o).

(** The implied keys of every option other than the one [optionValue]
    names. *)
Definition otherImpliedKeys (group : ExclusiveGroup) (optionValue : string) : list string :=
  concat (map (fun o => if String.eqb (opt_value o) optionValue then []
                        else map fst (impliedOf o))
              (grp_options group)).

(** Start with the target key; merge the chosen option's implied values
    in; mark DELETE every implied key of another option that is not in the
    diff yet; mark DELETE every key of the chosen option's [clearValues]. *)
Definition selectOptionSpec (group : ExclusiveGroup) (optionValue : string)
    (chosen : ExclusiveOption) : gmap string Value :=
  let diff : gmap string Value := {[ grp_stateKey group := VStr optionValue ]} in
  let diff := list_to_map (reverse (impliedOf chosen)) ∪ diff in
  let diff := diff ∪ deleteMarks (otherImpliedKeys group optionValue) in
  deleteMarks (default [] (opt_clearValues chosen)) ∪ diff.

(** The group of the retraction example: option A implies [x = 1], option
    B implies nothing. *)
Definition retractionGroup : ExclusiveGroup :=
  mkGroup "example" "Example" "choice"
    [ mkOption "A" "A" (Some [("x", num 1)]) None None; plainOption "B" "B" ]
    None false.

(** The message of a field error that comes from one of the two range
    checks of [validateField]. *)
Definition isRangeMessage (message : option string) : bool :=
  match message with
  | Some m => includes " must be at least " m || includes " must be at most " m
  | None => false
  end.

(** The field rule [def] without its bounds. *)
Definition withoutBounds (def : FieldDefinition) : FieldDefinition :=
  mkField (fd_key def) (fd_label def) (fd_required def) (fd_requiredWhen def)
    None None (fd_validValues def) (fd_validate def).

(** The field rule of the X rotation distance, with bounds 0.1 and 500. *)
Definition rotationDistanceX : FieldDefinition :=
  rangeWhen "stepper_x.rotation_distance" "Stepper X Rotation Distance"
    "stepper_x.motor_port" (dec 1 10) (dec 500 1).

(** The one [requiredWhen] condition of the field table that joins two
    tests by [and], its field rule, and a state in which both tests hold. *)
Definition canbusCondition : string :=
  "mcu.toolboard.enabled and mcu.toolboard.connection_type == 'can'".

Definition canbusField : FieldDefinition :=
  fieldWhen "mcu.toolboard.canbus_uuid" "Toolboard CAN UUID" canbusCondition.

Definition canbusState : gmap string Value :=
  {[ "mcu.toolboard.enabled" := VBool true;
     "mcu.toolboard.connection_type" := VStr "can" ]}.

Global Instance Implication_eq_dec : EqDecision Implication.
Proof. solve_decision. Defined.

(** The condition of a rule holds over the state. *)
Definition fires (state : gmap string Value) (imp : Implication) : bool :=
  evaluateCondition (Some (imp_condition imp)) state.

(** The rule leaves the key to the user: it allows overriding and the user
    has set the key. *)
Definition heldBack (imp : Implication) (userOverrides : gset string) (key : string)
  : bool :=
  imp_allowOverride imp && bool_decide (key ∈ userOverrides).

Definition setKeys (imp : Implication) : list string := map fst (imp_setValues imp).

(** [a] stands before [b] in the list. *)
Definition precedes {A} (l : list A) (a b : A) : Prop :=
  exists l1 l2 l3, l = (l1 ++ a :: l2 ++ b :: l3)%list.

(** Rule [lo] is applied before rule [hi]: its priority is lower, or the
    priorities are equal and [lo] is declared first. *)
Definition appliedBefore (rules : list Implication) (lo hi : Implication) : Prop :=
  (priorityOf lo < priorityOf hi)%Z \/
  (priorityOf lo = priorityOf hi /\ precedes rules lo hi).

(** Two rules for one key: a default of priority 0 and a specific rule of
    priority 1, which allows overriding or not. *)
Definition defaultRule : Implication :=
  mkImplication "default" "a default" "true" [("k", VStr "low")] false None.

Definition specificRule (allowOverride : bool) : Implication :=
  mkImplication "specific" "a specific rule" "true" [("k", VStr "high")]
    allowOverride (Some 1%Z).

(** The keys that the rules of a table set. *)
Definition allSetKeys (rules : list Implication) : list string :=
  concat (map setKeys rules).

(** ** Definitions for the further properties *)

(** The two states agree on the keys that the IDENTIFIER tokens of [ts]
    name. *)
Definition agreeOn (state1 state2 : gmap string Value) (ts : list Token) : Prop :=
  forall t, In t ts -> tok_type t = IDENTIFIER ->
    get state1 (ToString (tok_value t)) = get state2 (ToString (tok_value t)).

(** Two runs of a parser function came to the same result, and the states
    agree on the tokens that remain. *)
Definition same (state1 state2 : gmap string Value) {A}
    (r1 r2 : option (A * list Token)) : Prop :=
  r1 = r2 /\ forall v ts, r1 = Some (v, ts) -> agreeOn state1 state2 ts.

(** With fuel [n] every function of the parser runs alike on the two
    states. *)
Definition same_at (state1 state2 : gmap string Value) (n : nat) : Prop :=
  (forall ts, agreeOn state1 state2 ts ->
     same state1 state2 (parseOr state1 n ts) (parseOr state2 n ts)) /\
  (forall lhs ts, agreeOn state1 state2 ts ->
     same state1 state2 (parseOrLoop state1 n lhs ts) (parseOrLoop state2 n lhs ts)) /\
  (forall ts, agreeOn state1 state2 ts ->
     same state1 state2 (parseAnd state1 n ts) (parseAnd state2 n ts)) /\
  (forall lhs ts, agreeOn state1 state2 ts ->
     same state1 state2 (parseAndLoop state1 n lhs ts) (parseAndLoop state2 n lhs ts)) /\
  (forall ts, agreeOn state1 state2 ts ->
     same state1 state2 (parseNot state1 n ts) (parseNot state2 n ts)) /\
  (forall ts, agreeOn state1 state2 ts ->
     same state1 state2 (parseComparison state1 n ts) (parseComparison state2 n ts)) /\
  (forall ts, agreeOn state1 state2 ts ->
     same state1 state2 (parseArray state1 n ts) (parseArray state2 n ts)) /\
  (forall items ts, agreeOn state1 state2 ts ->
     same state1 state2 (parseArrayLoop state1 n items ts)
                        (parseArrayLoop state2 n items ts)) /\
  (forall ts, agreeOn state1 state2 ts ->
     same state1 state2 (parsePrimary state1 n ts) (parsePrimary state2 n ts)).

(** A state that the validator accepts: a CoreXY printer with its three
    axes and its extruder. *)
Definition validState : gmap string Value :=
  list_to_map
    [ ("printer.kinematics", VStr "corexy"); ("mcu.main.board_type", VStr "octopus");
      ("stepper_x.motor_port", VStr "M0"); ("stepper_x.step_pin", VStr "PF13");
      ("stepper_x.dir_pin", VStr "PF12"); ("stepper_x.enable_pin", VStr "PF14");
      ("stepper_x.rotation_distance", num 40); ("stepper_x.microsteps", num 16);
      ("stepper_y.motor_port", VStr "M1"); ("stepper_y.step_pin", VStr "PG0");
      ("stepper_y.dir_pin", VStr "PG1"); ("stepper_y.enable_pin", VStr "PF15");
      ("stepper_y.rotation_distance", num 40); ("stepper_y.microsteps", num 16);
      ("stepper_z.motor_port", VStr "M2"); ("stepper_z.rotation_distance", num 8);
      ("extruder.motor_port", VStr "M3"); ("extruder.rotation_distance", num 22);
      ("extruder.heater_port", VStr "HE0"); ("extruder.thermistor_port", VStr "T0");
      ("extruder.sensor_type", VStr "Generic 3950") ].

(** The group has an option that carries a condition. *)
Definition hasConditionalOption (group : ExclusiveGroup) : bool :=
  existsb (fun o => bool_decide (opt_condition o <> None)) (grp_options group).

(** The state holds no empty value: no [undefined], [null] or empty
    string. *)
Definition noEmptyValues (state : gmap string Value) : Prop :=
  forall key value, state !! key = Some value -> isEmptyValue value = false.

(** The actions of the store. *)
Inductive Action :=
| SetField (key : string) (value : Value)
| SetFields (fields : gmap string Value)
| DeleteField (key : string)
| SetActivePanel (panel : option string)
| LoadState (newState : gmap string Value)
| ResetState
| PushHistory
| Undo
| Redo.

Definition perform (s : WizardStore) (action : Action) : WizardStore :=
  match action with
  | SetField key value => Store.setField key value s
  | SetFields fields => Store.setFields fields s
  | DeleteField key => Store.deleteField key s
  | SetActivePanel panel => Store.setActivePanel panel s
  | LoadState newState => Store.loadState newState s
  | ResetState => Store.resetState s
  | PushHistory => Store.pushHistory s
  | Undo => Store.undo s
  | Redo => Store.redo s
  end.

(** The store after a run of actions from the initial store. *)
Definition run (actions : list Action) : WizardStore :=
  fold_left perform actions Store.initial.

(** The state and every entry of the history hold no empty value, the
    history holds at most 20 states, and the index is -1 or points into the
    history. *)
Definition wellFormed (s : WizardStore) : Prop :=
  noEmptyValues (ws_state s) /\
  Forall noEmptyValues (ws_history s) /\
  length (ws_history s) <= 20 /\
  (-1 <= ws_historyIndex s < Z.of_nat (length (ws_history s)))%Z.

(** The words of the condition language; the tokenizer knows them in any
    letter case. *)
Definition reservedWords : list string :=
  ["and"; "or"; "not"; "in"; "true"; "false"].

(** A bare identifier, as a key of the wizard is: a letter or an underscore
    followed by letters, digits, underscores and dots, which is no word of
    the condition language and, as written and in lower case, no name of a
    member of [Object.prototype]. *)
Definition isIdentifier (key : string) : bool :=
  match key with
  | EmptyString => false
  | String c _ =>
      isIdentStart c && allChars isIdentChar key &&
      negb (existsb (String.eqb (toLowerCase key)) reservedWords) &&
      negb (existsb (String.eqb key) prototypeMembers) &&
      negb (existsb (String.eqb (toLowerCase key)) prototypeMembers)
  end.

(** * Properties *)

(** Closed equations between maps are settled by evaluating the decision
    of their equality. *)
Ltac by_decision := apply (bool_decide_unpack _); vm_compute; exact I.

(** ** Strings *)

Lemma length_dropN n s : String.length (dropN n s) = String.length s - n.
Proof.
  revert n; induction s as [|c r IH]; intros [|n]; cbn; auto.
Qed.

#[local] Arguments dropN : simpl never.
#[local] Arguments takeWhile : simpl never.

Lemma takeWhile_nonempty p c r :
  p c = true -> 1 <= String.length (takeWhile p (String c r)).
Proof. intros H. unfold takeWhile. rewrite H. cbn. lia. Qed.

Lemma allChars_revString p s acc :
  allChars p (revString s acc) = allChars p s && allChars p acc.
Proof.
  revert acc; induction s as [|c r IH]; intros acc; cbn; [reflexivity|].
  rewrite IH. cbn. destruct (p c), (allChars p r), (allChars p acc); reflexivity.
Qed.

Lemma revString_empty s acc : revString s acc = EmptyString -> s = EmptyString.
Proof.
  revert acc; induction s as [|c r IH]; intros acc; cbn; [reflexivity|].
  intros H. pose proof (IH _ H) as Hr. subst r. cbn in H. discriminate H.
Qed.

Lemma dropWhile_empty p s : dropWhile p s = EmptyString -> allChars p s = true.
Proof.
  induction s as [|c r IH]; cbn; [reflexivity|].
  destruct (p c); [exact IH|discriminate].
Qed.

Lemma dropWhile_head p s c r : dropWhile p s = String c r -> p c = false.
Proof.
  induction s as [|d t IH]; cbn; [discriminate|].
  destruct (p d) eqn:Hd; [exact IH|]. intros [= -> ->]. exact Hd.
Qed.

(** A condition that trims to nothing holds white space only. *)
Lemma trim_empty s : trim s = EmptyString -> allChars isSpace s = true.
Proof.
  unfold trim, trimEnd, trimStart. intros H.
  apply revString_empty, dropWhile_empty in H.
  rewrite allChars_revString, andb_true_r in H.
  destruct (dropWhile isSpace s) as [|c r] eqn:Hd.
  - apply dropWhile_empty, Hd.
  - apply dropWhile_head in Hd. cbn in H. rewrite Hd in H. discriminate H.
Qed.

(** ** The tokenizer returns *)

Lemma operators_nonempty op s :
  find (fun o => startsWith o s) operators = Some op -> 1 <= String.length op.
Proof.
  unfold operators. cbn [find].
  repeat (destruct (startsWith _ s); [intros [= <-]; cbn; lia|]).
  discriminate.
Qed.

Lemma tokenizeFrom_total fuel s :
  String.length s < fuel -> is_Some (tokenizeFrom fuel s).
Proof.
  revert s; induction fuel as [|fuel IH]; intros s Hlen; [lia|].
  destruct s as [|c rest]; [cbn; eauto|]; cbn [tokenizeFrom].
  cbn [String.length] in Hlen.
  destruct (isSpace c); [apply IH; lia|].
  destruct (isQuote c).
  { apply fmap_is_Some, IH. rewrite length_dropN. lia. }
  destruct (isDigit c || _) eqn:Hnum.
  { apply fmap_is_Some, IH. rewrite length_dropN.
    destruct (Ascii.eqb c "-") eqn:Hc; [lia|].
    cbn [andb] in Hnum. rewrite orb_false_r in Hnum.
    assert (isNumChar c = true) as Hn by (unfold isNumChar; rewrite Hnum; reflexivity).
    pose proof (takeWhile_nonempty isNumChar c rest Hn). cbn [String.length] in *. lia. }
  destruct (find (fun op => startsWith op (String c rest)) operators) as [op|] eqn:Hop.
  { apply fmap_is_Some, IH. rewrite length_dropN.
    apply operators_nonempty in Hop. cbn [String.length]. lia. }
  destruct (punctuation c); [apply fmap_is_Some, IH; lia|].
  destruct (isIdentStart c) eqn:Hid; [|apply IH; lia].
  apply fmap_is_Some, IH. rewrite length_dropN.
  assert (isIdentChar c = true) as Hn by (unfold isIdentChar; rewrite Hid; reflexivity).
  pose proof (takeWhile_nonempty isIdentChar c rest Hn). cbn [String.length] in *. lia.
Qed.

Lemma tokenize_total c : is_Some (tokenize c).
Proof. apply tokenizeFrom_total. lia. Qed.

Lemma tokenizeFrom_blank fuel s :
  String.length s < fuel -> allChars isSpace s = true ->
  tokenizeFrom fuel s = Some [eofToken].
Proof.
  revert s; induction fuel as [|fuel IH]; intros s Hlen Hs; [lia|].
  destruct s as [|c rest]; [reflexivity|]. cbn [tokenizeFrom].
  cbn in Hlen, Hs. apply andb_true_iff in Hs as [-> Hrest].
  apply IH; [lia|exact Hrest].
Qed.

(** ** The parser returns *)

Section ParserTotal.
Variable state : gmap string Value.

(** A call that returns, leaving no more tokens than it was given. *)
Definition returns {A} (r : option (A * list Token)) (ts : list Token) : Prop :=
  exists v ts', r = Some (v, ts') /\ length ts' <= length ts.

(** A call that returns and has passed over a token. *)
Definition consumes {A} (r : option (A * list Token)) (ts : list Token) : Prop :=
  exists v ts', r = Some (v, ts') /\ length ts' < length ts.

Lemma isType_cons ty ts :
  isType ty (current ts) = true -> ty <> EOF ->
  exists t r, ts = t :: r.
Proof.
  destruct ts as [|t r]; [|eauto].
  unfold isType, current. cbn. intros H%bool_decide_eq_true. congruence.
Qed.

Lemma length_advance ts : length (advance ts) <= length ts.
Proof. destruct ts; cbn; lia. Qed.

(** On [l - 1] tokens or fewer every parsing function returns when its
    fuel is at least [5 * l] less a margin of its own. *)
Definition total_at (l : nat) : Prop :=
  forall ts, length ts < l ->
    (forall n, 5 * l <= n + 4 -> returns (parseArray state n ts) ts) /\
    (forall n, 5 * l <= n + 3 ->
       returns (parsePrimary state n ts) ts /\
       (ts <> [] -> consumes (parsePrimary state n ts) ts)) /\
    (forall n items, 5 * l <= n + 2 -> returns (parseArrayLoop state n items ts) ts) /\
    (forall n, 5 * l <= n + 2 -> returns (parseComparison state n ts) ts) /\
    (forall n, 5 * l <= n + 1 -> returns (parseNot state n ts) ts) /\
    (forall n lhs, 5 * l <= n + 4 -> returns (parseAndLoop state n lhs ts) ts) /\
    (forall n, 5 * l <= n -> returns (parseAnd state n ts) ts) /\
    (forall n lhs, 5 * l <= n + 4 -> returns (parseOrLoop state n lhs ts) ts) /\
    (forall n, 5 * l + 1 <= n -> returns (parseOr state n ts) ts).

Ltac fuel n := destruct n as [|n]; [lia|]; cbn -[isType current advance peek].
Ltac done_with := eexists _, _; split; [reflexivity|cbn; lia].

Lemma total_step l : total_at l -> total_at (S l).
Proof.
  intros IH.
  assert (HArr : forall ts, length ts < S l ->
            forall n, 5 * S l <= n + 4 -> returns (parseArray state n ts) ts).
  { intros ts Hlen n Hn. fuel n.
    destruct (isType LBRACKET (current ts)) eqn:Hb; cbn [negb].
    - destruct (isType_cons _ _ Hb) as (t & r & ->); [discriminate|].
      cbn [advance tl].
      destruct (IH r) as (_ & _ & HL & _); [cbn in Hlen; lia|].
      destruct (HL n []) as (v & ts' & -> & Hle); [lia|].
      done_with.
    - exists [], ts. auto. }
  assert (HPrim : forall ts, length ts < S l -> forall n, 5 * S l <= n + 3 ->
       returns (parsePrimary state n ts) ts /\
       (ts <> [] -> consumes (parsePrimary state n ts) ts)).
  { intros ts Hlen n Hn. fuel n.
    assert (Hadv : forall v : PVal,
               returns (Some (v, advance ts)) ts /\
               (ts <> [] -> consumes (Some (v, advance ts)) ts)).
    { intros v. split; [|intros Hne]; exists v, (advance ts); split; auto.
      - apply length_advance.
      - destruct ts; [congruence|cbn; lia]. }
    destruct (tok_type (current ts)) eqn:Hty; try apply Hadv.
    - (* an opening parenthesis *)
      destruct ts as [|t r]; [discriminate Hty|]. cbn [advance tl].
      destruct (IH r) as (_ & _ & _ & _ & _ & _ & _ & _ & HOr); [cbn in Hlen; lia|].
      destruct (HOr n) as (v & ts' & -> & Hle); [lia|].
      assert (length (if isType RPAREN (current ts') then advance ts' else ts')
              <= length r) as Hfin.
      { destruct (isType RPAREN (current ts')); [|lia].
        pose proof (length_advance ts'). lia. }
      split; [|intros _]; done_with.
    - (* an opening bracket: the array call passes over it *)
      assert (Hb : isType LBRACKET (current ts) = true)
        by (unfold isType; rewrite Hty; reflexivity).
      destruct (isType_cons _ _ Hb) as (t & r & ->); [discriminate|].
      destruct n as [|n]; [lia|].
      cbn -[isType current advance peek].
      rewrite Hb. cbn [negb advance tl].
      destruct (IH r) as (_ & _ & HL & _); [cbn in Hlen; lia|].
      destruct (HL n []) as (v' & ts'' & Heq' & Hle'); [lia|].
      rewrite Heq'.
      split; [|intros _]; done_with. }
  assert (HLoop : forall ts, length ts < S l -> forall n items, 5 * S l <= n + 2 ->
             returns (parseArrayLoop state n items ts) ts).
  { intros ts Hlen n items Hn. fuel n.
    destruct (isType RBRACKET (current ts)).
    { eexists _, _; split; [reflexivity|apply length_advance]. }
    destruct (isType EOF (current ts)) eqn:Heof; [done_with|].
    assert (ts <> []) as Hne.
    { intros ->. unfold isType, current in Heof. cbn in Heof.
      rewrite bool_decide_eq_false in Heof. congruence. }
    destruct (HPrim ts Hlen n) as [_ HP]; [lia|].
    destruct (HP Hne) as (v & ts1 & -> & Hlt).
    set (ts2 := if isType COMMA (current ts1) then advance ts1 else ts1).
    assert (length ts2 <= length ts1) as Hle2.
    { subst ts2. destruct (isType COMMA (current ts1)); [apply length_advance|lia]. }
    destruct (IH ts2) as (_ & _ & HL & _); [lia|].
    destruct (HL n (items ++ [v])%list) as (v' & ts' & -> & Hle'); [lia|].
    done_with. }
  assert (HCmp : forall ts, length ts < S l -> forall n, 5 * S l <= n + 2 ->
             returns (parseComparison state n ts) ts).
  { intros ts Hlen n Hn. fuel n.
    destruct (HPrim ts Hlen n) as [(lhs & ts1 & -> & Hle1) _]; [lia|].
    pose proof (length_advance ts1) as Ha1.
    pose proof (length_advance (advance ts1)) as Ha2.
    destruct (isType IN (current ts1)) eqn:Hin.
    { destruct (HArr (advance ts1)) with (n := n) as (v & ts' & -> & Hle); [lia..|].
      done_with. }
    destruct (isType NOT (current ts1) && isType IN (peek 1 ts1)) eqn:Hni.
    { destruct (HArr (advance (advance ts1))) with (n := n) as (v & ts' & -> & Hle);
        [lia..|].
      done_with. }
    destruct (isType OPERATOR (current ts1)) eqn:Hop; [|done_with].
    destruct (HPrim (advance ts1)) with (n := n) as [(v & ts' & -> & Hle) _]; [lia..|].
    done_with. }
  assert (HNot : forall ts, length ts < S l -> forall n, 5 * S l <= n + 1 ->
             returns (parseNot state n ts) ts).
  { intros ts Hlen n Hn. fuel n.
    destruct (isType NOT (current ts)) eqn:Hnot; [|apply HCmp; lia].
    destruct (isType_cons _ _ Hnot) as (t & r & ->); [discriminate|].
    cbn [advance tl]. cbn in Hlen.
    destruct (IH r) as (_ & _ & _ & _ & HN & _); [lia|].
    destruct (HN n) as (v & ts' & -> & Hle); [lia|].
    done_with. }
  assert (HAndL : forall ts, length ts < S l -> forall n lhs, 5 * S l <= n + 4 ->
             returns (parseAndLoop state n lhs ts) ts).
  { intros ts Hlen n lhs Hn. fuel n.
    destruct (isType AND (current ts)) eqn:Hand; [|done_with].
    destruct (isType_cons _ _ Hand) as (t & r & ->); [discriminate|].
    cbn [advance tl]. cbn in Hlen.
    destruct (IH r) as (_ & _ & _ & _ & HN & _); [lia|].
    destruct (HN n) as (v & ts1 & -> & Hle); [lia|].
    destruct (IH ts1) as (_ & _ & _ & _ & _ & HL & _); [lia|].
    destruct (HL n (jsAnd lhs v)) as (v' & ts' & -> & Hle'); [lia|].
    done_with. }
  assert (HAnd : forall ts, length ts < S l -> forall n, 5 * S l <= n ->
             returns (parseAnd state n ts) ts).
  { intros ts Hlen n Hn. fuel n.
    destruct (HNot ts Hlen n) as (v & ts1 & -> & Hle); [lia|].
    destruct (HAndL ts1) with (n := n) (lhs := v) as (v' & ts' & -> & Hle'); [lia..|].
    done_with. }
  assert (HOrL : forall ts, length ts < S l -> forall n lhs, 5 * S l <= n + 4 ->
             returns (parseOrLoop state n lhs ts) ts).
  { intros ts Hlen n lhs Hn. fuel n.
    destruct (isType OR (current ts)) eqn:Hor; [|done_with].
    destruct (isType_cons _ _ Hor) as (t & r & ->); [discriminate|].
    cbn [advance tl]. cbn in Hlen.
    destruct (IH r) as (_ & _ & _ & _ & _ & _ & HA & _); [lia|].
    destruct (HA n) as (v & ts1 & -> & Hle); [lia|].
    destruct (IH ts1) as (_ & _ & _ & _ & _ & _ & _ & HL & _); [lia|].
    destruct (HL n (jsOr lhs v)) as (v' & ts' & -> & Hle'); [lia|].
    done_with. }
  assert (HOr : forall ts, length ts < S l -> forall n, 5 * S l + 1 <= n ->
             returns (parseOr state n ts) ts).
  { intros ts Hlen n Hn. fuel n.
    destruct (HAnd ts Hlen n) as (v & ts1 & -> & Hle); [lia|].
    destruct (HOrL ts1) with (n := n) (lhs := v) as (v' & ts' & -> & Hle'); [lia..|].
    done_with. }
  intros ts Hlen. repeat split; eauto.
  all: intros; apply HPrim; auto.
Qed.

Lemma total_all l : total_at l.
Proof.
  induction l as [|l IH]; [intros ts Hlen; cbn in Hlen; lia|].
  apply total_step, IH.
Qed.

(** The parser comes to a result on every token list. *)
Lemma parse_total tokens : is_Some (parse state tokens).
Proof.
  unfold parse.
  destruct (total_all (S (length tokens)) tokens)
    as (_ & _ & _ & _ & _ & _ & _ & _ & HOr); [lia|].
  destruct (HOr (5 * length tokens + 6)) as (v & ts' & -> & _); [lia|].
  eauto.
Qed.
End ParserTotal.

(** ** The parser on a finite stack *)

Section ParserStack.
Variable state : gmap string Value.

(** The outcome of the call on an unbounded stack, as an outcome on a
    finite one. *)
Definition lift {A} (o : option A) : Stack.Run A :=
  match o with
  | Some a => Stack.Ok a
  | None => Stack.Starved
  end.

(** A call with [free] frames left either does what the call on an unbounded
    stack does, or overflows; it overflows only when fewer frames are left
    than the fuel allows calls to nest. *)
Definition agrees {A} (r : Stack.Run A) (o : option A) (free fuel : nat) : Prop :=
  r = lift o \/ (r = Stack.Overflow /\ free < fuel + 2).

Definition agrees_at (n : nat) : Prop :=
  (forall d ts, agrees (Stack.parseArray state n d ts) (parseArray state n ts) d n) /\
  (forall d ts, agrees (Stack.parsePrimary state n d ts) (parsePrimary state n ts) d n) /\
  (forall d items ts,
     agrees (Stack.parseArrayLoop state n d items ts) (parseArrayLoop state n items ts) d n) /\
  (forall d ts,
     agrees (Stack.parseComparison state n d ts) (parseComparison state n ts) d n) /\
  (forall d ts, agrees (Stack.parseNot state n d ts) (parseNot state n ts) d n) /\
  (forall d lhs ts,
     agrees (Stack.parseAndLoop state n d lhs ts) (parseAndLoop state n lhs ts) d n) /\
  (forall d ts, agrees (Stack.parseAnd state n d ts) (parseAnd state n ts) d n) /\
  (forall d lhs ts,
     agrees (Stack.parseOrLoop state n d lhs ts) (parseOrLoop state n lhs ts) d n) /\
  (forall d ts, agrees (Stack.parseOr state n d ts) (parseOr state n ts) d n).

Lemma agrees_more {A} (r : Stack.Run A) o free fuel free' fuel' :
  agrees r o free fuel -> free' + fuel <= free + fuel' -> agrees r o free' fuel'.
Proof. intros [H|[H Hlt]] Hle; [left; exact H|right; split; [exact H|lia]]. Qed.

Ltac overflow := right; split; [reflexivity|lia].
Ltac enter free d :=
  cbn -[isType current advance peek Stack.current Stack.advance Stack.peek Nat.leb];
  destruct free as [|d]; [overflow|].
Ltac frames k d :=
  unfold Stack.current, Stack.advance, Stack.peek;
  destruct (Nat.leb_spec k d); [|overflow].
Ltac sub H := destruct H as [-> | [-> ?]]; [cbn [lift]|overflow].
Ltac same := left; reflexivity.

Lemma stack_step n : agrees_at n -> agrees_at (S n).
Proof.
  intros (IHArr & IHPrim & IHLoop & IHCmp & IHNot & IHAndL & IHAnd & IHOrL & IHOr).
  unfold agrees_at. repeat apply conj.
  - (* parseArray *)
    intros free ts. enter free d. frames 1 d. fold (current ts).
    destruct (isType LBRACKET (current ts)); cbn [negb]; [|same].
    frames 2 d. fold (advance ts).
    eapply agrees_more; [apply IHLoop|lia].
  - (* parsePrimary *)
    intros free ts. enter free d. frames 1 d. fold (current ts).
    destruct (tok_type (current ts)) eqn:Hty;
      try (frames 2 d; same).
    + frames 2 d. fold (advance ts).
      sub (IHOr d (advance ts)).
      destruct (parseOr state n (advance ts)) as [[result ts1]|]; cbn [lift]; [|same].
      fold (current ts1). destruct (isType RPAREN (current ts1)); same.
    + sub (IHArr d ts).
      destruct (parseArray state n ts) as [[items ts1]|]; same.
  - (* parseArrayLoop *)
    intros d items ts.
    cbn -[isType current advance peek Stack.current Stack.advance Stack.peek Nat.leb].
    frames 1 d. fold (current ts).
    destruct (isType RBRACKET (current ts)); [frames 2 d; same|].
    destruct (isType EOF (current ts)); [same|].
    sub (IHPrim d ts).
    destruct (parsePrimary state n ts) as [[item ts1]|]; cbn [lift]; [|same].
    fold (current ts1).
    destruct (isType COMMA (current ts1)).
    + frames 2 d. fold (advance ts1). eapply agrees_more; [apply IHLoop|lia].
    + eapply agrees_more; [apply IHLoop|lia].
  - (* parseComparison *)
    intros free ts. enter free d.
    sub (IHPrim d ts).
    destruct (parsePrimary state n ts) as [[lhs ts1]|]; cbn [lift]; [|same].
    frames 1 d. fold (current ts1).
    destruct (isType IN (current ts1)).
    { frames 2 d. fold (advance ts1). sub (IHArr d (advance ts1)).
      destruct (parseArray state n (advance ts1)) as [[rhs ts2]|]; same. }
    destruct (isType NOT (current ts1)); cbn [andb].
    + fold (peek 1 ts1). destruct (isType IN (peek 1 ts1)).
      * frames 2 d. fold (advance ts1). fold (advance (advance ts1)).
        sub (IHArr d (advance (advance ts1))).
        destruct (parseArray state n (advance (advance ts1))) as [[rhs ts2]|]; same.
      * destruct (isType OPERATOR (current ts1)); [|same].
        frames 2 d. fold (advance ts1). sub (IHPrim d (advance ts1)).
        destruct (parsePrimary state n (advance ts1)) as [[rhs ts2]|]; same.
    + destruct (isType OPERATOR (current ts1)); [|same].
      frames 2 d. fold (advance ts1). sub (IHPrim d (advance ts1)).
      destruct (parsePrimary state n (advance ts1)) as [[rhs ts2]|]; same.
  - (* parseNot *)
    intros free ts. enter free d. frames 1 d. fold (current ts).
    destruct (isType NOT (current ts)).
    + frames 2 d. fold (advance ts). sub (IHNot d (advance ts)).
      destruct (parseNot state n (advance ts)) as [[v ts1]|]; same.
    + eapply agrees_more; [apply IHCmp|lia].
  - (* parseAndLoop *)
    intros d lhs ts.
    cbn -[isType current advance peek Stack.current Stack.advance Stack.peek Nat.leb].
    frames 1 d. fold (current ts).
    destruct (isType AND (current ts)); [|same].
    frames 2 d. fold (advance ts). sub (IHNot d (advance ts)).
    destruct (parseNot state n (advance ts)) as [[rhs ts1]|]; cbn [lift]; [|same].
    eapply agrees_more; [apply IHAndL|lia].
  - (* parseAnd *)
    intros free ts. enter free d. sub (IHNot d ts).
    destruct (parseNot state n ts) as [[lhs ts1]|]; cbn [lift]; [|same].
    eapply agrees_more; [apply IHAndL|lia].
  - (* parseOrLoop *)
    intros d lhs ts.
    cbn -[isType current advance peek Stack.current Stack.advance Stack.peek Nat.leb].
    frames 1 d. fold (current ts).
    destruct (isType OR (current ts)); [|same].
    frames 2 d. fold (advance ts). sub (IHAnd d (advance ts)).
    destruct (parseAnd state n (advance ts)) as [[rhs ts1]|]; cbn [lift]; [|same].
    eapply agrees_more; [apply IHOrL|lia].
  - (* parseOr *)
    intros free ts. enter free d. sub (IHAnd d ts).
    destruct (parseAnd state n ts) as [[lhs ts1]|]; cbn [lift]; [|same].
    eapply agrees_more; [apply IHOrL|lia].
Qed.

Lemma stack_all n : agrees_at n.
Proof.
  induction n as [|n IH]; [|apply stack_step, IH].
  unfold agrees_at. repeat apply conj; intros; left; reflexivity.
Qed.

(** On a finite stack the parser either overflows or returns what it
    returns on an unbounded one. *)
Lemma stack_parse_cases stack tokens :
  Stack.parse state stack tokens = Stack.Overflow \/
  exists b, Stack.parse state stack tokens = Stack.Ok b /\ parse state tokens = Some b.
Proof.
  unfold Stack.parse. destruct stack as [|d]; [left; reflexivity|].
  destruct (parse_total state tokens) as [b Hb]. revert Hb. unfold parse.
  destruct (stack_all (5 * length tokens + 6)) as (_ & _ & _ & _ & _ & _ & _ & _ & HOr).
  destruct (HOr d tokens) as [-> | [-> _]]; [|left; reflexivity].
  destruct (parseOr state _ tokens) as [[result ts]|]; [|discriminate].
  intros [= <-]. right. eauto.
Qed.

(** Five frames for every token and nine more are enough for the parser. *)
Lemma stack_parse_deep stack tokens :
  5 * length tokens + 9 <= stack ->
  Stack.parse state stack tokens = lift (parse state tokens).
Proof.
  intros Hdeep. unfold Stack.parse, parse. destruct stack as [|d]; [lia|].
  destruct (stack_all (5 * length tokens + 6)) as (_ & _ & _ & _ & _ & _ & _ & _ & HOr).
  destruct (HOr d tokens) as [-> | [_ Hlt]]; [|lia].
  destruct (parseOr state _ tokens) as [[result ts]|]; reflexivity.
Qed.
End ParserStack.

(** ** The evaluator *)

Lemma evaluateCondition_tokens c tokens st :
  blank c = false ->
  tokenize c = Some tokens ->
  evaluateCondition (Some c) st = default false (parse st tokens).
Proof.
  unfold blank. intros Hb Ht. unfold evaluateCondition. rewrite Hb, Ht.
  destruct (parse st tokens); reflexivity.
Qed.

Lemma stack_evaluate_deep c tokens extra st :
  tokenize c = Some tokens ->
  Stack.evaluateCondition (5 * length tokens + 9 + extra) (Some c) st
  = evaluateCondition (Some c) st.
Proof.
  intros Ht. unfold Stack.evaluateCondition, evaluateCondition. rewrite Ht.
  rewrite stack_parse_deep by lia.
  destruct (parse st tokens); reflexivity.
Qed.

(** C1 (as amended).  [evaluateCondition] never raises, whatever the depth
    of the stack it runs on.  An absent, empty or blank condition is true.
    On any other condition the tokenizer returns its tokens and the parser
    either exhausts the stack, and the condition is false, or returns what
    it reads from the tokens, and that is the value of the condition: no
    expression is rejected for its structure.  On a stack of five frames
    for every token and nine more the parser does not overflow, and the
    value is that of [evaluateCondition] on an unbounded stack. *)
Theorem evaluate_never_raises
    (stack : nat) (condition : option string) (state : gmap string Value) :
  match condition with
  | None => Stack.evaluateCondition stack None state = true
  | Some c =>
      exists tokens,
        tokenize c = Some tokens /\
        (if blank c then Stack.evaluateCondition stack (Some c) state = true
         else
           (Stack.parse state stack tokens = Stack.Overflow /\
            Stack.evaluateCondition stack (Some c) state = false) \/
           (exists b,
              Stack.parse state stack tokens = Stack.Ok b /\
              parse state tokens = Some b /\
              Stack.evaluateCondition stack (Some c) state = b)) /\
        (forall extra,
           Stack.evaluateCondition (5 * length tokens + 9 + extra) (Some c) state
           = evaluateCondition (Some c) state)
  end.
Proof.
  destruct condition as [c|]; [|reflexivity].
  destruct (tokenize_total c) as [tokens Ht].
  exists tokens. split; [exact Ht|]. split.
  - unfold Stack.evaluateCondition, blank. rewrite Ht.
    destruct (_ || _); [reflexivity|].
    destruct (stack_parse_cases state stack tokens) as [Ho|(b & Hb & Hp)].
    + left. rewrite Ho. auto.
    + right. exists b. rewrite Hb. auto.
  - intros extra. apply stack_evaluate_deep, Ht.
Qed.

(** C1, counterexample.  A condition made of one opening bracket, which is
    never closed, evaluates to true, not to false, on every stack of 19
    frames or more; so do, on 24 frames or more, an unclosed parenthesis
    around a true operand and a comparison that lacks its right operand. *)
Lemma malformed_condition_true :
  tokenize "[" = Some [mkToken LBRACKET (VStr "["); eofToken] /\
  (forall extra, Stack.evaluateCondition (19 + extra) (Some "[") ∅ = true) /\
  (forall extra, Stack.evaluateCondition (24 + extra) (Some "(1") ∅ = true) /\
  (forall extra, Stack.evaluateCondition (24 + extra) (Some "x ==") ∅ = true).
Proof.
  split; [reflexivity|].
  split; [|split]; intros extra;
    match goal with
    | |- Stack.evaluateCondition _ (Some ?c) _ = _ =>
        let r := eval vm_compute in (tokenize c) in
        match r with
        | Some ?tokens =>
            transitivity (evaluateCondition (Some c) ∅);
              [exact (stack_evaluate_deep c tokens extra ∅ eq_refl)
              |vm_compute; reflexivity]
        end
    end.
Qed.

(** An expression that is rejected: a chain of [not] that nests deeper than
    the stack has frames.  The same condition is true on a deeper stack. *)
Lemma deep_nesting_overflows :
  Stack.parse ∅ 10 [mkToken NOT (VStr "not"); mkToken NOT (VStr "not");
                    mkToken NOT (VStr "not"); mkToken IDENTIFIER (VStr "x"); eofToken]
  = Stack.Overflow /\
  Stack.evaluateCondition 10 (Some "not not not x") ∅ = false /\
  Stack.evaluateCondition 11 (Some "not not not x") ∅ = true /\
  evaluateCondition (Some "not not not x") ∅ = true.
Proof. vm_compute. auto. Qed.

(** ** Truthiness *)

Lemma ToBoolean_false v : ToBoolean v = false <-> Falsy v.
Proof.
  split.
  - destruct v as [| |[]|[| |q|]|s]; cbn; intros H; try discriminate H;
      try (constructor; fail).
    + apply negb_false_iff, Qeq_bool_iff in H. constructor. exact H.
    + apply negb_false_iff, String.eqb_eq in H. subst s. constructor.
  - intros [| | | | |q Hq]; cbn; try reflexivity.
    apply negb_false_iff, Qeq_bool_iff, Hq.
Qed.

Lemma tokenize_blank c : blank c = true -> tokenize c = Some [eofToken].
Proof.
  unfold blank. intros H. apply tokenizeFrom_blank; [lia|].
  apply orb_true_iff in H as [H1|H1]; apply String.eqb_eq in H1.
  - subst c. reflexivity.
  - apply trim_empty, H1.
Qed.

(** *** Identifiers *)

Lemma identStart_plain c :
  isIdentStart c = true ->
  isSpace c = false /\ isQuote c = false /\ isDigit c = false /\
  Ascii.eqb c "-" = false /\ punctuation c = None /\
  forall rest, find (fun op => startsWith op (String c rest)) operators = None.
Proof.
  destruct c as [[] [] [] [] [] [] [] []]; vm_compute; try discriminate;
    intros _; repeat split; reflexivity.
Qed.

Lemma identChar_plain c :
  isIdentChar c = true ->
  isSpace c = false /\ isDot c = true /\ Ascii.eqb c ">" = false /\
  Ascii.eqb c "=" = false /\ Ascii.eqb c " " = false.
Proof.
  destruct c as [[] [] [] [] [] [] [] []]; vm_compute; try discriminate;
    intros _; repeat split; reflexivity.
Qed.

Lemma takeWhile_all p s : allChars p s = true -> takeWhile p s = s.
Proof.
  induction s as [|c r IH]; [reflexivity|]. cbn [allChars].
  change (takeWhile p (String c r))
    with (if p c then String c (takeWhile p r) else EmptyString).
  destruct (p c); [intros H; rewrite (IH H); reflexivity|discriminate].
Qed.

Lemma dropN_all s : dropN (String.length s) s = EmptyString.
Proof. induction s as [|c r IH]; [reflexivity|exact IH]. Qed.

Lemma lookupEntry_key {A} (table : list (string * A)) key v :
  lookupEntry table key = Some v -> In key (map fst table).
Proof.
  induction table as [|[k a] table IH]; cbn; [discriminate|].
  destruct (String.eqb_spec k key) as [->|_]; auto.
Qed.

Lemma lowerChar_lower c : lowerChar c <> "T"%char /\ lowerChar c <> "F"%char.
Proof. destruct c as [[] [] [] [] [] [] [] []]; vm_compute; split; discriminate. Qed.

(** Under an identifier the [keywords] object holds nothing. *)
Lemma keywordsAt_identifier key :
  isIdentifier key = true ->
  keywordsAt key = None /\ keywordsAt (toLowerCase key) = None.
Proof.
  unfold isIdentifier. destruct key as [|c rest]; [discriminate|].
  intros H.
  apply andb_true_iff in H as [H Hlower%negb_true_iff].
  apply andb_true_iff in H as [H Hmember%negb_true_iff].
  apply andb_true_iff in H as [_ Hword%negb_true_iff].
  assert (Hwords : forall w, In w (map fst keywords) ->
            existsb (String.eqb (toLowerCase w)) reservedWords = true).
  { intros w Hw. cbn in Hw.
    repeat (destruct Hw as [<-|Hw]; [reflexivity|]). destruct Hw. }
  unfold keywordsAt. split.
  - destruct (lookupEntry keywords (String c rest)) as [ty|] eqn:Hown.
    + apply lookupEntry_key, Hwords in Hown. congruence.
    + rewrite Hmember. reflexivity.
  - destruct (lookupEntry keywords (toLowerCase (String c rest))) as [ty|] eqn:Hown.
    + apply lookupEntry_key in Hown. cbn [map fst keywords] in Hown.
      destruct (lowerChar_lower c) as [HT HF].
      repeat (destruct Hown as [Hown|Hown];
              [first [ rewrite <- Hown in Hword; discriminate Hword
                     | cbn [toLowerCase] in Hown; congruence ]|]).
      destruct Hown.
    + rewrite Hlower. reflexivity.
Qed.

Lemma tokenize_identifier key :
  isIdentifier key = true ->
  tokenize key = Some [mkToken IDENTIFIER (VStr key); eofToken].
Proof.
  intros Hid. destruct (keywordsAt_identifier key Hid) as [Hown Hlower].
  unfold isIdentifier in Hid. destruct key as [|c rest]; [discriminate|].
  do 3 (apply andb_true_iff in Hid as [Hid _]).
  apply andb_true_iff in Hid as [Hstart Hall].
  destruct (identStart_plain c Hstart) as (Hs & Hq & Hd & Hm & Hp & Hop).
  unfold tokenize. cbn [String.length tokenizeFrom].
  rewrite Hs, Hq, Hd, Hm, (Hop rest), Hp, Hstart. cbn [orb andb].
  rewrite (takeWhile_all _ _ Hall), dropN_all.
  assert (Hw : wordToken (String c rest) = mkToken IDENTIFIER (VStr (String c rest))).
  { unfold wordToken. rewrite Hown, Hlower. reflexivity. }
  rewrite Hw. destruct (String.length rest); reflexivity.
Qed.

(** A word (a letter or an underscore followed by letters, digits,
    underscores and dots) that is no word of the condition language but, as
    written or in lower case, names a member of [Object.prototype] is one
    token of no known type. *)
Lemma tokenize_inherited key :
  match key with String c _ => isIdentStart c | EmptyString => false end = true ->
  allChars isIdentChar key = true ->
  existsb (String.eqb (toLowerCase key)) reservedWords = false ->
  existsb (String.eqb key) prototypeMembers
  || existsb (String.eqb (toLowerCase key)) prototypeMembers = true ->
  tokenize key = Some [mkToken INHERITED (VStr key); eofToken].
Proof.
  destruct key as [|c rest]; [discriminate|]. intros Hstart Hall Hword Hmember.
  assert (Hwords : forall w, In w (map fst keywords) ->
            existsb (String.eqb (toLowerCase w)) reservedWords = true).
  { intros w Hw. cbn in Hw.
    repeat (destruct Hw as [<-|Hw]; [reflexivity|]). destruct Hw. }
  assert (Hown : lookupEntry keywords (String c rest) = None).
  { destruct (lookupEntry keywords (String c rest)) as [ty|] eqn:Hown; [|reflexivity].
    apply lookupEntry_key, Hwords in Hown. congruence. }
  assert (Hlower : lookupEntry keywords (toLowerCase (String c rest)) = None).
  { destruct (lookupEntry keywords (toLowerCase (String c rest))) as [ty|] eqn:Hl;
      [|reflexivity].
    apply lookupEntry_key in Hl. cbn [map fst keywords] in Hl.
    destruct (lowerChar_lower c) as [HT HF].
    repeat (destruct Hl as [Hl|Hl];
            [first [ rewrite <- Hl in Hword; discriminate Hword
                   | cbn [toLowerCase] in Hl; congruence ]|]).
    destruct Hl. }
  destruct (identStart_plain c Hstart) as (Hs & Hq & Hd & Hm & Hp & Hop).
  unfold tokenize. cbn [String.length tokenizeFrom].
  rewrite Hs, Hq, Hd, Hm, (Hop rest), Hp, Hstart. cbn [orb andb].
  rewrite (takeWhile_all _ _ Hall), dropN_all.
  assert (Hw : wordToken (String c rest) = mkToken INHERITED (VStr (String c rest))).
  { unfold wordToken, keywordsAt. rewrite Hown, Hlower.
    destruct (existsb (String.eqb (String c rest)) prototypeMembers); [reflexivity|].
    cbn [orb] in Hmember. rewrite Hmember. reflexivity. }
  rewrite Hw. destruct (String.length rest); reflexivity.
Qed.

(** A condition that is one identifier evaluates to the truthiness of the
    state's value for it. *)
Lemma evaluate_identifier state key :
  tokenize key = Some [mkToken IDENTIFIER (VStr key); eofToken] ->
  evaluateCondition (Some key) state = ToBoolean (get state key).
Proof.
  intros Ht.
  destruct (blank key) eqn:Hb.
  { rewrite (tokenize_blank _ Hb) in Ht. discriminate Ht. }
  rewrite (evaluateCondition_tokens _ _ _ Hb Ht). reflexivity.
Qed.

(** C2 (as amended).  A condition that is a bare identifier (no word of the
    condition language and, as written and in lower case, no name of a
    member of [Object.prototype]) evaluates to false exactly when the
    state's value for the key is absent ([undefined]), [null], the empty
    string, a number equal to 0, NaN, or [false], and to true for every
    other value. *)
Theorem bare_identifier_truthiness (state : gmap string Value) (key : string) :
  isIdentifier key = true ->
  (evaluateCondition (Some key) state = false <-> Falsy (get state key)) /\
  (evaluateCondition (Some key) state = true <-> ~ Falsy (get state key)).
Proof.
  intros Hid.
  rewrite (evaluate_identifier _ _ (tokenize_identifier key Hid)), <- ToBoolean_false.
  split; [reflexivity|]. destruct (ToBoolean _); split; congruence.
Qed.

Lemma bare_identifier_truthiness_witness :
  (evaluateCondition (Some "x") {[ "x" := VStr "0" ]} = false
   <-> Falsy (get {[ "x" := VStr "0" ]} "x")) /\
  (evaluateCondition (Some "x") {[ "x" := VStr "0" ]} = true
   <-> ~ Falsy (get {[ "x" := VStr "0" ]} "x")).
Proof. apply (bare_identifier_truthiness {[ "x" := VStr "0" ]} "x"). reflexivity. Defined.

(** A word that names a member of [Object.prototype], as written or in
    lower case, is no identifier to the tokenizer: its token has no type
    that the parser knows, and the condition is false whatever the state
    holds for the word. *)
Lemma inherited_word_is_false (key : string) (state : gmap string Value) :
  match key with String c _ => isIdentStart c | EmptyString => false end = true ->
  allChars isIdentChar key = true ->
  existsb (String.eqb (toLowerCase key)) reservedWords = false ->
  existsb (String.eqb key) prototypeMembers
  || existsb (String.eqb (toLowerCase key)) prototypeMembers = true ->
  evaluateCondition (Some key) state = false.
Proof.
  intros Hstart Hall Hword Hmember.
  pose proof (tokenize_inherited key Hstart Hall Hword Hmember) as Ht.
  destruct (blank key) eqn:Hb.
  { rewrite (tokenize_blank _ Hb) in Ht. discriminate Ht. }
  rewrite (evaluateCondition_tokens _ _ _ Hb Ht). reflexivity.
Qed.

Lemma inherited_word_examples (state : gmap string Value) :
  tokenize "Constructor" = Some [mkToken INHERITED (VStr "Constructor"); eofToken] /\
  evaluateCondition (Some "Constructor") state = false /\
  evaluateCondition (Some "toString") state = false /\
  isIdentifier "Constructor" = false /\ isIdentifier "toString" = false.
Proof.
  split; [reflexivity|].
  split; [|split; [|split; reflexivity]]; apply inherited_word_is_false; reflexivity.
Qed.

(** The four evaluations the specification lists for the truthiness rule. *)
Lemma truthiness_examples :
  evaluateCondition (Some "x") ∅ = false /\
  evaluateCondition (Some "not x") ∅ = true /\
  evaluateCondition (Some "x") {[ "x" := num 0 ]} = false /\
  evaluateCondition (Some "x") {[ "x" := VStr "0" ]} = true.
Proof. vm_compute. auto. Qed.

(** C2, counterexample.  [null] and NaN are neither absent, nor the empty
    string, nor the number 0, nor [false]; a key that holds one of them
    evaluates to false all the same. *)
Lemma null_and_nan_evaluate_false :
  evaluateCondition (Some "x") {[ "x" := VNull ]} = false /\
  evaluateCondition (Some "x") {[ "x" := VNum NaN ]} = false.
Proof. vm_compute. auto. Qed.

(** ** Conflicts *)

(** C6 (as amended).  Over the built-in rule table the state
    [{ leveling.type: z_tilt, z_config.motor_count: 4 }] produces exactly
    three conflicts, all of severity error and in this order: the rule
    "Z Tilt requires 2 or 3 Z motors", whose context equals the state itself,
    then "No kinematics type selected" and "No mainboard selected", whose
    contexts hold their absent field. *)
Theorem z_tilt_scenario_conflicts :
  map conflictView (detectConflicts zTiltState) =
  [ ("z_tilt_requires_2_or_3_motors", SevError,
     {[ "leveling.type" := VStr "z_tilt"; "z_config.motor_count" := num 4 ]});
    ("no_kinematics_selected", SevError, {[ "printer.kinematics" := VUndefined ]});
    ("no_mainboard_selected", SevError, {[ "mcu.main.board_type" := VUndefined ]}) ].
Proof. by_decision. Qed.

(** C6, counterexample.  The scenario state has three conflicts of severity
    error, not one. *)
Lemma z_tilt_scenario_three_errors :
  length (getConflictsBySeverity zTiltState SevError) = 3 /\
  length (getConflictsBySeverity zTiltState SevError) <> 1.
Proof. vm_compute. split; [reflexivity|discriminate]. Qed.

(** ** Inheritance *)

Lemma strictEq_undefined v : strictEq v VUndefined = true <-> v = VUndefined.
Proof. destruct v; cbn; split; congruence. Qed.

(** Every entry of the map that [applyInheritance] returns is the parent's
    value of a copyable field whose child key is absent from the state. *)
Lemma applyInheritance_entries stepperName state evaluate key v :
  applyInheritance stepperName state evaluate !! key = Some v ->
  exists relation field,
    getInheritanceRelation stepperName = Some relation /\
    In field (rel_fields relation) /\
    key = fieldKey stepperName field /\
    get state key = VUndefined /\
    v = get state (fieldKey (rel_parent relation) field) /\
    v <> VUndefined.
Proof.
  unfold applyInheritance.
  destruct (getInheritanceRelation stepperName) as [relation|]; [|rewrite lookup_empty; discriminate].
  destruct (conditionFails relation state evaluate); [rewrite lookup_empty; discriminate|].
  intros H. exists relation.
  enough (Hgen : forall fields (changes : gmap string Value),
             fold_left (fun changes field =>
                     let childKey := fieldKey stepperName field in
                     let parentKey := fieldKey (rel_parent relation) field in
                     let childValue := get state childKey in
                     let parentValue := get state parentKey in
                     if strictEq childValue VUndefined &&
                        negb (strictEq parentValue VUndefined)
                     then <[childKey := parentValue]> changes
                     else changes) fields changes !! key = Some v ->
             changes !! key = Some v \/
             exists field, In field fields /\
               key = fieldKey stepperName field /\
               get state key = VUndefined /\
               v = get state (fieldKey (rel_parent relation) field) /\
               v <> VUndefined).
  { destruct (Hgen _ _ H) as [Habs|(field & ?)]; [|eauto].
    rewrite lookup_empty in Habs. discriminate Habs. }
  clear H. induction fields as [|field fields IH]; intros changes; cbn [fold_left]; [auto|].
  intros H. apply IH in H as [H|(f & Hin & ?)]; [|right; exists f; split; [right|]; auto].
  destruct (strictEq _ VUndefined && _) eqn:Hc; [|auto].
  apply andb_true_iff in Hc as [Hchild Hparent].
  apply strictEq_undefined in Hchild.
  destruct (decide (fieldKey stepperName field = key)) as [<-|Hne].
  - rewrite lookup_insert_eq in H. injection H as <-.
    right. exists field. repeat split; auto; [left; auto|].
    intros Heq. rewrite Heq in Hparent. discriminate Hparent.
  - rewrite lookup_insert_ne in H by exact Hne. auto.
Qed.

(** C8.  [applyInheritance] is non-destructive: for a key that is present
    in the state (its value is not [undefined]) the returned map has no
    entry, whatever the parent holds; and an entry of the returned map is
    always for a child key that is absent, with the present value of the
    parent's key for the same copyable field. *)
Theorem applyInheritance_nondestructive
    (stepperName : string) (state : gmap string Value)
    (evaluate : string -> gmap string Value -> bool) (key : string) :
  (get state key <> VUndefined ->
   applyInheritance stepperName state evaluate !! key = None) /\
  (forall v, applyInheritance stepperName state evaluate !! key = Some v ->
     exists relation field,
       getInheritanceRelation stepperName = Some relation /\
       In field (rel_fields relation) /\
       key = fieldKey stepperName field /\
       get state key = VUndefined /\
       v = get state (fieldKey (rel_parent relation) field) /\
       v <> VUndefined).
Proof.
  split; [|intros v; apply applyInheritance_entries].
  intros Hpresent.
  destruct (applyInheritance stepperName state evaluate !! key) as [v|] eqn:H; [|reflexivity].
  apply applyInheritance_entries in H as (? & ? & _ & _ & _ & Habsent & _).
  contradiction.
Qed.

Lemma applyInheritance_nondestructive_witness :
  applyInheritance "stepper_y"
    {[ "stepper_x.run_current" := num 2; "stepper_y.run_current" := num 1 ]}
    (fun c st => evaluateCondition (Some c) st) !! "stepper_y.run_current" = None.
Proof.
  apply (applyInheritance_nondestructive "stepper_y"
           {[ "stepper_x.run_current" := num 2; "stepper_y.run_current" := num 1 ]}
           (fun c st => evaluateCondition (Some c) st) "stepper_y.run_current").
  vm_compute. discriminate.
Defined.

(** The default fill: an absent child key takes the parent's value. *)
Lemma applyInheritance_fills_absent :
  applyInheritance "stepper_y" {[ "stepper_x.run_current" := num 2 ]}
    (fun c st => evaluateCondition (Some c) st)
  = {[ "stepper_y.run_current" := num 2 ]}.
Proof. by_decision. Qed.

(** ** Completion *)

Lemma filter_filter_length {A} (f g : A -> bool) (l : list A) :
  length (List.filter g (List.filter f l)) =
  length (List.filter (fun x => f x && g x) l).
Proof.
  induction l as [|x l IH]; cbn; [reflexivity|].
  destruct (f x); cbn; [destruct (g x); cbn; congruence|exact IH].
Qed.

Lemma MathRound_comp q1 q2 : Qeq q1 q2 -> MathRound q1 = MathRound q2.
Proof. intros H. unfold MathRound. apply Qfloor_comp. rewrite H. reflexivity. Qed.

Lemma RoundsTo_MathRound q : RoundsTo q (MathRound q).
Proof. unfold RoundsTo, MathRound. split; [apply Qfloor_le|apply Qlt_floor]. Qed.

(** The rounded value is one value. *)
Lemma RoundsTo_unique q p1 p2 : RoundsTo q p1 -> RoundsTo q p2 -> p1 = p2.
Proof.
  intros [Hle1 Hlt1] [Hle2 Hlt2].
  pose proof (Qle_lt_trans _ _ _ Hle1 Hlt2) as H12.
  pose proof (Qle_lt_trans _ _ _ Hle2 Hlt1) as H21.
  rewrite <- Zlt_Qlt in H12, H21. lia.
Qed.

Lemma isEmpty_Filled v : negb (isEmpty v) = bool_decide (Filled v).
Proof.
  destruct v as [| |b|n|s]; cbn.
  - symmetry. apply bool_decide_eq_false. intros (H & _). congruence.
  - symmetry. apply bool_decide_eq_false. intros (_ & H & _). congruence.
  - symmetry. apply bool_decide_eq_true. repeat split; discriminate.
  - symmetry. apply bool_decide_eq_true. repeat split; discriminate.
  - destruct (String.eqb_spec s EmptyString) as [->|Hne]; cbn; symmetry.
    + apply bool_decide_eq_false. intros (_ & _ & H). congruence.
    + apply bool_decide_eq_true. repeat split; congruence.
Qed.

(** Over any field table with an unconditionally required field the
    percentage of [getValidationSummary] is the rounded ratio of the
    specification. *)
Lemma completionPercent_spec defs groups rules state :
  0 < totalCount defs ->
  RoundsTo (completionRatio defs state)
    (completionPercent (getValidationSummaryWith defs groups rules state)).
Proof.
  unfold totalCount, getValidationSummaryWith, completionRatio, filledCount.
  cbn [completionPercent]. intros Hpos. rewrite filter_filter_length.
  destruct (0 <? _) eqn:Ht; [|apply Nat.ltb_ge in Ht; lia].
  assert (Hfilter :
    List.filter (fun f => fd_required f && negb (isEmpty (get state (fd_key f)))) defs
    = List.filter (fun f => fd_required f && bool_decide (Filled (get state (fd_key f)))) defs).
  { apply List.filter_ext. intros f. rewrite isEmpty_Filled. reflexivity. }
  rewrite Hfilter.
  set (filled := length (List.filter _ defs)).
  set (total := length (List.filter fd_required defs)) in *.
  rewrite (MathRound_comp
             (Qdiv (inject_Z (Z.of_nat filled)) (inject_Z (Z.of_nat total)) * inject_Z 100)
             (Qdiv (inject_Z (100 * Z.of_nat filled)) (inject_Z (Z.of_nat total)))).
  - apply RoundsTo_MathRound.
  - assert (~ Qeq (inject_Z (Z.of_nat total)) 0) as Hne.
    { unfold Qeq. cbn. lia. }
    rewrite Z.mul_comm, inject_Z_mult. field. exact Hne.
Qed.

(** C9.  For every state the validator's [completionPercent] is
    [100 * filledCount / totalCount] rounded, where a field is filled when
    its value is not absent, [null] or the empty string, and the counts
    range over the field rules that carry the unconditional flag
    [required]; in the built-in table these are [printer.kinematics] and
    [mcu.main.board_type] only, so that no field that is merely
    [requiredWhen]-conditional is counted: the percentage is 50 for each of
    the two that is filled. *)
Theorem completion_percent_required_only (state : gmap string Value) :
  RoundsTo (completionRatio FIELD_DEFINITIONS state)
    (completionPercent (getValidationSummary state)) /\
  map fd_key (List.filter fd_required FIELD_DEFINITIONS) =
    ["printer.kinematics"; "mcu.main.board_type"] /\
  completionPercent (getValidationSummary state) =
    (50 * ((if decide (Filled (get state "printer.kinematics")) then 1 else 0) +
           (if decide (Filled (get state "mcu.main.board_type")) then 1 else 0)))%Z.
Proof.
  split; [apply completionPercent_spec; vm_compute; lia|].
  split; [reflexivity|].
  unfold getValidationSummary, getValidationSummaryWith. cbn [completionPercent].
  let required := eval vm_compute in (List.filter fd_required FIELD_DEFINITIONS) in
  change (List.filter fd_required FIELD_DEFINITIONS) with required.
  cbn [List.filter length fd_key].
  rewrite !isEmpty_Filled.
  destruct (decide (Filled (get state "printer.kinematics"))) as [H1|H1];
    [rewrite (bool_decide_eq_true_2 _ H1)|rewrite (bool_decide_eq_false_2 _ H1)];
    (destruct (decide (Filled (get state "mcu.main.board_type"))) as [H2|H2];
     [rewrite (bool_decide_eq_true_2 _ H2)|rewrite (bool_decide_eq_false_2 _ H2)]);
    vm_compute; reflexivity.
Qed.

(** The completion example of the specification: two of five required
    fields set give 40. *)
Lemma completion_two_of_five :
  completionPercent
    (getValidationSummaryWith fiveRequired [] []
       {[ "a" := VStr "x"; "b" := num 0 ]}) = 40%Z.
Proof. vm_compute. reflexivity. Qed.

(** ** Exclusive groups *)

Lemma objectAssign_union (values : list (string * Value)) (changes : gmap string Value) :
  objectAssign changes values = list_to_map (reverse values) ∪ changes.
Proof.
  unfold objectAssign. revert changes.
  induction values as [|[k v] values IH]; intros changes; cbn [fold_left].
  - rewrite reverse_nil, list_to_map_nil. symmetry. apply (left_id_L ∅ (∪)).
  - rewrite IH, reverse_cons, list_to_map_app, list_to_map_cons, list_to_map_nil.
    rewrite <- (assoc_L (∪)), <- insert_union_l, (left_id_L ∅ (∪)). reflexivity.
Qed.

Lemma deleteMarks_nil : deleteMarks [] = ∅.
Proof. reflexivity. Qed.

Lemma deleteMarks_cons k keys : deleteMarks (k :: keys) = <[k := VUndefined]> (deleteMarks keys).
Proof. reflexivity. Qed.

Lemma deleteMarks_app l1 l2 : deleteMarks (l1 ++ l2) = deleteMarks l1 ∪ deleteMarks l2.
Proof. unfold deleteMarks. rewrite map_app. apply list_to_map_app. Qed.

Lemma deleteMarks_lookup keys k v : deleteMarks keys !! k = Some v -> v = VUndefined.
Proof.
  induction keys as [|k' keys IH]; [rewrite deleteMarks_nil, lookup_empty; discriminate|].
  rewrite deleteMarks_cons.
  destruct (decide (k' = k)) as [->|Hne].
  - rewrite lookup_insert_eq. congruence.
  - rewrite lookup_insert_ne by exact Hne. exact IH.
Qed.

Lemma clearOther_union (keys : list string) (changes : gmap string Value) :
  clearOther changes keys = changes ∪ deleteMarks keys.
Proof.
  unfold clearOther. revert changes.
  induction keys as [|k keys IH]; intros changes; cbn [fold_left].
  - rewrite deleteMarks_nil. symmetry. apply (right_id_L ∅ (∪)).
  - rewrite IH, deleteMarks_cons.
    destruct (changes !! k) as [v|] eqn:Hk.
    + apply map_eq. intros i. rewrite !lookup_union.
      destruct (decide (k = i)) as [<-|Hne].
      * rewrite Hk, lookup_insert_eq. destruct (deleteMarks keys !! k); reflexivity.
      * rewrite lookup_insert_ne by exact Hne. reflexivity.
    + rewrite <- insert_union_l, insert_union_r by exact Hk. reflexivity.
Qed.

Lemma clearKeys_union (keys : list string) (changes : gmap string Value) :
  clearKeys changes keys = deleteMarks keys ∪ changes.
Proof.
  unfold clearKeys. revert changes.
  induction keys as [|k keys IH]; intros changes; cbn [fold_left].
  - rewrite deleteMarks_nil. symmetry. apply (left_id_L ∅ (∪)).
  - rewrite IH, deleteMarks_cons. apply map_eq. intros i.
    rewrite !lookup_union.
    destruct (decide (k = i)) as [<-|Hne].
    + rewrite !lookup_insert_eq.
      destruct (deleteMarks keys !! k) as [v|] eqn:Hd.
      * apply deleteMarks_lookup in Hd. subst v. destruct (changes !! k); reflexivity.
      * destruct (changes !! k); reflexivity.
    + rewrite !lookup_insert_ne by exact Hne. reflexivity.
Qed.

(** The loop over the other options marks their implied keys. *)
Lemma clearOthers_union (optionValue : string) (options : list ExclusiveOption)
    (changes : gmap string Value) :
  fold_left (fun acc otherOption =>
               match opt_impliedValues otherOption with
               | Some implied =>
                   if negb (String.eqb (opt_value otherOption) optionValue)
                   then clearOther acc (map fst implied)
                   else acc
               | None => acc
               end) options changes
  = changes ∪ deleteMarks
      (concat (map (fun o => if String.eqb (opt_value o) optionValue then []
                             else map fst (impliedOf o)) options)).
Proof.
  revert changes. induction options as [|o options IH]; intros changes; cbn [fold_left map concat].
  - rewrite deleteMarks_nil. symmetry. apply (right_id_L ∅ (∪)).
  - rewrite IH, deleteMarks_app, (assoc_L (∪)). f_equal.
    unfold impliedOf.
    destruct (opt_impliedValues o) as [implied|]; cbn [default].
    + destruct (String.eqb (opt_value o) optionValue); cbn [negb].
      * rewrite deleteMarks_nil. symmetry. apply (right_id_L ∅ (∪)).
      * apply clearOther_union.
    + destruct (String.eqb (opt_value o) optionValue);
        cbn [map]; rewrite deleteMarks_nil; symmetry; apply (right_id_L ∅ (∪)).
Qed.

(** The diff of [selectOption] as a union of maps. *)
Lemma selectOption_unfold (group : ExclusiveGroup) (optionValue : string)
    (chosen : ExclusiveOption) :
  findOption group optionValue = Some chosen ->
  selectOption group optionValue =
  deleteMarks (default [] (opt_clearValues chosen)) ∪
  ((list_to_map (reverse (impliedOf chosen))
    ∪ ({[ grp_stateKey group := VStr optionValue ]} : gmap string Value))
   ∪ deleteMarks (otherImpliedKeys group optionValue)).
Proof.
  intros Hfind. unfold selectOption, otherImpliedKeys. rewrite Hfind.
  rewrite clearOthers_union.
  assert (Himp : impliedOf chosen = default [] (opt_impliedValues chosen)) by reflexivity.
  rewrite Himp. clear Himp.
  destruct (opt_impliedValues chosen) as [implied|]; cbn [default].
  - rewrite objectAssign_union.
    destruct (opt_clearValues chosen) as [keys|]; cbn [default].
    + apply clearKeys_union.
    + rewrite deleteMarks_nil. symmetry. apply (left_id_L ∅ (∪)).
  - rewrite reverse_nil, list_to_map_nil, (left_id_L ∅ (∪)).
    destruct (opt_clearValues chosen) as [keys|]; cbn [default].
    + apply clearKeys_union.
    + rewrite deleteMarks_nil. symmetry. apply (left_id_L ∅ (∪)).
Qed.

(** The option that [optionValue] names is the first one of the group that
    carries it as its value. *)
Lemma findOption_first (group : ExclusiveGroup) (optionValue : string)
    (before : list ExclusiveOption) (chosen : ExclusiveOption)
    (after : list ExclusiveOption) :
  grp_options group = (before ++ chosen :: after)%list ->
  opt_value chosen = optionValue ->
  Forall (fun o => opt_value o <> optionValue) before ->
  findOption group optionValue = Some chosen.
Proof.
  intros Hoptions Hvalue Hbefore. unfold findOption. rewrite Hoptions. clear Hoptions.
  induction Hbefore as [|o before Ho _ IH]; cbn [app find].
  - apply String.eqb_eq in Hvalue. rewrite Hvalue. reflexivity.
  - apply String.eqb_neq in Ho. rewrite Ho. exact IH.
Qed.

(** C5.  For every exclusive group and every option value that names one of
    its options (the chosen option carries the value and no option before
    it does), [selectOption] returns exactly the diff of the specification:
    the target key mapped to the option value, the chosen option's implied
    values merged in, DELETE for every implied key of another option that
    the diff does not hold yet, and DELETE for every key of the chosen
    option's [clearValues]. *)
Theorem selectOption_spec (group : ExclusiveGroup) (optionValue : string)
    (before : list ExclusiveOption) (chosen : ExclusiveOption)
    (after : list ExclusiveOption) :
  grp_options group = (before ++ chosen :: after)%list ->
  opt_value chosen = optionValue ->
  Forall (fun o => opt_value o <> optionValue) before ->
  selectOption group optionValue = selectOptionSpec group optionValue chosen.
Proof.
  intros Hoptions Hvalue Hbefore.
  rewrite (selectOption_unfold group optionValue chosen
             (findOption_first _ _ _ _ _ Hoptions Hvalue Hbefore)).
  reflexivity.
Qed.

Lemma selectOption_spec_witness :
  selectOption retractionGroup "B" =
  selectOptionSpec retractionGroup "B" (plainOption "B" "B").
Proof.
  apply (selectOption_spec retractionGroup "B"
           [mkOption "A" "A" (Some [("x", num 1)]) None None] (plainOption "B" "B") []).
  - reflexivity.
  - reflexivity.
  - repeat constructor. vm_compute. discriminate.
Defined.

(** The retraction example: after option A, which implies [x = 1],
    selecting option B yields a diff that marks [x] DELETE. *)
Lemma selectOption_retraction :
  selectOption retractionGroup "A" = {[ "choice" := VStr "A"; "x" := num 1 ]} /\
  selectOption retractionGroup "B" = {[ "choice" := VStr "B"; "x" := VUndefined ]}.
Proof. split; by_decision. Qed.

(** Retraction in general: an implied key of another option that is neither
    the target key nor implied by the chosen option is marked DELETE. *)
Lemma selectOption_retracts group optionValue chosen other key :
  findOption group optionValue = Some chosen ->
  In other (grp_options group) ->
  opt_value other <> optionValue ->
  In key (map fst (impliedOf other)) ->
  key <> grp_stateKey group ->
  ~ In key (map fst (impliedOf chosen)) ->
  selectOption group optionValue !! key = Some VUndefined.
Proof.
  intros Hfind Hother Hvalue Hkey Htarget Hfresh.
  rewrite (selectOption_unfold _ _ _ Hfind).
  assert (Hmarked : deleteMarks (otherImpliedKeys group optionValue) !! key
                    = Some VUndefined).
  { assert (In key (otherImpliedKeys group optionValue)) as Hin.
    { unfold otherImpliedKeys. apply in_concat.
      exists (map fst (impliedOf other)). split; [|exact Hkey].
      apply in_map_iff. exists other. split; [|exact Hother].
      apply String.eqb_neq in Hvalue. rewrite Hvalue. reflexivity. }
    revert Hin. generalize (otherImpliedKeys group optionValue).
    induction l as [|k l IH]; [intros []|]. rewrite deleteMarks_cons.
    intros [->|Hin]; [apply lookup_insert_eq|].
    destruct (decide (k = key)) as [->|Hne]; [apply lookup_insert_eq|].
    rewrite lookup_insert_ne by exact Hne. auto. }
  assert (Hdiff : (list_to_map (reverse (impliedOf chosen))
                     ∪ ({[grp_stateKey group := VStr optionValue]} : gmap string Value)
                     ∪ deleteMarks (otherImpliedKeys group optionValue)) !! key
                  = Some VUndefined).
  { rewrite lookup_union_r; [exact Hmarked|].
    apply lookup_union_None. split; [|apply lookup_singleton_ne; congruence].
    apply not_elem_of_list_to_map_1. rewrite fmap_reverse, elem_of_reverse.
    rewrite list_elem_of_In. exact Hfresh. }
  rewrite lookup_union, Hdiff.
  destruct (deleteMarks (default [] (opt_clearValues chosen)) !! key) as [v|] eqn:Hc;
    [|reflexivity].
  apply deleteMarks_lookup in Hc. subst v. reflexivity.
Qed.

(** ** Validator: the errors of a report *)

Lemma validateField_field def state e :
  validateField def state = Some e -> fv_field e = fd_key def /\ fv_severity e = Error.
Proof.
  unfold validateField.
  destruct (_ && isEmpty _); [intros [= <-]; auto|].
  destruct (isEmpty _); [discriminate|].
  repeat match goal with
         | |- context [match ?x with Some _ => _ | None => _ end] => destruct x
         | |- context [if ?b then _ else _] => destruct b
         end;
    cbn; intros [= <-]; auto.
Qed.

(** The errors of the first loop of [validateState] are results of
    [validateField]. *)
Lemma collectField_errors state defs acc e :
  In e (fold_left (collectField state) defs acc).1.1.1 ->
  In e acc.1.1.1 \/ exists def, In def defs /\ validateField def state = Some e.
Proof.
  revert acc. induction defs as [|def defs IH]; intros acc; cbn [fold_left]; [auto|].
  intros H. apply IH in H as [H|(d & Hin & Hd)]; [|right; exists d; split; [right|]; auto].
  destruct acc as [[[errors warnings] missing] invalid]. unfold collectField in H.
  destruct (validateField def state) as [result|] eqn:Hres; [|auto].
  destruct (fv_severity result); [|auto].
  destruct (mentionsRequired result); cbn in H; apply in_app_iff in H as [H|[<-|[]]];
    auto; right; exists def; split; auto; left; reflexivity.
Qed.

Lemma validateExclusiveGroups_errors groups state e :
  In e (validateExclusiveGroupsWith groups state) ->
  exists group, In group groups /\
    e = mkFieldValidation (grp_stateKey group) false
          (Some (grp_name group ++ " must be selected")%string) Error.
Proof.
  unfold validateExclusiveGroupsWith.
  enough (Hgen : forall acc,
             In e (fold_left (fun errors group =>
               if grp_required group && isEmpty (get state (grp_stateKey group))
               then (errors ++
                     [mkFieldValidation (grp_stateKey group) false
                        (Some (grp_name group ++ " must be selected")%string) Error])%list
               else errors) groups acc) ->
             In e acc \/ exists group, In group groups /\
               e = mkFieldValidation (grp_stateKey group) false
                     (Some (grp_name group ++ " must be selected")%string) Error).
  { intros H. apply Hgen in H as [[]|H]. exact H. }
  induction groups as [|g groups IH]; intros acc; cbn [fold_left]; [auto|].
  intros H. apply IH in H as [H|(g' & Hin & ->)]; [|right; exists g'; split; [right|]; auto].
  destruct (_ && _); [|auto].
  apply in_app_iff in H as [H|[<-|[]]]; [auto|].
  right. exists g. split; [left|]; reflexivity.
Qed.

Lemma detectConflicts_rules rules state c :
  In c (detectConflictsWith rules state) -> In (conflict_rule c) rules.
Proof.
  unfold detectConflictsWith.
  enough (Hgen : forall acc,
             In c (fold_left (fun conflicts rule =>
               if evaluateCondition (Some (cr_condition rule)) state
               then (conflicts ++
                     [mkConflict rule (buildContext state (cr_relatedFields rule))])%list
               else conflicts) rules acc) ->
             In c acc \/ In (conflict_rule c) rules).
  { intros H. apply Hgen in H as [[]|H]. exact H. }
  induction rules as [|r rules IH]; intros acc; cbn [fold_left]; [auto|].
  intros H. apply IH in H as [H|H]; [|right; right; exact H].
  destruct (evaluateCondition _ state); [|auto].
  apply in_app_iff in H as [H|[<-|[]]]; [auto|]. right. left. reflexivity.
Qed.

Lemma collectConflict_errors conflicts acc e :
  In e (fold_left collectConflict conflicts acc).1 ->
  In e acc.1 \/ exists c, In c conflicts /\ fv_message e = Some (cr_message (conflict_rule c)).
Proof.
  revert acc. induction conflicts as [|c conflicts IH]; intros acc; cbn [fold_left]; [auto|].
  intros H. apply IH in H as [H|(c' & Hin & Hc)]; [|right; exists c'; split; [right|]; auto].
  destruct acc as [errors warnings]. unfold collectConflict in H.
  destruct (cr_severity (conflict_rule c)); cbn in H; [|auto..].
  apply in_app_iff in H as [H|[<-|[]]]; [auto|].
  right. exists c. split; [left|]; reflexivity.
Qed.

(** Where the errors of a report come from. *)
Lemma validateState_errors defs groups rules state e :
  In e (vr_errors (validateStateWith defs groups rules state)) ->
  (exists def, In def defs /\ validateField def state = Some e) \/
  (exists group, In group groups /\
     e = mkFieldValidation (grp_stateKey group) false
           (Some (grp_name group ++ " must be selected")%string) Error) \/
  (exists rule, In rule rules /\ fv_message e = Some (cr_message rule)).
Proof.
  unfold validateStateWith.
  destruct (fold_left (collectField state) defs ([], [], [], []))
    as [[[errors warnings] missing] invalid] eqn:Hfields.
  destruct (fold_left collectConflict _ _) as [errors' warnings'] eqn:Hconf.
  cbn [vr_errors]. intros H.
  pose proof (collectConflict_errors (detectConflictsWith rules state)
                ((errors ++ validateExclusiveGroupsWith groups state)%list, warnings) e)
    as Hc.
  rewrite Hconf in Hc. destruct (Hc H) as [Hin|(c & Hin & Hmsg)].
  - cbn in Hin. apply in_app_iff in Hin as [Hin|Hin].
    + left. pose proof (collectField_errors state defs ([], [], [], []) e) as Hf.
      rewrite Hfields in Hf. destruct (Hf Hin) as [[]|Hd]. exact Hd.
    + right. left. apply (validateExclusiveGroups_errors groups state e Hin).
  - right. right. exists (conflict_rule c). split; [|exact Hmsg].
    apply (detectConflicts_rules rules state c Hin).
Qed.

(** ** Validator: range checks *)

(** On a value that is not a number the bounds of a field rule are without
    effect. *)
Lemma validateField_non_number def state :
  typeofNumber (get state (fd_key def)) = false ->
  validateField def state = validateField (withoutBounds def) state.
Proof.
  intros Hty. unfold validateField, withoutBounds. cbn [fd_key fd_label fd_required
    fd_requiredWhen fd_min fd_max fd_validValues fd_validate].
  rewrite Hty. cbn [andb].
  destruct (fd_min def), (fd_max def); reflexivity.
Qed.

(** The message of an error on a value that is not a number. *)
Lemma validateField_non_number_message def state e :
  typeofNumber (get state (fd_key def)) = false ->
  validateField def state = Some e ->
  fv_message e = Some (fd_label def ++ " is required")%string \/
  (exists validValues, fd_validValues def = Some validValues /\
     fv_message e =
       Some (fd_label def ++ " must be one of: " ++ join ", " validValues)%string) \/
  (exists validate message, fd_validate def = Some validate /\
     validate (get state (fd_key def)) state = Some message /\
     fv_message e = Some message).
Proof.
  intros Hty. rewrite (validateField_non_number _ _ Hty).
  unfold validateField, withoutBounds. cbn [fd_key fd_label fd_required
    fd_requiredWhen fd_min fd_max fd_validValues fd_validate].
  destruct (_ && isEmpty _); [intros [= <-]; auto|].
  destruct (isEmpty _); [discriminate|].
  destruct (fd_validValues def) as [validValues|];
    [destruct (negb (existsb _ validValues))|];
    (destruct (fd_validate def) as [validate|];
     [destruct (validate _ state) as [message|] eqn:Hv;
      [destruct (negb (String.eqb message EmptyString))|]|]);
    cbn; intros [= <-]; cbn [fv_message]; eauto 10.
Qed.

Lemma validateMicrosteps_message value state message :
  validateMicrosteps value state = Some message ->
  message = "Microsteps must be 16, 32, 64, 128, or 256".
Proof. unfold validateMicrosteps. destruct (negb _); congruence. Qed.

(** In the built-in field table the one [validate] function is that of the
    microsteps. *)
Lemma builtin_validate def validate :
  In def FIELD_DEFINITIONS -> fd_validate def = Some validate ->
  validate = validateMicrosteps.
Proof.
  intros Hin. unfold FIELD_DEFINITIONS in Hin.
  repeat (destruct Hin as [<-|Hin]; [cbn; congruence|]).
  destruct Hin.
Qed.

(** None of the texts the built-in tables can put into an error for
    another reason reads like a range message. *)
Lemma builtin_messages_not_range :
  forallb (fun def =>
             negb (isRangeMessage (Some (fd_label def ++ " is required")%string)) &&
             match fd_validValues def with
             | Some validValues =>
                 negb (isRangeMessage
                         (Some (fd_label def ++ " must be one of: "
                                ++ join ", " validValues)%string))
             | None => true
             end) FIELD_DEFINITIONS = true /\
  isRangeMessage (Some "Microsteps must be 16, 32, 64, 128, or 256") = false /\
  forallb (fun group =>
             negb (isRangeMessage (Some (grp_name group ++ " must be selected")%string)))
          EXCLUSIVE_GROUPS = true /\
  forallb (fun rule => negb (isRangeMessage (Some (cr_message rule)))) CONFLICT_RULES = true.
Proof. vm_compute. auto. Qed.

Lemma validateState_unfold state :
  validateState state =
  validateStateWith FIELD_DEFINITIONS EXCLUSIVE_GROUPS CONFLICT_RULES state.
Proof. reflexivity. Qed.

(** An error of [validateField] on a value that is not a number is not a
    range violation. *)
Lemma field_error_not_range def state e :
  In def FIELD_DEFINITIONS ->
  validateField def state = Some e ->
  typeofNumber (get state (fd_key def)) = false ->
  isRangeMessage (fv_message e) = false.
Proof.
  intros Hin Hres Hty.
  destruct builtin_messages_not_range as (Hfields & Hmicro & _ & _).
  rewrite forallb_forall in Hfields.
  specialize (Hfields def Hin). apply andb_true_iff in Hfields as [Hreq Hone].
  destruct (validateField_non_number_message _ _ _ Hty Hres)
    as [Hm|[(vv & Hvv & Hm)|(validate & message & Hv & Hcall & Hm)]];
    rewrite Hm.
  - apply negb_true_iff, Hreq.
  - rewrite Hvv in Hone. apply negb_true_iff, Hone.
  - rewrite (builtin_validate _ _ Hin Hv) in Hcall.
    apply validateMicrosteps_message in Hcall. subst message. exact Hmicro.
Qed.

(** C10.  The range checks are enforced on numbers only: for every field
    rule of the built-in table and every state in which the field's value
    is not of type number (a string, whatever its numeric reading), no
    error of [validateState] for that field is a range violation. *)
Theorem range_checks_skip_non_numbers (def : FieldDefinition) (state : gmap string Value) :
  In def FIELD_DEFINITIONS ->
  typeofNumber (get state (fd_key def)) = false ->
  ~ exists e, In e (vr_errors (validateState state)) /\
              fv_field e = fd_key def /\
              isRangeMessage (fv_message e) = true.
Proof.
  intros Hdef Hty (e & Hin & Hfield & Hrange).
  destruct builtin_messages_not_range as (_ & _ & Hgroups & Hrules).
  rewrite forallb_forall in Hgroups, Hrules.
  rewrite validateState_unfold in Hin.
  apply validateState_errors in Hin
    as [(def' & Hin' & Hres)|[(group & Hin' & Hgroup)|(rule & Hin' & Hmsg)]].
  - destruct (validateField_field _ _ _ Hres) as [Hkey _].
    assert (typeofNumber (get state (fd_key def')) = false) as Hty'
      by (rewrite <- Hkey, Hfield; exact Hty).
    rewrite (field_error_not_range def' state e Hin' Hres Hty') in Hrange.
    discriminate Hrange.
  - specialize (Hgroups group Hin'). rewrite Hgroup in Hrange.
    cbn [fv_message] in Hrange. rewrite Hrange in Hgroups. discriminate Hgroups.
  - specialize (Hrules rule Hin'). rewrite Hmsg in Hrange. rewrite Hrange in Hrules.
    discriminate Hrules.
Qed.

Lemma range_checks_skip_non_numbers_witness :
  ~ exists e,
      In e (vr_errors (validateState {[ "stepper_x.rotation_distance" := VStr "9999" ]})) /\
      fv_field e = fd_key rotationDistanceX /\
      isRangeMessage (fv_message e) = true.
Proof.
  apply (range_checks_skip_non_numbers rotationDistanceX
           {[ "stepper_x.rotation_distance" := VStr "9999" ]}).
  - unfold FIELD_DEFINITIONS, rotationDistanceX. do 6 right. left. reflexivity.
  - reflexivity.
Defined.

(** The same reading as a number is out of range, as a string it passes. *)
Lemma range_check_number_and_string :
  (fv_message <$> validateField rotationDistanceX
                    {[ "stepper_x.rotation_distance" := num 9999 ]})
  = Some (Some "Stepper X Rotation Distance must be at most 500") /\
  validateField rotationDistanceX {[ "stepper_x.rotation_distance" := VStr "9999" ]}
  = None.
Proof. vm_compute. auto. Qed.

(** ** Validator: the condition of [requiredWhen] *)

Lemma length_revString s acc :
  String.length (revString s acc) = String.length s + String.length acc.
Proof.
  revert acc. induction s as [|c r IH]; intros acc; cbn; [reflexivity|].
  rewrite IH. cbn. lia.
Qed.

Lemma length_dropWhile p s : String.length (dropWhile p s) <= String.length s.
Proof. induction s as [|c r IH]; cbn; [lia|]. destruct (p c); cbn; lia. Qed.

Lemma length_trim s : String.length (trim s) <= String.length s.
Proof.
  unfold trim, trimEnd, trimStart.
  rewrite length_revString. cbn.
  pose proof (length_dropWhile isSpace (revString (dropWhile isSpace s) EmptyString)) as H1.
  rewrite length_revString in H1. cbn in H1.
  pose proof (length_dropWhile isSpace s). lia.
Qed.

Lemma splitAux_length sep skip cur s p :
  In p (splitAux sep skip cur s) ->
  String.length p <= String.length cur + String.length s.
Proof.
  revert skip cur. induction s as [|c r IH]; intros skip cur; cbn [splitAux].
  - intros [<-|[]]. rewrite length_revString. cbn. lia.
  - destruct skip as [|k].
    + destruct (startsWith sep (String c r)).
      * intros [<-|H].
        -- rewrite length_revString. cbn. lia.
        -- apply IH in H. cbn in *. lia.
      * intros H. apply IH in H. cbn in *. lia.
    + intros H. apply IH in H. cbn. lia.
Qed.

(** When the separator occurs every piece is shorter than the text. *)
Lemma split_shorter sep cur s p :
  sep <> EmptyString ->
  includes sep s = true ->
  In p (splitAux sep 0 cur s) ->
  String.length p < String.length cur + String.length s.
Proof.
  intros Hsep. revert cur. induction s as [|c r IH]; intros cur; cbn [splitAux includes].
  - destruct sep; [congruence|]. cbn. discriminate.
  - destruct (startsWith sep (String c r)); cbn [orb].
    + intros _ [<-|H].
      * rewrite length_revString. cbn. lia.
      * apply splitAux_length in H. cbn in *. lia.
    + intros Hinc H. apply (IH _ Hinc) in H. cbn in *. lia.
Qed.

(** [evaluateSimpleCondition] returns on every condition. *)
Lemma evaluateSimpleCondition_total fuel condition state :
  String.length condition < fuel ->
  is_Some (evaluateSimpleConditionFrom fuel condition state).
Proof.
  revert condition. induction fuel as [|fuel IH]; intros condition Hlen; [lia|].
  cbn [evaluateSimpleConditionFrom].
  destruct (String.eqb condition EmptyString); [eauto|].
  destruct (geMatch condition) as [[field valueStr]|]; [eauto|].
  destruct (eqMatch condition) as [[field value]|]; [eauto|].
  destruct (includes " and " condition) eqn:Hinc; [|eauto].
  assert (Hparts : forall part, In part (split " and " condition) ->
                     String.length (trim part) < fuel).
  { intros part Hin. apply split_shorter in Hin; [|discriminate|exact Hinc].
    pose proof (length_trim part). cbn in Hin. lia. }
  induction (split " and " condition) as [|part parts IHparts]; cbn [foldr]; [eauto|].
  destruct (IH (trim part)) as [b ->]; [apply Hparts; left; reflexivity|].
  destruct IHparts as [rest ->]; [intros q Hq; apply Hparts; right; exact Hq|].
  eauto.
Qed.

Lemma jsLt_number v n : jsLt (Scal v) (Scal (VNum n)) = numLt (ToNumber v) n.
Proof. destruct v; reflexivity. Qed.

(** Symbolic evaluation of a condition given by its text. *)
Ltac eval_condition :=
  erewrite evaluateCondition_tokens by (vm_compute; reflexivity);
  unfold parse.

Ltac agree :=
  unfold evaluateSimpleCondition; eval_condition;
  with_strategy opaque [get ToBoolean ToNumber numLt jsLt] lazy;
  rewrite ?jsLt_number; cbn [ToBoolean]; reflexivity.

(** On every other [requiredWhen] condition of the built-in field table the
    validator's evaluator and [evaluateCondition] agree, in every state. *)
Lemma simple_condition_agrees def c state :
  In def FIELD_DEFINITIONS -> fd_requiredWhen def = Some c -> c <> canbusCondition ->
  evaluateSimpleCondition c state = evaluateCondition (Some c) state.
Proof.
  intros Hin Hc Hne. unfold FIELD_DEFINITIONS in Hin.
  repeat (destruct Hin as [<-|Hin];
          [cbn in Hc; try discriminate Hc; injection Hc as <-;
           first [exfalso; apply Hne; reflexivity | agree]|]).
  destruct Hin.
Qed.

(** C7, the failing input.  On the condition of the CAN UUID field the
    pattern for [==] matches first and takes everything before the [==] for
    the field name, so the validator reads a key that no state holds: with
    the toolboard enabled and connected by CAN the validator's evaluator
    answers false, [evaluateCondition] answers true, and the missing UUID is
    not reported. *)
Theorem canbus_condition_disagrees :
  eqMatch canbusCondition =
    Some ("mcu.toolboard.enabled and mcu.toolboard.connection_type", "can") /\
  evaluateSimpleCondition canbusCondition canbusState = false /\
  evaluateCondition (Some canbusCondition) canbusState = true /\
  validateField canbusField canbusState = None.
Proof. vm_compute. auto. Qed.

(** The CAN UUID is in fact never required: the validator's evaluator
    answers false in every state that has no key of that odd name. *)
Lemma canbus_never_required state :
  get state "mcu.toolboard.enabled and mcu.toolboard.connection_type" = VUndefined ->
  evaluateSimpleCondition canbusCondition state = false.
Proof.
  intros H. unfold evaluateSimpleCondition.
  with_strategy opaque [get strictEq] lazy. rewrite H. reflexivity.
Qed.

(** ** Implications: the order of application *)

Lemma precedes_cons {A} (x : A) l a b :
  precedes (x :: l) a b <-> (a = x /\ In b l) \/ precedes l a b.
Proof.
  split.
  - intros (l1 & l2 & l3 & H). destruct l1 as [|y l1]; cbn in H.
    + injection H as -> ->. left. split; [reflexivity|].
      apply in_or_app. right. left. reflexivity.
    + injection H as -> ->. right. exists l1, l2, l3. reflexivity.
  - intros [[-> Hin]|(l1 & l2 & l3 & ->)].
    + apply in_split in Hin as (l2 & l3 & ->). exists [], l2, l3. reflexivity.
    + exists (x :: l1), l2, l3. reflexivity.
Qed.

Lemma precedes_In {A} (l : list A) a b : precedes l a b -> In a l /\ In b l.
Proof.
  intros (l1 & l2 & l3 & ->). split; apply in_or_app; right.
  - left. reflexivity.
  - right. apply in_or_app. right. left. reflexivity.
Qed.

Lemma precedes_antisym {A} (l : list A) a b :
  List.NoDup l -> precedes l a b -> precedes l b a -> False.
Proof.
  induction l as [|x l IH]; intros Hnd Hab Hba.
  - destruct Hab as (l1 & ? & ? & H). destruct l1; discriminate H.
  - inversion Hnd as [|? ? Hx Hnd']; subst.
    apply precedes_cons in Hab as [[-> Hb]|Hab], Hba as [[-> Ha]|Hba]; auto.
    + apply precedes_In in Hba as [_ Ha]. auto.
    + apply precedes_In in Hab as [_ Hb]. auto.
Qed.

Lemma In_insertByPriority x s a : In a (insertByPriority x s) <-> a = x \/ In a s.
Proof.
  induction s as [|y s IH]; cbn; [intuition congruence|].
  destruct (_ <? _)%Z; cbn; [rewrite IH|]; intuition congruence.
Qed.

Lemma In_sortByPriority l a : In a (sortByPriority l) <-> In a l.
Proof.
  induction l as [|x l IH]; cbn; [tauto|].
  rewrite In_insertByPriority, IH. intuition congruence.
Qed.

Lemma NoDup_insertByPriority x s :
  ~ In x s -> List.NoDup s -> List.NoDup (insertByPriority x s).
Proof.
  induction s as [|y s IH]; intros Hx Hnd; cbn.
  - constructor; [intros []|constructor].
  - inversion Hnd as [|? ? Hy Hnd']; subst.
    destruct (_ <? _)%Z; [|constructor; assumption].
    constructor.
    + intros H. apply (proj1 (In_insertByPriority _ _ _)) in H as [->|H];
        [apply Hx; left; reflexivity|auto].
    + apply IH; [|exact Hnd']. intros H. apply Hx. right. exact H.
Qed.

Lemma NoDup_sortByPriority l : List.NoDup l -> List.NoDup (sortByPriority l).
Proof.
  induction l as [|x l IH]; intros Hnd; cbn; [constructor|].
  inversion Hnd; subst. apply NoDup_insertByPriority; [|auto].
  intros H. apply (proj1 (In_sortByPriority _ _)) in H. auto.
Qed.

(** Where two elements of a list with an inserted element stand. *)
Lemma precedes_insertByPriority x s a b :
  (forall c d, precedes s c d -> (priorityOf c <= priorityOf d)%Z) ->
  precedes (insertByPriority x s) a b ->
  precedes s a b \/
  (a = x /\ In b s /\ (priorityOf x <= priorityOf b)%Z) \/
  (b = x /\ In a s /\ (priorityOf a < priorityOf x)%Z).
Proof.
  induction s as [|y s IH]; intros Hsorted; cbn.
  - intros (l1 & l2 & l3 & H). destruct l1 as [|? [|? ?]]; cbn in H; try discriminate H.
    destruct l2; discriminate H.
  - destruct (_ <? _)%Z eqn:Hlt.
    + apply Z.ltb_lt in Hlt. intros H. apply precedes_cons in H as [[-> Hb]|H].
      * apply (proj1 (In_insertByPriority _ _ _)) in Hb as [->|Hb].
        -- right. right. repeat split; [left; reflexivity|exact Hlt].
        -- left. apply precedes_cons. left. auto.
      * assert (Htail : forall c d, precedes s c d -> (priorityOf c <= priorityOf d)%Z).
        { intros c d Hcd. apply Hsorted, precedes_cons. right. exact Hcd. }
        apply (IH Htail) in H as [H|[(-> & Hb & Hle)|(-> & Ha & Hlt')]].
        -- left. apply precedes_cons. right. exact H.
        -- right. left. repeat split; [right; exact Hb|exact Hle].
        -- right. right. repeat split; [right; exact Ha|exact Hlt'].
    + apply Z.ltb_ge in Hlt. intros H. apply precedes_cons in H as [[-> Hb]|H].
      * right. left. repeat split; [exact Hb|].
        destruct Hb as [<-|Hb]; [exact Hlt|].
        etransitivity; [exact Hlt|]. apply Hsorted, precedes_cons. left. auto.
      * left. exact H.
Qed.

(** The sort is by priority and stable: a rule that stands before another
    one in the sorted table is applied before it. *)
Lemma sortByPriority_order l a b :
  precedes (sortByPriority l) a b -> appliedBefore l a b.
Proof.
  revert a b. induction l as [|x l IH]; intros a b; cbn [sortByPriority foldr].
  - intros (l1 & ? & ? & H). destruct l1; discriminate H.
  - intros H.
    assert (Hsorted : forall c d, precedes (sortByPriority l) c d ->
                        (priorityOf c <= priorityOf d)%Z).
    { intros c d Hcd. destruct (IH _ _ Hcd) as [Hlt|[Heq _]]; lia. }
    apply (precedes_insertByPriority _ _ _ _ Hsorted) in H
      as [H|[(-> & Hb & Hle)|(-> & Ha & Hlt)]].
    + destruct (IH _ _ H) as [Hlt|[Heq Hp]]; [left; exact Hlt|].
      right. split; [exact Heq|]. apply precedes_cons. right. exact Hp.
    + apply (proj1 (In_sortByPriority _ _)) in Hb.
      destruct (Z.eq_dec (priorityOf x) (priorityOf b)) as [Heq|Hne]; [|left; lia].
      right. split; [exact Heq|]. apply precedes_cons. left. auto.
    + left. exact Hlt.
Qed.

Lemma appliedBefore_antisym rules a b :
  List.NoDup rules -> appliedBefore rules a b -> appliedBefore rules b a -> False.
Proof.
  intros Hnd [Hab|[Hab Hp]] [Hba|[Hba Hq]]; try lia.
  exact (precedes_antisym _ _ _ Hnd Hp Hq).
Qed.

(** ** Implications: the loop *)

Lemma applyEntry_other imp state ov result k v key :
  k <> key ->
  changedValues (applyEntry imp state ov result (k, v)) !! key
  = changedValues result !! key.
Proof.
  intros Hne. unfold applyEntry.
  destruct (_ && _); [reflexivity|].
  destruct (strictEq _ _); [reflexivity|].
  cbn. apply lookup_insert_ne, Hne.
Qed.

Lemma applyEntries_other imp state ov entries result key :
  ~ In key (map fst entries) ->
  changedValues (fold_left (applyEntry imp state ov) entries result) !! key
  = changedValues result !! key.
Proof.
  revert result. induction entries as [|[k v] entries IH]; intros result Hnot;
    cbn [fold_left]; [reflexivity|].
  rewrite IH by (intros H; apply Hnot; right; exact H).
  apply applyEntry_other. intros ->. apply Hnot. left. reflexivity.
Qed.

(** A rule that does not fire, or does not set the key, leaves the entry
    of the key as it is. *)
Lemma applyImplication_other state ov result imp key :
  fires state imp = false \/ ~ In key (setKeys imp) ->
  changedValues (applyImplication state ov result imp) !! key
  = changedValues result !! key.
Proof.
  unfold applyImplication, fires. intros [->|Hnot]; [reflexivity|].
  destruct (negb _); [reflexivity|]. apply applyEntries_other, Hnot.
Qed.

(** A rule that fires writes the value it proposes for a key, unless the
    key is left to the user or the state holds the value already. *)
Lemma applyImplication_sets state ov result imp key value :
  fires state imp = true ->
  List.NoDup (setKeys imp) ->
  In (key, value) (imp_setValues imp) ->
  heldBack imp ov key = false ->
  strictEq (get state key) value = false ->
  changedValues (applyImplication state ov result imp) !! key = Some value.
Proof.
  unfold applyImplication, fires, setKeys, heldBack. intros -> Hnd Hin Hheld Hneq.
  cbn [negb]. revert result Hnd Hin.
  induction (imp_setValues imp) as [|[k v] entries IH]; intros result Hnd Hin; [destruct Hin|].
  cbn [fold_left]. cbn [map fst] in Hnd. inversion Hnd as [|? ? Hk Hnd']; subst.
  destruct Hin as [[= -> ->]|Hin].
  - rewrite applyEntries_other by exact Hk.
    unfold applyEntry. rewrite Hheld, Hneq. cbn. apply lookup_insert_eq.
  - apply IH; assumption.
Qed.

(** C3 (as amended).  When a rule fires and proposes a value for a key,
    the key is not left to the user for that rule, the state does not hold
    the value already, and every other rule that fires and sets the key is
    applied before it (its priority is lower, or equal with an earlier
    declaration), then the final [changedValues] entry of the key is the
    value of that rule: a default of low priority is superseded. *)
Theorem higher_priority_wins (rules : list Implication) (state : gmap string Value)
    (userOverrides : gset string) (hi : Implication) (key : string) (value : Value) :
  List.NoDup rules ->
  In hi rules ->
  fires state hi = true ->
  List.NoDup (setKeys hi) ->
  In (key, value) (imp_setValues hi) ->
  heldBack hi userOverrides key = false ->
  strictEq (get state key) value = false ->
  (forall lo, In lo rules -> lo <> hi -> fires state lo = true ->
              In key (setKeys lo) -> appliedBefore rules lo hi) ->
  changedValues (applyImplicationsWith rules state userOverrides) !! key = Some value.
Proof.
  intros Hnd Hin Hfires Hkeys Hentry Hheld Hneq Hothers.
  unfold applyImplicationsWith.
  pose proof (NoDup_sortByPriority _ Hnd) as Hsnd.
  assert (In hi (sortByPriority rules)) as Hsin
    by (apply (proj2 (In_sortByPriority _ _)), Hin).
  apply in_split in Hsin as (pre & post & Hsplit).
  assert (Hpost : forall r, In r post ->
                    fires state r = false \/ ~ In key (setKeys r)).
  { intros r Hr.
    destruct (fires state r) eqn:Hf; [|left; reflexivity]. right. intros Hk.
    assert (precedes (sortByPriority rules) hi r) as Hp.
    { apply in_split in Hr as (l2 & l3 & ->). exists pre, l2, l3. exact Hsplit. }
    assert (r <> hi) as Hne.
    { intros ->. rewrite Hsplit in Hsnd. apply NoDup_remove_2 in Hsnd.
      apply Hsnd, in_or_app. right. exact Hr. }
    assert (In r rules) as Hrin.
    { apply (proj1 (In_sortByPriority _ _)). rewrite Hsplit.
      apply in_or_app. right. right. exact Hr. }
    apply (appliedBefore_antisym rules r hi Hnd).
    - apply Hothers; assumption.
    - apply sortByPriority_order, Hp. }
  rewrite Hsplit, fold_left_app. cbn [fold_left].
  generalize (fold_left (applyImplication state userOverrides) pre
                (mkImplicationResult ∅ [] [])).
  intros result.
  assert (Hstart : changedValues (applyImplication state userOverrides result hi) !! key
                   = Some value)
    by (apply applyImplication_sets; assumption).
  revert Hstart. generalize (applyImplication state userOverrides result hi).
  clear Hsplit. induction post as [|r post IH]; intros acc Hacc; cbn [fold_left]; [exact Hacc|].
  apply IH.
  - intros r' Hr'. apply Hpost. right. exact Hr'.
  - rewrite applyImplication_other; [exact Hacc|]. apply Hpost. left. reflexivity.
Qed.

Lemma higher_priority_wins_witness :
  changedValues (applyImplicationsWith [specificRule false; defaultRule] ∅ ∅) !! "k"
  = Some (VStr "high").
Proof.
  apply (higher_priority_wins [specificRule false; defaultRule] ∅ ∅ (specificRule false)).
  - repeat constructor; cbn; intuition discriminate.
  - left. reflexivity.
  - reflexivity.
  - repeat constructor; cbn; tauto.
  - left. reflexivity.
  - reflexivity.
  - reflexivity.
  - intros lo [<-|[<-|[]]] Hne _ _; [congruence|]. left. vm_compute. reflexivity.
Defined.

(** C3, counterexample.  Both rules fire and set [k] to different values,
    the specific rule has the higher priority; it allows overriding and
    the user has set [k], so it leaves [k] alone, and the final entry is
    the value of the default. *)
Lemma user_override_keeps_default :
  fires ∅ defaultRule = true /\
  fires ∅ (specificRule true) = true /\
  (priorityOf defaultRule < priorityOf (specificRule true))%Z /\
  changedValues (applyImplicationsWith [defaultRule; specificRule true] ∅ {[ "k" ]}) !! "k"
  = Some (VStr "low").
Proof. vm_compute. auto. Qed.

(** The entry is the default's also when nobody has overridden [k] but the
    state holds the value of the specific rule already: that rule then
    passes over the key and does not take back the default's proposal. *)
Lemma present_value_keeps_default :
  changedValues (applyImplicationsWith [defaultRule; specificRule false]
                   {[ "k" := VStr "high" ]} ∅) !! "k"
  = Some (VStr "low").
Proof. vm_compute. reflexivity. Qed.

(** ** Implications: what a call changes *)

Lemma applyEntry_sound imp state ov result entry k v :
  changedValues (applyEntry imp state ov result entry) !! k = Some v ->
  changedValues result !! k = Some v \/
  (entry = (k, v) /\ heldBack imp ov k = false /\ strictEq (get state k) v = false).
Proof.
  destruct entry as [k' v']. unfold applyEntry, heldBack.
  destruct (_ && _) eqn:Hheld; [auto|].
  destruct (strictEq _ _) eqn:Hneq; [auto|].
  cbn. destruct (decide (k' = k)) as [->|Hne].
  - rewrite lookup_insert_eq. intros [= ->]. auto.
  - rewrite lookup_insert_ne by exact Hne. auto.
Qed.

Lemma applyImplication_sound state ov result imp k v :
  changedValues (applyImplication state ov result imp) !! k = Some v ->
  changedValues result !! k = Some v \/
  (fires state imp = true /\ In (k, v) (imp_setValues imp) /\
   heldBack imp ov k = false /\ strictEq (get state k) v = false).
Proof.
  unfold applyImplication, fires.
  destruct (evaluateCondition _ state); cbn [negb]; [|auto].
  revert result. induction (imp_setValues imp) as [|entry entries IH]; intros result;
    cbn [fold_left]; [auto|].
  intros H. apply IH in H as [H|(_ & Hin & Hheld & Hneq)].
  - apply applyEntry_sound in H as [H|(-> & Hheld & Hneq)]; [auto|].
    right. split; [reflexivity|]. split; [left; reflexivity|]. auto.
  - right. split; [reflexivity|]. split; [right; exact Hin|]. auto.
Qed.

(** Every entry of [changedValues] was proposed by a rule that fires, for a
    key not left to the user and a value the state does not hold. *)
Lemma changedValues_sound rules state ov k v :
  changedValues (applyImplicationsWith rules state ov) !! k = Some v ->
  exists imp, In imp rules /\ fires state imp = true /\
    In (k, v) (imp_setValues imp) /\
    heldBack imp ov k = false /\ strictEq (get state k) v = false.
Proof.
  unfold applyImplicationsWith.
  enough (Hgen : forall sorted result,
             changedValues (fold_left (applyImplication state ov) sorted result) !! k
             = Some v ->
             changedValues result !! k = Some v \/
             exists imp, In imp sorted /\ fires state imp = true /\
               In (k, v) (imp_setValues imp) /\
               heldBack imp ov k = false /\ strictEq (get state k) v = false).
  { intros H. apply Hgen in H as [H|(imp & Hin & ?)].
    - cbn in H. rewrite lookup_empty in H. discriminate H.
    - exists imp. split; [|assumption]. apply (proj1 (In_sortByPriority _ _)), Hin. }
  induction sorted as [|imp sorted IH]; intros result; cbn [fold_left]; [auto|].
  intros H. apply IH in H as [H|(r & Hin & ?)]; [|right; exists r; split; [right|]; auto].
  apply applyImplication_sound in H as [H|?]; [auto|].
  right. exists imp. split; [left; reflexivity|assumption].
Qed.

Lemma applyEntry_mono imp state ov result entry k :
  is_Some (changedValues result !! k) ->
  is_Some (changedValues (applyEntry imp state ov result entry) !! k).
Proof.
  destruct entry as [k' v']. unfold applyEntry.
  destruct (_ && _); [auto|]. destruct (strictEq _ _); [auto|].
  cbn. intros H. rewrite lookup_insert_is_Some. destruct (decide (k' = k)); auto.
Qed.

Lemma applyEntries_mono imp state ov entries result k :
  is_Some (changedValues result !! k) ->
  is_Some (changedValues (fold_left (applyEntry imp state ov) entries result) !! k).
Proof.
  revert result. induction entries as [|entry entries IH]; intros result H;
    cbn [fold_left]; [exact H|].
  apply IH, applyEntry_mono, H.
Qed.

Lemma applyImplication_mono state ov result imp k :
  is_Some (changedValues result !! k) ->
  is_Some (changedValues (applyImplication state ov result imp) !! k).
Proof.
  unfold applyImplication. destruct (negb _); [auto|]. apply applyEntries_mono.
Qed.

Lemma applyImplication_proposes state ov result imp k v :
  fires state imp = true ->
  In (k, v) (imp_setValues imp) ->
  heldBack imp ov k = false ->
  strictEq (get state k) v = false ->
  is_Some (changedValues (applyImplication state ov result imp) !! k).
Proof.
  unfold applyImplication, fires, heldBack. intros -> Hin Hheld Hneq. cbn [negb].
  revert result Hin. induction (imp_setValues imp) as [|entry entries IH];
    intros result Hin; [destruct Hin|].
  cbn [fold_left]. destruct Hin as [->|Hin]; [|apply IH, Hin].
  apply applyEntries_mono. unfold applyEntry. rewrite Hheld, Hneq. cbn.
  rewrite lookup_insert_eq. eauto.
Qed.

(** Every key for which a rule that fires proposes a new value has an entry
    in [changedValues]. *)
Lemma changedValues_complete rules state ov imp k v :
  In imp rules ->
  fires state imp = true ->
  In (k, v) (imp_setValues imp) ->
  heldBack imp ov k = false ->
  strictEq (get state k) v = false ->
  is_Some (changedValues (applyImplicationsWith rules state ov) !! k).
Proof.
  intros Hin Hfires Hentry Hheld Hneq. unfold applyImplicationsWith.
  apply (proj2 (In_sortByPriority _ _)) in Hin.
  apply in_split in Hin as (pre & post & ->).
  rewrite fold_left_app. cbn [fold_left].
  generalize (fold_left (applyImplication state ov) pre (mkImplicationResult ∅ [] [])).
  intros result.
  pose proof (applyImplication_proposes state ov result imp k v Hfires Hentry Hheld Hneq)
    as Hstart.
  revert Hstart. generalize (applyImplication state ov result imp).
  induction post as [|r post IH]; intros acc Hacc; cbn [fold_left]; [exact Hacc|].
  apply IH, applyImplication_mono, Hacc.
Qed.

(** A call in which every proposal is left to the user or is held by the
    state already changes nothing. *)
Lemma changedValues_empty rules state ov :
  (forall imp k v, In imp rules -> fires state imp = true ->
     In (k, v) (imp_setValues imp) ->
     heldBack imp ov k = true \/ strictEq (get state k) v = true) ->
  changedValues (applyImplicationsWith rules state ov) = ∅.
Proof.
  intros Hall. unfold applyImplicationsWith.
  assert (Hsorted : forall imp, In imp (sortByPriority rules) -> In imp rules)
    by (intros imp; apply In_sortByPriority).
  revert Hsorted. generalize (sortByPriority rules). intros sorted Hsorted.
  enough (Hgen : forall result, changedValues result = ∅ ->
             changedValues (fold_left (applyImplication state ov) sorted result) = ∅)
    by (apply Hgen; reflexivity).
  induction sorted as [|imp sorted IH]; intros result Hres; cbn [fold_left]; [exact Hres|].
  apply IH; [intros r Hr; apply Hsorted; right; exact Hr|].
  unfold applyImplication.
  destruct (evaluateCondition _ state) eqn:Hf; cbn [negb]; [|exact Hres].
  assert (Hentries : forall k v, In (k, v) (imp_setValues imp) ->
            heldBack imp ov k = true \/ strictEq (get state k) v = true).
  { intros k v Hin. apply (Hall imp); auto. apply Hsorted. left. reflexivity. }
  revert result Hres Hentries.
  induction (imp_setValues imp) as [|[k v] entries IHe]; intros result Hres Hentries;
    cbn [fold_left]; [exact Hres|].
  apply IHe; [|intros k' v' Hin; apply Hentries; right; exact Hin].
  unfold applyEntry.
  destruct (Hentries k v (or_introl eq_refl)) as [Hheld|Heq].
  - unfold heldBack in Hheld. rewrite Hheld. exact Hres.
  - destruct (_ && _); [exact Hres|]. rewrite Heq. exact Hres.
Qed.

(** ** The merge of a diff *)

Lemma setFields_lookup (state fields : gmap string Value) (k : string) :
  setFields state fields !! k =
  match fields !! k with
  | Some v => if isEmptyValue v then None else Some v
  | None => state !! k
  end.
Proof.
  unfold setFields.
  apply (map_fold_weak_ind
           (fun (acc : gmap string Value) (m : gmap string Value) =>
              acc !! k = match m !! k with
                         | Some v => if isEmptyValue v then None else Some v
                         | None => state !! k
                         end)).
  - rewrite lookup_empty. reflexivity.
  - intros i x m acc Hfresh IH.
    destruct (decide (i = k)) as [->|Hne].
    + rewrite lookup_insert_eq. destruct (isEmptyValue x).
      * apply lookup_delete_eq.
      * apply lookup_insert_eq.
    + rewrite (lookup_insert_ne m) by exact Hne. destruct (isEmptyValue x).
      * rewrite lookup_delete_ne by exact Hne. exact IH.
      * rewrite lookup_insert_ne by exact Hne. exact IH.
Qed.

(** A diff without empty values is laid over the state. *)
Lemma setFields_union (state fields : gmap string Value) :
  (forall k v, fields !! k = Some v -> isEmptyValue v = false) ->
  setFields state fields = fields ∪ state.
Proof.
  intros Hplain. apply map_eq. intros k.
  rewrite setFields_lookup, lookup_union.
  destruct (fields !! k) as [v|] eqn:Hk.
  - rewrite (Hplain _ _ Hk). destruct (state !! k); reflexivity.
  - destruct (state !! k); reflexivity.
Qed.

(** ** Implications: a second call *)

Section Idempotence.

Variable rules : list Implication.

(** No condition of the table reads a key that the table sets. *)
Hypothesis conditions_apart :
  forall imp (state fields : gmap string Value),
    In imp rules ->
    (forall k, is_Some (fields !! k) -> In k (allSetKeys rules)) ->
    fires (setFields state fields) imp = fires state imp.

(** Two rules that fire together agree on the keys they both set. *)
Hypothesis consistent :
  forall state imp1 imp2 k v1 v2,
    In imp1 rules -> In imp2 rules ->
    fires state imp1 = true -> fires state imp2 = true ->
    In (k, v1) (imp_setValues imp1) -> In (k, v2) (imp_setValues imp2) ->
    v1 = v2.

(** The values of the table equal themselves and are not empty. *)
Hypothesis plain_values :
  forall imp k v, In imp rules -> In (k, v) (imp_setValues imp) ->
    strictEq v v = true /\ isEmptyValue v = false.

Lemma changed_keys state ov k :
  is_Some (changedValues (applyImplicationsWith rules state ov) !! k) ->
  In k (allSetKeys rules).
Proof.
  intros [v H]. apply changedValues_sound in H as (imp & Hin & _ & Hentry & _).
  unfold allSetKeys. apply in_concat. exists (setKeys imp). split.
  - apply in_map, Hin.
  - unfold setKeys. apply (in_map fst) in Hentry. exact Hentry.
Qed.

(** Over a table with these three properties a second call, on the state
    merged with the diff of the first, changes nothing. *)
Lemma second_call_changes_nothing state ov :
  changedValues
    (applyImplicationsWith rules
       (setFields state (changedValues (applyImplicationsWith rules state ov))) ov)
  = ∅.
Proof.
  set (diff := changedValues (applyImplicationsWith rules state ov)).
  apply changedValues_empty. intros imp k v Hin Hfires Hentry.
  rewrite conditions_apart in Hfires; [|exact Hin|intros k'; apply changed_keys].
  destruct (heldBack imp ov k) eqn:Hheld; [left; reflexivity|right].
  destruct (plain_values _ _ _ Hin Hentry) as [Hself Hplain].
  unfold get. rewrite setFields_lookup.
  destruct (diff !! k) as [v'|] eqn:Hdiff.
  - apply changedValues_sound in Hdiff as (imp' & Hin' & Hfires' & Hentry' & _ & _).
    rewrite (consistent state imp' imp k v' v Hin' Hin Hfires' Hfires Hentry' Hentry).
    rewrite Hplain. exact Hself.
  - destruct (strictEq (get state k) v) eqn:Heq; [exact Heq|].
    destruct (changedValues_complete rules state ov imp k v Hin Hfires Hentry Hheld Heq)
      as [v' Hsome].
    fold diff in Hsome. rewrite Hdiff in Hsome. discriminate Hsome.
Qed.

End Idempotence.

(** ** Implications: the built-in table *)

Lemma builtin_plain_values imp k v :
  In imp IMPLICATIONS -> In (k, v) (imp_setValues imp) ->
  strictEq v v = true /\ isEmptyValue v = false.
Proof.
  assert (H : forallb (fun imp =>
                forallb (fun e => strictEq e.2 e.2 && negb (isEmptyValue e.2))
                        (imp_setValues imp)) IMPLICATIONS = true)
    by (vm_compute; reflexivity).
  rewrite forallb_forall in H. intros Hin Hentry.
  specialize (H imp Hin). rewrite forallb_forall in H. specialize (H _ Hentry).
  cbn in H. apply andb_true_iff in H as [H1 H2]. apply negb_true_iff in H2. auto.
Qed.

(** A key that no built-in rule sets reads the same after the merge of a
    diff over such keys. *)
Lemma get_outside (state fields : gmap string Value) k :
  (forall k, is_Some (fields !! k) -> In k (allSetKeys IMPLICATIONS)) ->
  existsb (String.eqb k) (allSetKeys IMPLICATIONS) = false ->
  get (setFields state fields) k = get state k.
Proof.
  intros Hkeys Hout. unfold get. rewrite setFields_lookup.
  destruct (fields !! k) as [v|] eqn:Hk; [|reflexivity].
  assert (In k (allSetKeys IMPLICATIONS)) as Hin by (apply Hkeys; eauto).
  assert (existsb (String.eqb k) (allSetKeys IMPLICATIONS) = true) as Hyes.
  { apply existsb_exists. exists k. split; [exact Hin|apply String.eqb_refl]. }
  congruence.
Qed.

(** The conditions of the built-in rules read none of the keys the rules
    set. *)
Lemma builtin_conditions_apart imp (state fields : gmap string Value) :
  In imp IMPLICATIONS ->
  (forall k, is_Some (fields !! k) -> In k (allSetKeys IMPLICATIONS)) ->
  fires (setFields state fields) imp = fires state imp.
Proof.
  intros Hin Hkeys. unfold IMPLICATIONS in Hin.
  repeat (destruct Hin as [<-|Hin];
          [unfold fires; cbn [imp_condition implication];
           repeat erewrite evaluateCondition_tokens by (vm_compute; reflexivity);
           unfold parse;
           with_strategy opaque [get setFields strictEq ToBoolean jsLt arrayIncludes] lazy;
           rewrite !(get_outside state fields _ Hkeys) by (vm_compute; reflexivity);
           reflexivity|]).
  destruct Hin.
Qed.

Lemma numEq_trans a b c : numEq a b = true -> numEq a c = true -> numEq b c = true.
Proof.
  destruct a as [| |p|], b as [| |q|], c as [| |r|]; cbn; try discriminate; auto.
  rewrite !Qeq_bool_iff. intros H1 H2. rewrite <- H1, <- H2. reflexivity.
Qed.

(** A value strictly equal to two values makes these strictly equal. *)
Lemma strictEq_common v a b :
  strictEq v a = true -> strictEq v b = true -> strictEq a b = true.
Proof.
  destruct v as [| |x|x|x], a as [| |y|y|y], b as [| |z|z|z]; cbn; try discriminate; auto.
  - destruct x, y, z; cbn; auto.
  - apply numEq_trans.
  - rewrite !String.eqb_eq. congruence.
Qed.

(** Two tests that compare one value with two different constants. *)
Ltac clash :=
  match goal with
  | E1 : strictEq ?g ?a = true, E2 : strictEq ?g ?b = true |- _ =>
      let X := fresh "X" in
      pose proof (strictEq_common _ _ _ E1 E2) as X;
      vm_compute in X; discriminate X
  end.

(** Two conditions, given by their texts, that cannot hold together. *)
Ltac exclusive Hf1 Hf2 :=
  unfold fires in Hf1, Hf2; cbn [imp_condition implication] in Hf1, Hf2;
  erewrite evaluateCondition_tokens in Hf1 by (vm_compute; reflexivity);
  erewrite evaluateCondition_tokens in Hf2 by (vm_compute; reflexivity);
  unfold parse in Hf1, Hf2;
  with_strategy opaque [get strictEq] lazy in Hf1;
  with_strategy opaque [get strictEq] lazy in Hf2;
  revert Hf1 Hf2;
  repeat match goal with
         | |- context [strictEq ?a ?b] =>
             let E := fresh "E" in destruct (strictEq a b) eqn:E
         end;
  intros Hf1 Hf2; try discriminate Hf1; try discriminate Hf2; clash.

(** Built-in rules that fire together propose one value for a key. *)
Lemma builtin_consistent state imp1 imp2 k v1 v2 :
  In imp1 IMPLICATIONS -> In imp2 IMPLICATIONS ->
  fires state imp1 = true -> fires state imp2 = true ->
  In (k, v1) (imp_setValues imp1) -> In (k, v2) (imp_setValues imp2) ->
  v1 = v2.
Proof.
  intros Hin1 Hin2 Hf1 Hf2 He1 He2. unfold IMPLICATIONS in Hin1, Hin2.
  repeat (destruct Hin1 as [<-|Hin1];
    [cbn [imp_setValues implication] in He1;
     repeat (destruct He1 as [[= <- <-]|He1]; [|]); try (destruct He1);
     repeat (destruct Hin2 as [<-|Hin2];
       [cbn [imp_setValues implication] in He2;
        repeat (destruct He2 as [He2|He2];
                [first [discriminate He2
                       | injection He2 as <-;
                         first [reflexivity | exclusive Hf1 Hf2]]|]);
        try (destruct He2)|]);
     try (destruct Hin2)|]).
  destruct Hin1.
Qed.

(** C4.  Implication application is idempotent for the built-in rule
    table: for every state and every set of user overrides, a second call
    on the state overridden by the diff of the first call (also when the
    diff is merged the way the store merges it) yields an empty
    [changedValues]. *)
Theorem applyImplications_idempotent (state : gmap string Value)
    (userOverrides : gset string) :
  changedValues
    (applyImplications
       (changedValues (applyImplications state userOverrides) ∪ state)
       userOverrides) = ∅ /\
  changedValues
    (applyImplications
       (setFields state (changedValues (applyImplications state userOverrides)))
       userOverrides) = ∅.
Proof.
  assert (Hmerged :
    changedValues
      (applyImplications
         (setFields state (changedValues (applyImplications state userOverrides)))
         userOverrides) = ∅).
  { apply (second_call_changes_nothing IMPLICATIONS).
    - apply builtin_conditions_apart.
    - apply builtin_consistent.
    - apply builtin_plain_values. }
  split; [|exact Hmerged].
  rewrite <- setFields_union; [exact Hmerged|].
  intros k v Hk. unfold applyImplications in Hk.
  apply changedValues_sound in Hk as (imp & Hin & _ & Hentry & _).
  apply (builtin_plain_values imp k v Hin Hentry).
Qed.

(** A first call that changes the state, and the second call after it. *)
Lemma applyImplications_example :
  changedValues (applyImplications zTiltState ∅) =
    {[ "printer.awd_enabled" := VBool false;
       "leveling.type" := VStr "quad_gantry_level" ]} /\
  changedValues
    (applyImplications (changedValues (applyImplications zTiltState ∅) ∪ zTiltState) ∅)
  = ∅.
Proof. split; by_decision. Qed.

(** * Further properties *)

(** ** Condition engine *)

Lemma lookupEntry_In {A} (table : list (string * A)) key v :
  lookupEntry table key = Some v -> In v (map snd table).
Proof.
  induction table as [|[k a] table IH]; cbn; [discriminate|].
  destruct (String.eqb k key); [intros [= ->]; auto | auto].
Qed.

Lemma keywordsAt_own key ty :
  keywordsAt key = Some (Own ty) -> In ty [AND; OR; NOT; IN; BOOLEAN].
Proof.
  unfold keywordsAt. destruct (lookupEntry keywords key) as [ty'|] eqn:H.
  - intros [= <-]. apply lookupEntry_In in H. cbn in H. cbn. tauto.
  - destruct (existsb _ _); discriminate.
Qed.

(** The type and the value of a word token, by what [keywords] holds under
    the word. *)
Lemma wordToken_cases id :
  (tok_type (wordToken id) = IDENTIFIER /\ tok_value (wordToken id) = VStr id /\
   keywordsAt id = None /\ keywordsAt (toLowerCase id) = None) \/
  In (tok_type (wordToken id)) [AND; OR; NOT; IN; BOOLEAN; INHERITED].
Proof.
  unfold wordToken.
  destruct (keywordsAt id) as [[ty|]|] eqn:H1.
  - right. apply keywordsAt_own in H1. cbn in H1.
    repeat (destruct H1 as [<-|H1]; [cbn; tauto|]). destruct H1.
  - right. cbn. tauto.
  - destruct (keywordsAt (toLowerCase id)) as [[ty|]|] eqn:H2.
    + right. apply keywordsAt_own in H2. cbn in H2.
      repeat (destruct H2 as [<-|H2]; [cbn; tauto|]). destruct H2.
    + right. cbn. tauto.
    + left. auto.
Qed.

Lemma wordToken_not_eof id : tok_type (wordToken id) <> EOF.
Proof.
  destruct (wordToken_cases id) as [(-> & _)|H]; [discriminate|].
  cbn in H. intros He. rewrite He in H. intuition discriminate.
Qed.

Lemma punctuation_not_eof c t : punctuation c = Some t -> tok_type t <> EOF.
Proof.
  unfold punctuation.
  repeat (destruct (Ascii.eqb c _); [intros [= <-]; cbn; discriminate|]).
  discriminate.
Qed.

Lemma tokenizeFrom_eof fuel s tokens :
  tokenizeFrom fuel s = Some tokens ->
  exists ts, tokens = (ts ++ [eofToken])%list /\
             Forall (fun t => tok_type t <> EOF) ts.
Proof.
  revert s tokens. induction fuel as [|fuel IH]; intros s tokens; [discriminate|].
  assert (Hcons : forall t s', tok_type t <> EOF ->
            cons t <$> tokenizeFrom fuel s' = Some tokens ->
            exists ts, tokens = (ts ++ [eofToken])%list /\
                       Forall (fun t => tok_type t <> EOF) ts).
  { intros t s' Ht H. apply fmap_Some in H as (rest & H & ->).
    apply IH in H as (ts & -> & Hts). exists (t :: ts). split; [reflexivity|].
    constructor; assumption. }
  cbn [tokenizeFrom]. destruct s as [|c rest].
  { intros [= <-]. exists []. split; [reflexivity|constructor]. }
  destruct (isSpace c); [apply IH|].
  destruct (isQuote c); [apply Hcons; cbn; discriminate|].
  destruct (isDigit c || _); [apply Hcons; cbn; discriminate|].
  destruct (find (fun op => startsWith op (String c rest)) operators);
    [apply Hcons; cbn; discriminate|].
  destruct (punctuation c) as [t|] eqn:Hp;
    [apply Hcons; apply (punctuation_not_eof _ _ Hp)|].
  destruct (isIdentStart c); [apply Hcons, wordToken_not_eof|apply IH].
Qed.

(** X1.  The tokenizer comes to a result on every condition, and the token
    list ends with the one EOF token it holds. *)
Theorem tokenize_ends_with_eof (condition : string) :
  exists ts, tokenize condition = Some (ts ++ [eofToken])%list /\
             Forall (fun t => tok_type t <> EOF) ts.
Proof.
  destruct (tokenize_total condition) as [tokens Ht].
  destruct (tokenizeFrom_eof _ _ _ Ht) as (ts & -> & Hts).
  exists ts. split; assumption.
Qed.

(** X2.  [evaluateAnyCondition] is false exactly on a list that is not empty and
    whose conditions are all false; whenever [evaluateConditions] holds, so
    does [evaluateAnyCondition]. *)
Theorem any_condition_false (conditions : list (option string))
    (state : gmap string Value) :
  (evaluateAnyCondition conditions state = false <->
   conditions <> [] /\
   Forall (fun c => evaluateCondition c state = false) conditions) /\
  (evaluateConditions conditions state = true ->
   evaluateAnyCondition conditions state = true).
Proof.
  unfold evaluateAnyCondition, evaluateConditions. split.
  - destruct conditions as [|c cs]; cbn [length Nat.eqb].
    { split; [discriminate|intros [H _]; congruence]. }
    split.
    + intros H. split; [discriminate|].
      apply Forall_forall. intros x Hx.
      destruct (evaluateCondition x state) eqn:Hc; [|reflexivity].
      assert (existsb (fun c => evaluateCondition c state) (c :: cs) = true) as He.
      { apply existsb_exists. exists x. split; [|exact Hc].
        apply list_elem_of_In. exact Hx. }
      congruence.
    + intros [_ H].
      destruct (existsb _ _) eqn:He; [|reflexivity].
      apply existsb_exists in He as (x & Hx & Hc).
      rewrite Forall_forall in H. apply list_elem_of_In in Hx.
      rewrite (H x Hx) in Hc. discriminate Hc.
  - destruct conditions as [|c cs]; cbn; [reflexivity|].
    intros H. apply andb_true_iff in H as [-> _]. reflexivity.
Qed.

(** ** Dependencies of a condition *)

Section Dependencies.
Variables state1 state2 : gmap string Value.

Lemma agreeOn_advance ts : agreeOn state1 state2 ts -> agreeOn state1 state2 (advance ts).
Proof.
  intros H t Hin. apply H. destruct ts as [|x ts]; [destruct Hin|right; exact Hin].
Qed.

Lemma agreeOn_current ts :
  agreeOn state1 state2 ts -> tok_type (current ts) = IDENTIFIER ->
  get state1 (ToString (tok_value (current ts)))
  = get state2 (ToString (tok_value (current ts))).
Proof.
  intros H Hty. destruct ts as [|x ts]; [discriminate Hty|].
  apply H; [left; reflexivity|exact Hty].
Qed.

Lemma same_none {A} : same state1 state2 (@None (A * list Token)) None.
Proof. split; [reflexivity|discriminate]. Qed.

Lemma same_some {A} (v : A) ts :
  agreeOn state1 state2 ts -> same state1 state2 (Some (v, ts)) (Some (v, ts)).
Proof. intros H. split; [reflexivity|]. intros ? ? [= <- <-]. exact H. Qed.

Lemma same_bind {A B} (r1 r2 : option (A * list Token))
    (f1 f2 : A -> list Token -> option (B * list Token)) :
  same state1 state2 r1 r2 ->
  (forall v ts, agreeOn state1 state2 ts -> same state1 state2 (f1 v ts) (f2 v ts)) ->
  same state1 state2
    (match r1 with Some (v, ts) => f1 v ts | None => None end)
    (match r2 with Some (v, ts) => f2 v ts | None => None end).
Proof.
  intros [<- Hag] Hf. destruct r1 as [[v ts]|]; [|apply same_none].
  apply Hf. apply (Hag v ts eq_refl).
Qed.

Lemma same_step n : same_at state1 state2 n -> same_at state1 state2 (S n).
Proof.
  intros (Hor & HorL & Hand & HandL & Hnot & Hcmp & Harr & HarrL & Hprim).
  unfold same_at. repeat apply conj.
  - intros ts Hts. cbn [parseOr].
    apply (same_bind _ _ (parseOrLoop state1 n) (parseOrLoop state2 n)); auto.
  - intros lhs ts Hts. cbn [parseOrLoop].
    destruct (isType OR (current ts)); [|apply same_some; exact Hts].
    apply (same_bind _ _ (fun rhs ts1 => parseOrLoop state1 n (jsOr lhs rhs) ts1)
                         (fun rhs ts1 => parseOrLoop state2 n (jsOr lhs rhs) ts1)).
    + apply Hand, agreeOn_advance, Hts.
    + intros; apply HorL; assumption.
  - intros ts Hts. cbn [parseAnd].
    apply (same_bind _ _ (parseAndLoop state1 n) (parseAndLoop state2 n)); auto.
  - intros lhs ts Hts. cbn [parseAndLoop].
    destruct (isType AND (current ts)); [|apply same_some; exact Hts].
    apply (same_bind _ _ (fun rhs ts1 => parseAndLoop state1 n (jsAnd lhs rhs) ts1)
                         (fun rhs ts1 => parseAndLoop state2 n (jsAnd lhs rhs) ts1)).
    + apply Hnot, agreeOn_advance, Hts.
    + intros; apply HandL; assumption.
  - intros ts Hts. cbn [parseNot].
    destruct (isType NOT (current ts)); [|apply Hcmp, Hts].
    apply (same_bind _ _ (fun v ts1 => Some (jsNot v, ts1))
                         (fun v ts1 => Some (jsNot v, ts1))).
    + apply Hnot, agreeOn_advance, Hts.
    + intros; apply same_some; assumption.
  - intros ts Hts. cbn [parseComparison].
    destruct (Hprim ts Hts) as [<- Hag].
    destruct (parsePrimary state1 n ts) as [[lhs ts1]|]; [|apply same_none].
    specialize (Hag _ _ eq_refl).
    destruct (isType IN (current ts1)).
    { apply (same_bind _ _
               (fun rhs ts2 => Some (Scal (VBool (arrayIncludes rhs lhs)), ts2))
               (fun rhs ts2 => Some (Scal (VBool (arrayIncludes rhs lhs)), ts2))).
      - apply Harr, agreeOn_advance, Hag.
      - intros; apply same_some; assumption. }
    destruct (isType NOT (current ts1) && isType IN (peek 1 ts1)).
    { apply (same_bind _ _
               (fun rhs ts2 => Some (Scal (VBool (negb (arrayIncludes rhs lhs))), ts2))
               (fun rhs ts2 => Some (Scal (VBool (negb (arrayIncludes rhs lhs))), ts2))).
      - apply Harr, agreeOn_advance, agreeOn_advance, Hag.
      - intros; apply same_some; assumption. }
    destruct (isType OPERATOR (current ts1)); [|apply same_some; exact Hag].
    apply (same_bind _ _
             (fun rhs ts2 => Some (applyOperator (tok_value (current ts1)) lhs rhs, ts2))
             (fun rhs ts2 => Some (applyOperator (tok_value (current ts1)) lhs rhs, ts2))).
    + apply Hprim, agreeOn_advance, Hag.
    + intros; apply same_some; assumption.
  - intros ts Hts. cbn [parseArray].
    destruct (negb (isType LBRACKET (current ts))); [apply same_some; exact Hts|].
    apply HarrL, agreeOn_advance, Hts.
  - intros items ts Hts. cbn [parseArrayLoop].
    destruct (isType RBRACKET (current ts)); [apply same_some, agreeOn_advance, Hts|].
    destruct (isType EOF (current ts)); [apply same_some, Hts|].
    apply (same_bind _ _
             (fun item ts1 => parseArrayLoop state1 n (items ++ [item])%list
                (if isType COMMA (current ts1) then advance ts1 else ts1))
             (fun item ts1 => parseArrayLoop state2 n (items ++ [item])%list
                (if isType COMMA (current ts1) then advance ts1 else ts1))).
    + apply Hprim, Hts.
    + intros item ts1 H1. apply HarrL.
      destruct (isType COMMA (current ts1)); [apply agreeOn_advance|]; exact H1.
  - intros ts Hts. cbn [parsePrimary].
    destruct (tok_type (current ts)) eqn:Hty;
      try (apply same_some, agreeOn_advance, Hts).
    + rewrite (agreeOn_current ts Hts Hty). apply same_some, agreeOn_advance, Hts.
    + apply (same_bind _ _
               (fun result ts1 =>
                  Some (result, if isType RPAREN (current ts1) then advance ts1 else ts1))
               (fun result ts1 =>
                  Some (result, if isType RPAREN (current ts1) then advance ts1 else ts1))).
      * apply Hor, agreeOn_advance, Hts.
      * intros result ts1 H1. apply same_some.
        destruct (isType RPAREN (current ts1)); [apply agreeOn_advance|]; exact H1.
    + apply (same_bind _ _ (fun items ts1 => Some (Arr items, ts1))
                           (fun items ts1 => Some (Arr items, ts1))).
      * apply Harr, Hts.
      * intros; apply same_some; assumption.
Qed.

Lemma same_all n : same_at state1 state2 n.
Proof.
  induction n as [|n IH]; [|apply same_step, IH].
  unfold same_at. repeat apply conj; intros; apply same_none.
Qed.

Lemma parse_agree tokens :
  agreeOn state1 state2 tokens -> parse state1 tokens = parse state2 tokens.
Proof.
  intros H. unfold parse.
  destruct (same_all (5 * length tokens + 6)) as (Hor & _).
  destruct (Hor tokens H) as [<- _]. reflexivity.
Qed.

End Dependencies.

Lemma wordToken_identifier id :
  tok_type (wordToken id) = IDENTIFIER -> tok_value (wordToken id) = VStr id.
Proof.
  destruct (wordToken_cases id) as [(_ & Hv & _)|H]; [intros _; exact Hv|].
  cbn in H. intros He. rewrite He in H. intuition discriminate.
Qed.

Lemma punctuation_identifier c t : punctuation c = Some t -> tok_type t <> IDENTIFIER.
Proof.
  unfold punctuation.
  repeat (destruct (Ascii.eqb c _); [intros [= <-]; cbn; discriminate|]).
  discriminate.
Qed.

(** The IDENTIFIER tokens of the tokenizer hold strings, and these are the
    names that [identifierNames] lists. *)
Lemma tokenizeFrom_identifiers fuel s tokens t :
  tokenizeFrom fuel s = Some tokens -> In t tokens -> tok_type t = IDENTIFIER ->
  In (ToString (tok_value t)) (identifierNames tokens).
Proof.
  revert s tokens. induction fuel as [|fuel IH]; intros s tokens; [discriminate|].
  assert (Hcons : forall t' s',
            (tok_type t' = IDENTIFIER -> exists name, tok_value t' = VStr name) ->
            cons t' <$> tokenizeFrom fuel s' = Some tokens ->
            In t tokens -> tok_type t = IDENTIFIER ->
            In (ToString (tok_value t)) (identifierNames tokens)).
  { intros t' s' Ht' H Hin Hty. apply fmap_Some in H as (rest & H & ->).
    unfold identifierNames. cbn [omap list_omap].
    destruct Hin as [->|Hin].
    - destruct (Ht' Hty) as [name Hname]. rewrite Hty, Hname. left. reflexivity.
    - specialize (IH _ _ H Hin Hty).
      destruct (match tok_type t' with IDENTIFIER => _ | _ => _ end);
        [right|]; exact IH. }
  cbn [tokenizeFrom]. destruct s as [|c rest].
  { intros [= <-] [<-|[]]. discriminate. }
  destruct (isSpace c); [apply IH|].
  destruct (isQuote c); [apply Hcons; cbn; discriminate|].
  destruct (isDigit c || _); [apply Hcons; cbn; discriminate|].
  destruct (find (fun op => startsWith op (String c rest)) operators);
    [apply Hcons; cbn; discriminate|].
  destruct (punctuation c) as [p|] eqn:Hp.
  { apply Hcons. intros Hty. destruct (punctuation_identifier _ _ Hp Hty). }
  destruct (isIdentStart c); [|apply IH].
  apply Hcons. intros Hty. eexists. apply wordToken_identifier, Hty.
Qed.

Lemma In_uniqueFrom seen l x :
  In x (uniqueFrom seen l) <-> In x l /\ ~ In x seen.
Proof.
  revert seen. induction l as [|y l IH]; intros seen; cbn [uniqueFrom].
  { split; [intros []|intros [[] _]]. }
  destruct (existsb (String.eqb y) seen) eqn:He.
  - rewrite IH. apply existsb_exists in He as (z & Hz & Hy).
    apply String.eqb_eq in Hy. subst z.
    split; [intros [H1 H2]; split; [right|]; assumption|].
    intros [[->|H1] H2]; [contradiction|split; assumption].
  - assert (~ In y seen) as Hy.
    { intros Hin. assert (existsb (String.eqb y) seen = true) as Ht.
      { apply existsb_exists. exists y. split; [exact Hin|apply String.eqb_refl]. }
      congruence. }
    cbn [In]. rewrite IH. cbn [In]. split.
    + intros [->|[H1 H2]]; [split; [left; reflexivity|exact Hy]|].
      split; [right; exact H1|]. intros H3. apply H2. right. exact H3.
    + intros [[->|H1] H2]; [left; reflexivity|].
      destruct (string_dec y x) as [->|Hne]; [left; reflexivity|].
      right. split; [exact H1|]. intros [H3|H3]; [congruence|contradiction].
Qed.

Lemma NoDup_uniqueFrom seen l : List.NoDup (uniqueFrom seen l).
Proof.
  revert seen. induction l as [|y l IH]; intros seen; cbn [uniqueFrom]; [constructor|].
  destruct (existsb (String.eqb y) seen); [apply IH|].
  constructor; [|apply IH]. rewrite In_uniqueFrom. intros [_ H]. apply H. left. reflexivity.
Qed.

(** A condition evaluates alike in two states that agree on its
    dependencies. *)
Lemma evaluateCondition_depends (condition : string) (state1 state2 : gmap string Value) :
  (forall key, In key (getConditionDependencies (Some condition)) ->
               get state1 key = get state2 key) ->
  evaluateCondition (Some condition) state1 = evaluateCondition (Some condition) state2.
Proof.
  intros Hagree. unfold evaluateCondition.
  destruct (String.eqb condition EmptyString) eqn:He; [reflexivity|].
  cbn [orb]. destruct (String.eqb (trim condition) EmptyString); [reflexivity|].
  destruct (tokenize condition) as [tokens|] eqn:Ht; [|reflexivity].
  rewrite (parse_agree state1 state2 tokens); [reflexivity|].
  intros t Hin Hty. apply Hagree.
  unfold getConditionDependencies. rewrite He, Ht. cbn [default].
  apply In_uniqueFrom. split; [|intros []].
  apply (tokenizeFrom_identifiers _ _ _ _ Ht Hin Hty).
Qed.

(** X3.  The value of a condition depends on the state through the keys of
    [getConditionDependencies] only, and the list holds no key twice. *)
Theorem dependencies_determine_condition (condition : string)
    (state1 state2 : gmap string Value) :
  (forall key, In key (getConditionDependencies (Some condition)) ->
               get state1 key = get state2 key) ->
  List.NoDup (getConditionDependencies (Some condition)) /\
  evaluateCondition (Some condition) state1 = evaluateCondition (Some condition) state2.
Proof.
  intros Hagree. split; [|apply evaluateCondition_depends, Hagree].
  unfold getConditionDependencies.
  destruct (String.eqb condition EmptyString); [constructor|apply NoDup_uniqueFrom].
Qed.

Lemma dependencies_determine_condition_witness :
  List.NoDup (getConditionDependencies (Some "a and b == a")) /\
  evaluateCondition (Some "a and b == a") {[ "a" := num 1; "b" := num 1; "c" := num 2 ]}
  = evaluateCondition (Some "a and b == a") {[ "a" := num 1; "b" := num 1 ]}.
Proof.
  apply (dependencies_determine_condition "a and b == a").
  intros key Hin. vm_compute in Hin.
  destruct Hin as [<-|[<-|[]]]; reflexivity.
Defined.

(** ** Conflicts *)

(** [detectConflicts] keeps the rules that fire, in the order of the
    table. *)
Lemma detectConflictsWith_filter rules state :
  detectConflictsWith rules state =
  map (fun rule => mkConflict rule (buildContext state (cr_relatedFields rule)))
      (List.filter (fun rule => evaluateCondition (Some (cr_condition rule)) state) rules).
Proof.
  unfold detectConflictsWith.
  enough (Hgen : forall acc,
             fold_left (fun conflicts rule =>
               if evaluateCondition (Some (cr_condition rule)) state
               then (conflicts ++
                     [mkConflict rule (buildContext state (cr_relatedFields rule))])%list
               else conflicts) rules acc =
             (acc ++ map (fun rule =>
                            mkConflict rule (buildContext state (cr_relatedFields rule)))
                         (List.filter
                            (fun rule => evaluateCondition (Some (cr_condition rule)) state)
                            rules))%list).
  { apply Hgen. }
  induction rules as [|r rules IH]; intros acc; cbn [fold_left List.filter map].
  { symmetry. apply app_nil_r. }
  rewrite IH. destruct (evaluateCondition _ state); [|reflexivity].
  cbn [map]. rewrite <- app_assoc. reflexivity.
Qed.

Lemma buildContext_lookup state fields key :
  buildContext state (Some fields) !! key =
  if existsb (String.eqb key) fields then Some (get state key) else None.
Proof.
  unfold buildContext.
  enough (Hgen : forall context : gmap string Value,
             fold_left (fun context field => <[field := get state field]> context)
                       fields context !! key =
             if existsb (String.eqb key) fields then Some (get state key)
             else context !! key).
  { rewrite Hgen, lookup_empty. reflexivity. }
  induction fields as [|f fields IH]; intros context; cbn [fold_left existsb]; [reflexivity|].
  rewrite IH. destruct (existsb (String.eqb key) fields);
    [rewrite orb_true_r; reflexivity|].
  rewrite orb_false_r. destruct (String.eqb key f) eqn:He.
  - apply String.eqb_eq in He. subst f. apply lookup_insert_eq.
  - apply String.eqb_neq in He. apply lookup_insert_ne. congruence.
Qed.

(** X4.  The detected conflicts are those of the rules that fire, each once
    and in the order of the table, and the context of a conflict is the
    state read at the related fields of its rule: a related field that the
    state lacks is recorded as [undefined], no other key is recorded. *)
Theorem detectConflicts_snapshot (state : gmap string Value) :
  map conflict_rule (detectConflicts state) =
    List.filter (fun rule => evaluateCondition (Some (cr_condition rule)) state)
                CONFLICT_RULES /\
  forall c key, In c (detectConflicts state) ->
    conflict_context c !! key =
    if relatesTo key c then Some (get state key) else None.
Proof.
  unfold detectConflicts. rewrite detectConflictsWith_filter. split.
  - rewrite map_map. cbn [conflict_rule]. apply map_id.
  - intros c key Hin. apply in_map_iff in Hin as (rule & <- & _).
    unfold relatesTo. cbn [conflict_rule conflict_context].
    destruct (cr_relatedFields rule) as [fields|]; [apply buildContext_lookup|].
    apply lookup_empty.
Qed.

Lemma severity_partition (conflicts : list Conflict) :
  length conflicts =
  length (List.filter (hasSeverity SevError) conflicts) +
  length (List.filter (hasSeverity SevWarning) conflicts) +
  length (List.filter (hasSeverity SevInfo) conflicts).
Proof.
  induction conflicts as [|c conflicts IH]; [reflexivity|].
  cbn [List.filter].
  assert (He : hasSeverity SevError c = bool_decide (cr_severity (conflict_rule c) = SevError))
    by reflexivity.
  assert (Hw : hasSeverity SevWarning c
               = bool_decide (cr_severity (conflict_rule c) = SevWarning)) by reflexivity.
  assert (Hi : hasSeverity SevInfo c = bool_decide (cr_severity (conflict_rule c) = SevInfo))
    by reflexivity.
  rewrite He, Hw, Hi.
  destruct (cr_severity (conflict_rule c));
    repeat match goal with
           | |- context [bool_decide (?a = ?b)] =>
               first [ rewrite (bool_decide_eq_true_2 (a = b)) by reflexivity
                     | rewrite (bool_decide_eq_false_2 (a = b)) by discriminate ]
           end;
    cbn [length]; lia.
Qed.

Lemma existsb_filter_length {A} (f : A -> bool) (l : list A) :
  existsb f l = true <-> 0 < length (List.filter f l).
Proof.
  induction l as [|x l IH]; cbn; [split; [discriminate|lia]|].
  destruct (f x); cbn; [split; [lia|reflexivity]|exact IH].
Qed.

(** X5.  The counts of [getConflictSummary] add up: every conflict is an
    error, a warning or an info; and [hasErrors] and [hasWarnings] hold
    exactly when the matching count is positive. *)
Theorem conflict_summary_adds_up (state : gmap string Value) :
  cs_total (getConflictSummary state) =
    cs_errors (getConflictSummary state) + cs_warnings (getConflictSummary state) +
    cs_info (getConflictSummary state) /\
  (hasErrors state = true <-> 0 < cs_errors (getConflictSummary state)) /\
  (hasWarnings state = true <-> 0 < cs_warnings (getConflictSummary state)).
Proof.
  unfold getConflictSummary, hasErrors, hasWarnings.
  cbn [cs_total cs_errors cs_warnings cs_info].
  split; [apply severity_partition|].
  split; apply existsb_filter_length.
Qed.

(** The conditions of the built-in rules read related fields only. *)
Lemma builtin_rules_read_related rule key :
  In rule CONFLICT_RULES ->
  In key (getConditionDependencies (Some (cr_condition rule))) ->
  In key (default [] (cr_relatedFields rule)).
Proof.
  intros Hin. revert key. unfold CONFLICT_RULES in Hin.
  repeat (destruct Hin as [<-|Hin];
          [intros key Hkey; vm_compute in Hkey; cbn [cr_relatedFields default];
           repeat (destruct Hkey as [<-|Hkey]; [cbn; tauto|]); destruct Hkey|]).
  destruct Hin.
Qed.

(** X6.  The context of a conflict holds everything its rule looked at:
    two states whose contexts for a built-in rule are equal make the rule
    fire alike. *)
Theorem context_determines_conflict (rule : ConflictRule)
    (state1 state2 : gmap string Value) :
  In rule CONFLICT_RULES ->
  buildContext state1 (cr_relatedFields rule) = buildContext state2 (cr_relatedFields rule) ->
  evaluateCondition (Some (cr_condition rule)) state1 =
  evaluateCondition (Some (cr_condition rule)) state2.
Proof.
  intros Hin Hctx. apply evaluateCondition_depends. intros key Hkey.
  pose proof (builtin_rules_read_related rule key Hin Hkey) as Hrel.
  destruct (cr_relatedFields rule) as [fields|]; [|destruct Hrel].
  cbn [default] in Hrel.
  assert (buildContext state1 (Some fields) !! key = buildContext state2 (Some fields) !! key)
    as Hk by (rewrite Hctx; reflexivity).
  rewrite !buildContext_lookup in Hk.
  assert (existsb (String.eqb key) fields = true) as Hyes.
  { apply existsb_exists. exists key. split; [exact Hrel|apply String.eqb_refl]. }
  rewrite Hyes in Hk. congruence.
Qed.

Lemma context_determines_conflict_witness :
  evaluateCondition (Some "heater_bed.max_temp > 120")
    {[ "heater_bed.max_temp" := num 130; "printer.kinematics" := VStr "corexy" ]} =
  evaluateCondition (Some "heater_bed.max_temp > 120")
    {[ "heater_bed.max_temp" := num 130 ]}.
Proof.
  apply (context_determines_conflict
           (mkConflictRule "high_bed_temp_warning" "Bed max temperature is set very high"
              "heater_bed.max_temp > 120" SevWarning Heating (Some ["heater_bed.max_temp"]))).
  - unfold CONFLICT_RULES. do 10 right. left. reflexivity.
  - by_decision.
Defined.

(** ** The quick check *)

Lemma hasErrors_rule state rule :
  In rule CONFLICT_RULES -> cr_severity rule = SevError ->
  evaluateCondition (Some (cr_condition rule)) state = true ->
  hasErrors state = true.
Proof.
  intros Hin Hsev Hfire. unfold hasErrors, detectConflicts.
  rewrite detectConflictsWith_filter. apply existsb_exists.
  exists (mkConflict rule (buildContext state (cr_relatedFields rule))). split.
  - apply (in_map (fun rule =>
                     mkConflict rule (buildContext state (cr_relatedFields rule)))).
    apply filter_In. split; assumption.
  - unfold hasSeverity. cbn. rewrite Hsev. reflexivity.
Qed.

Lemma hasErrors_unfold state :
  hasErrors state = existsb (hasSeverity SevError) (detectConflicts state).
Proof. reflexivity. Qed.

Lemma isValidForGeneration_unfold state :
  isValidForGeneration state =
  if negb (ToBoolean (get state "printer.kinematics")) ||
     negb (ToBoolean (get state "mcu.main.board_type"))
  then false
  else if hasErrors state then false else true.
Proof. unfold isValidForGeneration. rewrite <- hasErrors_unfold. reflexivity. Qed.

Lemma no_kinematics_error state :
  ToBoolean (get state "printer.kinematics") = false -> hasErrors state = true.
Proof.
  intros Hk.
  apply (hasErrors_rule state
           (mkConflictRule "no_kinematics_selected" "No kinematics type selected"
              "not printer.kinematics" SevError General (Some ["printer.kinematics"])));
    [|reflexivity|].
  - unfold CONFLICT_RULES. do 13 right. left. reflexivity.
  - cbn [cr_condition]. eval_condition. with_strategy opaque [get ToBoolean] lazy.
    rewrite Hk. reflexivity.
Qed.

Lemma no_mainboard_error state :
  ToBoolean (get state "mcu.main.board_type") = false -> hasErrors state = true.
Proof.
  intros Hb.
  apply (hasErrors_rule state
           (mkConflictRule "no_mainboard_selected" "No mainboard selected"
              "not mcu.main.board_type" SevError Hardware (Some ["mcu.main.board_type"])));
    [|reflexivity|].
  - unfold CONFLICT_RULES. do 14 right. left. reflexivity.
  - cbn [cr_condition]. eval_condition. with_strategy opaque [get ToBoolean] lazy.
    rewrite Hb. reflexivity.
Qed.

(** X7.  The first test of [isValidForGeneration] adds nothing: a state
    without kinematics or without a mainboard has an error conflict, so the
    quick check holds exactly when no error conflict is detected. *)
Theorem quick_check_is_no_error_conflict (state : gmap string Value) :
  isValidForGeneration state = negb (hasErrors state).
Proof.
  rewrite isValidForGeneration_unfold.
  destruct (ToBoolean (get state "printer.kinematics")) eqn:Hk; cbn [negb orb].
  - destruct (ToBoolean (get state "mcu.main.board_type")) eqn:Hb; cbn [negb].
    + destruct (hasErrors state); reflexivity.
    + rewrite (no_mainboard_error state Hb). reflexivity.
  - rewrite (no_kinematics_error state Hk). reflexivity.
Qed.

(** ** The validation report *)

Lemma collectField_counts state defs errors warnings missing invalid :
  match fold_left (collectField state) defs (errors, warnings, missing, invalid) with
  | (errors', warnings', missing', invalid') =>
      length errors' + length missing + length invalid
      = length errors + length missing' + length invalid' /\
      warnings' = warnings
  end.
Proof.
  revert errors warnings missing invalid.
  induction defs as [|def defs IH]; intros errors warnings missing invalid;
    cbn [fold_left]; [split; [lia|reflexivity]|].
  unfold collectField at 2.
  destruct (validateField def state) as [result|] eqn:Hres; [|apply IH].
  destruct (validateField_field _ _ _ Hres) as [_ ->].
  destruct (mentionsRequired result).
  - specialize (IH (errors ++ [result])%list warnings (missing ++ [fd_key def])%list invalid).
    destruct (fold_left _ _ _) as [[[e w] m] i]. rewrite !length_app in IH.
    cbn [length] in IH. destruct IH as [IH ->]. split; [lia|reflexivity].
  - specialize (IH (errors ++ [result])%list warnings missing (invalid ++ [result])%list).
    destruct (fold_left _ _ _) as [[[e w] m] i]. rewrite !length_app in IH.
    cbn [length] in IH. destruct IH as [IH ->]. split; [lia|reflexivity].
Qed.

Lemma collectConflict_counts conflicts errors warnings :
  length (fold_left collectConflict conflicts (errors, warnings)).1
  = length errors + length (List.filter (hasSeverity SevError) conflicts) /\
  length (fold_left collectConflict conflicts (errors, warnings)).2
  = length warnings + length (List.filter (hasSeverity SevWarning) conflicts).
Proof.
  revert errors warnings.
  induction conflicts as [|c conflicts IH]; intros errors warnings;
    cbn [fold_left List.filter]; [cbn; lia|].
  assert (He : hasSeverity SevError c = bool_decide (cr_severity (conflict_rule c) = SevError))
    by reflexivity.
  assert (Hw : hasSeverity SevWarning c
               = bool_decide (cr_severity (conflict_rule c) = SevWarning)) by reflexivity.
  rewrite He, Hw. unfold collectConflict at 2 4.
  destruct (cr_severity (conflict_rule c));
    repeat match goal with
           | |- context [bool_decide (?a = ?b)] =>
               first [ rewrite (bool_decide_eq_true_2 (a = b)) by reflexivity
                     | rewrite (bool_decide_eq_false_2 (a = b)) by discriminate ]
           end.
  - destruct (IH (errors ++ [mkFieldValidation (conflictField (conflict_rule c)) false
                               (Some (cr_message (conflict_rule c))) Error])%list warnings)
      as [-> ->].
    rewrite length_app. cbn [length]. lia.
  - destruct (IH errors
                (warnings ++ [mkFieldValidation (conflictField (conflict_rule c)) true
                                (Some (cr_message (conflict_rule c))) Warning])%list)
      as [-> ->].
    rewrite length_app. cbn [length]. lia.
  - apply IH.
Qed.

Lemma validateStateWith_counts defs groups rules state :
  let r := validateStateWith defs groups rules state in
  length (vr_errors r)
  = length (vr_missingRequired r) + length (vr_invalidValues r) +
    length (List.filter (hasSeverity SevError) (detectConflictsWith rules state)) /\
  length (vr_warnings r)
  = length (List.filter (hasSeverity SevWarning) (detectConflictsWith rules state)) /\
  vr_conflicts r = detectConflictsWith rules state /\
  vr_valid r = bool_decide (length (vr_errors r) = 0).
Proof.
  unfold validateStateWith.
  pose proof (collectField_counts state defs [] [] [] []) as Hf.
  destruct (fold_left (collectField state) defs ([], [], [], []))
    as [[[errors warnings] missing] invalid].
  destruct Hf as [Hf ->]. cbn [length] in Hf.
  pose proof (collectConflict_counts (detectConflictsWith rules state)
                (errors ++ validateExclusiveGroupsWith groups state)%list []) as Hc.
  destruct (fold_left collectConflict _ _) as [errors' warnings'].
  cbn [fst snd] in Hc. destruct Hc as [He Hw].
  cbn [vr_errors vr_warnings vr_conflicts vr_missingRequired vr_invalidValues vr_valid].
  rewrite He, Hw, !length_app, length_map. cbn [length].
  repeat split; lia.
Qed.

(** X8.  The counts of a validation report add up: every error is a missing
    required field, an invalid value or an error conflict; the warnings are
    the warning conflicts, no field rule gives a warning; and the report is
    valid exactly when it holds no error. *)
Theorem validation_counts_add_up (state : gmap string Value) :
  length (vr_errors (validateState state))
  = length (vr_missingRequired (validateState state)) +
    length (vr_invalidValues (validateState state)) +
    cs_errors (getConflictSummary state) /\
  length (vr_warnings (validateState state)) = cs_warnings (getConflictSummary state) /\
  vr_conflicts (validateState state) = detectConflicts state /\
  (vr_valid (validateState state) = true <-> vr_errors (validateState state) = []).
Proof.
  rewrite validateState_unfold.
  destruct (validateStateWith_counts FIELD_DEFINITIONS EXCLUSIVE_GROUPS CONFLICT_RULES state)
    as (He & Hw & Hc & Hv).
  unfold getConflictSummary, detectConflicts. cbn [cs_errors cs_warnings].
  repeat split; try assumption.
  - rewrite Hv. intros H. apply bool_decide_eq_true_1 in H.
    apply length_zero_iff_nil. exact H.
  - rewrite Hv. intros ->. reflexivity.
Qed.

Lemma canGenerate_valid defs groups rules state :
  canGenerate (getValidationSummaryWith defs groups rules state)
  = vr_valid (validateStateWith defs groups rules state).
Proof. reflexivity. Qed.

Lemma getValidationSummary_unfold state :
  getValidationSummary state =
  getValidationSummaryWith FIELD_DEFINITIONS EXCLUSIVE_GROUPS CONFLICT_RULES state.
Proof. reflexivity. Qed.

Lemma hasErrors_length state :
  hasErrors state = true <->
  0 < length (List.filter (hasSeverity SevError) (detectConflictsWith CONFLICT_RULES state)).
Proof. apply existsb_filter_length. Qed.

(** X9.  A state that the validator accepts passes the quick check of the
    generator: [canGenerate] implies [isValidForGeneration]. *)
Theorem valid_state_passes_quick_check (state : gmap string Value) :
  canGenerate (getValidationSummary state) = true ->
  isValidForGeneration state = true.
Proof.
  rewrite getValidationSummary_unfold, canGenerate_valid.
  destruct (validateStateWith_counts FIELD_DEFINITIONS EXCLUSIVE_GROUPS CONFLICT_RULES state)
    as (He & _ & _ & Hv).
  rewrite Hv. intros H. apply bool_decide_eq_true_1 in H.
  rewrite isValidForGeneration_unfold.
  destruct (hasErrors state) eqn:Herr.
  { apply hasErrors_length in Herr. lia. }
  destruct (ToBoolean (get state "printer.kinematics")) eqn:Hk; cbn [negb orb].
  - destruct (ToBoolean (get state "mcu.main.board_type")) eqn:Hb; [reflexivity|].
    rewrite (no_mainboard_error state Hb) in Herr. discriminate Herr.
  - rewrite (no_kinematics_error state Hk) in Herr. discriminate Herr.
Qed.

Lemma valid_state_passes_quick_check_witness :
  canGenerate (getValidationSummary validState) = true /\
  isValidForGeneration validState = true.
Proof.
  assert (H : canGenerate (getValidationSummary validState) = true)
    by (vm_compute; reflexivity).
  split; [exact H|]. apply (valid_state_passes_quick_check validState H).
Defined.

(** The converse fails: a state with kinematics and mainboard only passes
    the quick check, while the validator misses the motor ports. *)
Lemma quick_check_is_weaker :
  isValidForGeneration
    {[ "printer.kinematics" := VStr "corexy"; "mcu.main.board_type" := VStr "octopus" ]}
  = true /\
  canGenerate (getValidationSummary
    {[ "printer.kinematics" := VStr "corexy"; "mcu.main.board_type" := VStr "octopus" ]})
  = false.
Proof. vm_compute. auto. Qed.

Lemma MathRound_bounds q : Qle 0 q -> Qle q (inject_Z 100) -> (0 <= MathRound q <= 100)%Z.
Proof.
  intros H0 H100. unfold MathRound. split.
  - change 0%Z with (Qfloor (1 # 2)). apply Qfloor_resp_le.
    rewrite <- (Qplus_0_l (1 # 2)) at 1. apply Qplus_le_compat; [exact H0|apply Qle_refl].
  - change 100%Z with (Qfloor (inject_Z 100 + (1 # 2))). apply Qfloor_resp_le.
    apply Qplus_le_compat; [exact H100|apply Qle_refl].
Qed.

(** X10.  Over every table of field rules and in every state the completion
    percentage lies between 0 and 100. *)
Theorem completion_percent_bounds (defs : list FieldDefinition)
    (groups : list ExclusiveGroup) (rules : list ConflictRule) (state : gmap string Value) :
  (0 <= completionPercent (getValidationSummaryWith defs groups rules state) <= 100)%Z.
Proof.
  unfold getValidationSummaryWith. cbn [completionPercent].
  set (required := List.filter fd_required defs).
  set (filled := List.filter (fun f => negb (isEmpty (get state (fd_key f)))) required).
  assert (Hle : length filled <= length required) by apply filter_length_le.
  destruct (0 <? length required) eqn:Hpos; [|lia].
  apply Nat.ltb_lt in Hpos. apply MathRound_bounds.
  - apply Qmult_le_0_compat; [|discriminate].
    apply Qle_shift_div_l; [unfold Qlt; cbn; lia|].
    rewrite Qmult_0_l. unfold Qle. cbn. lia.
  - rewrite <- (Qmult_1_l (inject_Z 100)) at 2.
    apply Qmult_le_compat_r; [|discriminate].
    apply Qle_shift_div_r; [unfold Qlt; cbn; lia|].
    rewrite Qmult_1_l. rewrite <- Zle_Qle. lia.
Qed.

(** ** Exclusive groups: selecting and reading back *)

Lemma deleteMarks_None keys k : ~ In k keys -> deleteMarks keys !! k = None.
Proof.
  intros H. unfold deleteMarks. apply not_elem_of_list_to_map_1.
  rewrite <- list_fmap_compose. intros Hin. apply H.
  apply list_elem_of_In. apply list_elem_of_fmap in Hin as (x & -> & Hx). exact Hx.
Qed.

Lemma selectOption_stateKey group optionValue chosen :
  findOption group optionValue = Some chosen ->
  ~ In (grp_stateKey group) (map fst (impliedOf chosen)) ->
  ~ In (grp_stateKey group) (default [] (opt_clearValues chosen)) ->
  selectOption group optionValue !! grp_stateKey group = Some (VStr optionValue).
Proof.
  intros Hfind Himplied Hclear. rewrite (selectOption_unfold _ _ _ Hfind).
  rewrite lookup_union, (deleteMarks_None _ _ Hclear), (left_id_L None (∪)).
  apply lookup_union_Some_l, lookup_union_Some_raw. right. split.
  - apply not_elem_of_list_to_map_1. rewrite fmap_reverse, elem_of_reverse.
    rewrite list_elem_of_In. exact Himplied.
  - apply lookup_singleton_eq.
Qed.

Lemma strictEq_VStr a v : strictEq (VStr a) v = true <-> v = VStr a.
Proof.
  destruct v; cbn; try (split; [discriminate|congruence]).
  rewrite String.eqb_eq. split; congruence.
Qed.

(** X11.  Selecting and reading back: when the diff of [selectOption] is
    merged into a state, [getSelectedOption] answers the chosen option,
    provided the option value is not the empty string (which the merge
    deletes) and the option neither implies nor clears the group's own
    key. *)
Theorem selected_option_round_trip (group : ExclusiveGroup) (optionValue : string)
    (chosen : ExclusiveOption) (state : gmap string Value) :
  findOption group optionValue = Some chosen ->
  optionValue <> EmptyString ->
  ~ In (grp_stateKey group) (map fst (impliedOf chosen)) ->
  ~ In (grp_stateKey group) (default [] (opt_clearValues chosen)) ->
  getSelectedOption group (setFields state (selectOption group optionValue)) = Some chosen.
Proof.
  intros Hfind Hvalue Himplied Hclear.
  unfold getSelectedOption, get. rewrite setFields_lookup.
  rewrite (selectOption_stateKey _ _ _ Hfind Himplied Hclear).
  cbn [isEmptyValue]. apply String.eqb_neq in Hvalue. rewrite Hvalue. cbn [default].
  exact Hfind.
Qed.

Lemma selected_option_round_trip_witness :
  getSelectedOption retractionGroup
    (setFields {[ "x" := num 1 ]} (selectOption retractionGroup "B"))
  = Some (plainOption "B" "B").
Proof.
  apply (selected_option_round_trip retractionGroup "B" (plainOption "B" "B")).
  - reflexivity.
  - discriminate.
  - cbn. tauto.
  - cbn. tauto.
Defined.

(** The options of the built-in groups meet the conditions of the round
    trip. *)
Lemma builtin_options_round_trip group chosen :
  In group EXCLUSIVE_GROUPS -> In chosen (grp_options group) ->
  opt_value chosen <> EmptyString /\
  ~ In (grp_stateKey group) (map fst (impliedOf chosen)) /\
  ~ In (grp_stateKey group) (default [] (opt_clearValues chosen)).
Proof.
  intros Hg. unfold EXCLUSIVE_GROUPS in Hg.
  repeat (destruct Hg as [<-|Hg];
          [intros Ho; cbn in Ho;
           repeat (destruct Ho as [<-|Ho];
                   [cbn; repeat split; first [discriminate | intuition discriminate]|]);
           destruct Ho|]).
  destruct Hg.
Qed.

(** X12.  Selecting an option retracts what the other options implied: in
    the merged state a key that another option implies, and that is neither
    the group's own key nor implied by the chosen option, is absent. *)
Theorem selecting_retracts_other_options (group : ExclusiveGroup) (optionValue : string)
    (chosen other : ExclusiveOption) (key : string) (state : gmap string Value) :
  findOption group optionValue = Some chosen ->
  In other (grp_options group) ->
  opt_value other <> optionValue ->
  In key (map fst (impliedOf other)) ->
  key <> grp_stateKey group ->
  ~ In key (map fst (impliedOf chosen)) ->
  setFields state (selectOption group optionValue) !! key = None.
Proof.
  intros Hfind Hother Hvalue Hkey Htarget Hfresh.
  rewrite setFields_lookup.
  rewrite (selectOption_retracts _ _ _ _ _ Hfind Hother Hvalue Hkey Htarget Hfresh).
  reflexivity.
Qed.

Lemma selecting_retracts_other_options_witness :
  setFields {[ "choice" := VStr "A"; "x" := num 1 ]} (selectOption retractionGroup "B") !! "x"
  = None.
Proof.
  apply (selecting_retracts_other_options retractionGroup "B" (plainOption "B" "B")
           (mkOption "A" "A" (Some [("x", num 1)]) None None)).
  - reflexivity.
  - left. reflexivity.
  - discriminate.
  - left. reflexivity.
  - discriminate.
  - cbn. tauto.
Defined.

(** X13.  Every built-in group always offers a choice: whatever the state
    and the evaluator, the list of available options is not empty. *)
Theorem builtin_groups_offer_a_choice (group : ExclusiveGroup) (state : gmap string Value)
    (evaluate : string -> gmap string Value -> bool) :
  In group EXCLUSIVE_GROUPS -> getAvailableOptions group state evaluate <> [].
Proof.
  intros Hg. unfold EXCLUSIVE_GROUPS in Hg.
  repeat (destruct Hg as [<-|Hg]; [cbn; discriminate|]).
  destruct Hg.
Qed.

Lemma builtin_groups_offer_a_choice_witness :
  getAvailableOptions
    (mkGroup "mcu_connection" "MCU Connection" "mcu.main.connection_type"
       [ plainOption "usb" "USB Serial"; plainOption "can" "CAN Bus" ] None false)
    ∅ (fun _ _ => false) <> [].
Proof.
  apply builtin_groups_offer_a_choice. unfold EXCLUSIVE_GROUPS. do 7 right. left. reflexivity.
Defined.

(** ** Exclusive groups and conflicts *)

Lemma getFieldConflicts_nil state field :
  (forall rule, In rule CONFLICT_RULES ->
     existsb (String.eqb field) (default [] (cr_relatedFields rule)) = true ->
     evaluateCondition (Some (cr_condition rule)) state = false) ->
  getFieldConflicts state field = [].
Proof.
  unfold getFieldConflicts, detectConflicts. rewrite detectConflictsWith_filter.
  generalize CONFLICT_RULES as rules.
  induction rules as [|r rules IH]; intros H; [reflexivity|].
  cbn [List.filter].
  destruct (evaluateCondition (Some (cr_condition r)) state) eqn:Hfire.
  - cbn [map List.filter]. unfold relatesTo at 1. cbn [conflict_rule].
    destruct (cr_relatedFields r) as [fields|] eqn:Hf.
    + destruct (existsb (String.eqb field) fields) eqn:Hrel.
      * rewrite (H r) in Hfire; [discriminate Hfire|left; reflexivity|].
        rewrite Hf. exact Hrel.
      * apply IH. intros rule Hin. apply H. right. exact Hin.
    + apply IH. intros rule Hin. apply H. right. exact Hin.
  - apply IH. intros rule Hin. apply H. right. exact Hin.
Qed.

Ltac symbolic_in H :=
  erewrite evaluateCondition_tokens in H by (vm_compute; reflexivity);
  unfold parse in H;
  with_strategy opaque [get strictEq ToBoolean jsLt arrayIncludes] lazy in H.

Ltac symbolic :=
  eval_condition;
  with_strategy opaque [get strictEq ToBoolean jsLt arrayIncludes] lazy.

Ltac settle :=
  repeat match goal with
         | |- context [jsLt ?a ?b] => destruct (jsLt a b) as [[|]|]
         | |- context [arrayIncludes ?a ?b] => destruct (arrayIncludes a b)
         | |- context [strictEq (get ?s ?k) ?b] => destruct (strictEq (get s k) b)
         end;
  cbn; congruence.

(** With the chosen option known and available, no rule on the group's key
    fires. *)
Ltac no_conflict Havail :=
  apply getFieldConflicts_nil;
  let rule := fresh "rule" in
  let Hin := fresh "Hin" in
  let Hrel := fresh "Hrel" in
  intros rule Hin Hrel; unfold CONFLICT_RULES in Hin;
  repeat (destruct Hin as [<-|Hin];
          [vm_compute in Hrel; try discriminate Hrel;
           cbn [cr_condition]; symbolic;
           repeat match goal with
                  | E : get _ _ = VStr _ |- _ => rewrite E
                  end;
           revert Havail; settle|]);
  destruct Hin.

Ltac selected Hsel Havail :=
  unfold getSelectedOption in Hsel; cbn -[get strictEq] in Hsel;
  repeat match type of Hsel with
         | context [strictEq (VStr ?a) ?v] =>
             let E := fresh "E" in
             destruct (strictEq (VStr a) v) eqn:E;
             [apply strictEq_VStr in E; injection Hsel as <-;
              apply filter_In in Havail as [_ Havail];
              cbn -[evaluateCondition] in Havail;
              try symbolic_in Havail;
              cbn [grp_stateKey];
              no_conflict Havail
             |clear E]
         end;
  discriminate Hsel.

(** X14.  An available choice raises no conflict: in a built-in group whose
    options carry conditions (the leveling type and the endstop types), when
    the selected option is among the available ones, no detected conflict
    relates to the group's key. *)
Theorem available_selection_has_no_conflict (group : ExclusiveGroup)
    (option : ExclusiveOption) (state : gmap string Value) :
  In group EXCLUSIVE_GROUPS ->
  hasConditionalOption group = true ->
  getSelectedOption group state = Some option ->
  In option (getAvailableOptions group state
               (fun c st => evaluateCondition (Some c) st)) ->
  getFieldConflicts state (grp_stateKey group) = [].
Proof.
  intros Hg Hcond Hsel Havail. unfold EXCLUSIVE_GROUPS in Hg.
  destruct Hg as [<-|Hg]; [discriminate Hcond|].
  destruct Hg as [<-|Hg]; [discriminate Hcond|].
  destruct Hg as [<-|Hg]; [selected Hsel Havail|].
  destruct Hg as [<-|Hg]; [selected Hsel Havail|].
  destruct Hg as [<-|Hg]; [selected Hsel Havail|].
  destruct Hg as [<-|Hg]; [selected Hsel Havail|].
  destruct Hg as [<-|Hg]; [discriminate Hcond|].
  destruct Hg as [<-|Hg]; [discriminate Hcond|].
  destruct Hg.
Qed.

Lemma available_selection_has_no_conflict_witness :
  getFieldConflicts
    {[ "leveling.type" := VStr "z_tilt"; "z_config.motor_count" := num 2 ]}
    "leveling.type" = [].
Proof.
  apply (available_selection_has_no_conflict
           (mkGroup "leveling_type" "Leveling Type" "leveling.type"
              [ plainOption "none" "None";
                mkOption "bed_mesh" "Bed Mesh Only" None None
                  (Some ("probe.probe_type != " ++ dquote ++ "none" ++ dquote));
                mkOption "z_tilt" "Z Tilt Adjust" None None
                  (Some "z_config.motor_count >= 2 and z_config.motor_count <= 3");
                mkOption "quad_gantry_level" "Quad Gantry Level" None None
                  (Some "z_config.motor_count == 4") ]
              None false)
           (mkOption "z_tilt" "Z Tilt Adjust" None None
              (Some "z_config.motor_count >= 2 and z_config.motor_count <= 3"))).
  - unfold EXCLUSIVE_GROUPS. do 2 right. left. reflexivity.
  - reflexivity.
  - vm_compute. reflexivity.
  - vm_compute. tauto.
Defined.

(** ** Implications: what a diff holds *)

(** An invariant of the two loops of [applyImplications]: it holds of the
    empty result and every step on an entry of a rule that fires keeps
    it. *)
Lemma applyImplications_invariant (P : ImplicationResult -> Prop)
    (rules : list Implication) (state : gmap string Value) (ov : gset string) :
  P (mkImplicationResult ∅ [] []) ->
  (forall imp result entry,
     In imp rules -> fires state imp = true -> In entry (imp_setValues imp) ->
     P result -> P (applyEntry imp state ov result entry)) ->
  P (applyImplicationsWith rules state ov).
Proof.
  intros Hinit Hstep. unfold applyImplicationsWith.
  assert (Hin : forall imp, In imp (sortByPriority rules) -> In imp rules).
  { intros imp. apply (proj1 (In_sortByPriority rules imp)). }
  revert Hin. generalize (sortByPriority rules) as sorted.
  generalize (mkImplicationResult ∅ [] []) as result, Hinit.
  intros result Hres sorted. revert result Hres.
  induction sorted as [|imp sorted IH]; intros result Hres Hin; cbn [fold_left]; [exact Hres|].
  apply IH; [|intros x Hx; apply Hin; right; exact Hx].
  unfold applyImplication. fold (fires state imp).
  destruct (fires state imp) eqn:Hfire; cbn [negb]; [|exact Hres].
  assert (Hentries : forall entry, In entry (imp_setValues imp) ->
                                   In entry (imp_setValues imp)) by auto.
  revert Hentries. generalize (imp_setValues imp) at 1 3 as entries.
  intros entries. revert result Hres.
  induction entries as [|entry entries IHe]; intros result Hres Hentries; cbn [fold_left];
    [exact Hres|].
  apply IHe; [|intros x Hx; apply Hentries; right; exact Hx].
  apply Hstep; [apply Hin; left; reflexivity|exact Hfire| |exact Hres].
  apply Hentries. left. reflexivity.
Qed.

(** X15.  Over the built-in rules the diff is exactly what the active rules
    ask for: a key is given a value if and only if a rule that fires sets
    the key to that value, the rule is not held back by a user override,
    and the state does not hold the value already.  Priorities and the
    order of the table have no part in it. *)
Theorem builtin_diff_characterised (state : gmap string Value) (userOverrides : gset string)
    (key : string) (value : Value) :
  changedValues (applyImplications state userOverrides) !! key = Some value <->
  exists imp, In imp (getActiveImplications state) /\
    In (key, value) (imp_setValues imp) /\
    heldBack imp userOverrides key = false /\
    strictEq (get state key) value = false.
Proof.
  unfold applyImplications, getActiveImplications. split.
  - intros H. apply changedValues_sound in H as (imp & Hin & Hfire & Hset & Hheld & Hneq).
    exists imp. split; [apply filter_In; split; assumption|]. auto.
  - intros (imp & Hin & Hset & Hheld & Hneq).
    apply filter_In in Hin as [Hin Hfire].
    destruct (changedValues_complete IMPLICATIONS state userOverrides imp key value
                Hin Hfire Hset Hheld Hneq) as [value' Hv].
    rewrite Hv. f_equal.
    apply changedValues_sound in Hv as (imp' & Hin' & Hfire' & Hset' & _).
    apply (builtin_consistent state imp' imp key value' value); assumption.
Qed.

(** X16.  The diff is empty exactly when no implication was applied, and
    every id in [appliedImplications] is the id of an active
    implication. *)
Theorem applied_implications_are_active (state : gmap string Value)
    (userOverrides : gset string) :
  (changedValues (applyImplications state userOverrides) = ∅ <->
   appliedImplications (applyImplications state userOverrides) = []) /\
  forall id, In id (appliedImplications (applyImplications state userOverrides)) ->
    exists imp, In imp (getActiveImplications state) /\ imp_id imp = id.
Proof.
  unfold applyImplications.
  apply (applyImplications_invariant
           (fun result =>
              (changedValues result = ∅ <-> appliedImplications result = []) /\
              forall id, In id (appliedImplications result) ->
                exists imp, In imp (getActiveImplications state) /\ imp_id imp = id)).
  - cbn [changedValues appliedImplications]. split; [tauto|intros id []].
  - intros imp result [k v] Hin Hfire _ [Hiff Hids]. unfold applyEntry.
    destruct (imp_allowOverride imp && _);
      [cbn [changedValues appliedImplications]; split; assumption|].
    destruct (strictEq (get state k) v); [split; assumption|].
    cbn [changedValues appliedImplications]. split.
    + split.
      * intros H. exfalso. apply (insert_non_empty (changedValues result) k v H).
      * intros H. destruct (appliedImplications result); discriminate H.
    + intros id Hid. apply in_app_iff in Hid as [Hid|[<-|[]]]; [auto|].
      exists imp. split; [|reflexivity].
      unfold getActiveImplications. apply filter_In. split; assumption.
Qed.

Lemma setsField_In field imp :
  setsField field imp = true <-> exists value, In (field, value) (imp_setValues imp).
Proof.
  unfold setsField. rewrite existsb_exists. split.
  - intros (k & Hin & He). apply String.eqb_eq in He. subst k.
    apply in_map_iff in Hin as ([k v] & <- & Hin). exists v. exact Hin.
  - intros (v & Hin). exists field. split; [|apply String.eqb_refl].
    apply in_map_iff. exists (field, v). split; [reflexivity|exact Hin].
Qed.

(** X17.  A changed field is a controlled field: for every key of the diff
    [getImplicationForField] finds an implication, that implication is
    active, and it sets the key to the value of the diff. *)
Theorem changed_field_has_implication (state : gmap string Value)
    (userOverrides : gset string) (key : string) (value : Value) :
  changedValues (applyImplications state userOverrides) !! key = Some value ->
  exists imp, getImplicationForField key state = Some imp /\
    In imp (getActiveImplications state) /\
    In (key, value) (imp_setValues imp).
Proof.
  unfold applyImplications. intros H.
  apply changedValues_sound in H as (imp0 & Hin0 & Hfire0 & Hset0 & _).
  unfold getImplicationForField.
  destruct (find _ IMPLICATIONS) as [imp|] eqn:Hfind.
  - apply find_some in Hfind as [Hin Hp]. apply andb_true_iff in Hp as [Hsets Hfire].
    exists imp. split; [reflexivity|]. split.
    + unfold getActiveImplications. apply filter_In. split; assumption.
    + apply setsField_In in Hsets as [value' Hset].
      rewrite <- (builtin_consistent state imp imp0 key value' value); assumption.
  - exfalso. pose proof (find_none _ _ Hfind imp0 Hin0) as Hno. cbn beta in Hno.
    apply andb_false_iff in Hno as [Hno|Hno].
    + assert (setsField key imp0 = true) as Hyes by (apply setsField_In; eauto).
      congruence.
    + unfold fires in Hfire0. congruence.
Qed.

Lemma changed_field_has_implication_witness :
  exists imp,
    getImplicationForField "leveling.type" {[ "z_config.motor_count" := num 4 ]} = Some imp /\
    In imp (getActiveImplications {[ "z_config.motor_count" := num 4 ]}) /\
    In ("leveling.type", VStr "quad_gantry_level") (imp_setValues imp).
Proof.
  apply (changed_field_has_implication {[ "z_config.motor_count" := num 4 ]} ∅).
  by_decision.
Defined.

Lemma applyEntry_skipped_mono imp state ov result entry e :
  In e (skippedImplications result) ->
  In e (skippedImplications (applyEntry imp state ov result entry)).
Proof.
  destruct entry as [k v]. unfold applyEntry.
  destruct (_ && _); [cbn [skippedImplications]; intros H; apply in_app_iff; auto|].
  destruct (strictEq _ _); auto.
Qed.

Lemma applyEntries_skipped_mono imp state ov entries result e :
  In e (skippedImplications result) ->
  In e (skippedImplications (fold_left (applyEntry imp state ov) entries result)).
Proof.
  revert result. induction entries as [|entry entries IH]; intros result H;
    cbn [fold_left]; [exact H|].
  apply IH, applyEntry_skipped_mono, H.
Qed.

Lemma applyImplication_skipped_mono state ov result imp e :
  In e (skippedImplications result) ->
  In e (skippedImplications (applyImplication state ov result imp)).
Proof.
  unfold applyImplication. destruct (negb _); [auto|]. apply applyEntries_skipped_mono.
Qed.

Lemma applyImplication_skips state ov result imp k :
  fires state imp = true ->
  In k (setKeys imp) ->
  heldBack imp ov k = true ->
  In (imp_id imp ++ ":" ++ k)%string
     (skippedImplications (applyImplication state ov result imp)).
Proof.
  unfold applyImplication, fires, heldBack, setKeys. intros -> Hin Hheld. cbn [negb].
  revert result Hin. induction (imp_setValues imp) as [|[k' v'] entries IH];
    intros result Hin; [destruct Hin|].
  cbn [fold_left]. destruct Hin as [Hk|Hin]; [|apply IH, Hin].
  cbn [fst] in Hk. subst k'.
  apply applyEntries_skipped_mono. unfold applyEntry. rewrite Hheld.
  cbn [skippedImplications]. apply in_app_iff. right. left. reflexivity.
Qed.

(** X18.  For every rule table, state and set of user overrides: a key that
    the user has overridden is left alone when every rule that fires and
    sets it allows overriding; and [skippedImplications] holds exactly the
    entries [id:key] of the rules that fire and are held back on a key they
    set. *)
Theorem overridden_key_is_left_alone (rules : list Implication)
    (state : gmap string Value) (userOverrides : gset string) :
  (forall key, key ∈ userOverrides ->
     (forall imp, In imp rules -> fires state imp = true -> In key (setKeys imp) ->
        imp_allowOverride imp = true) ->
     changedValues (applyImplicationsWith rules state userOverrides) !! key = None) /\
  (forall entry,
     In entry (skippedImplications (applyImplicationsWith rules state userOverrides)) <->
     exists imp k, In imp rules /\ fires state imp = true /\ In k (setKeys imp) /\
       heldBack imp userOverrides k = true /\ entry = (imp_id imp ++ ":" ++ k)%string).
Proof.
  split.
  - intros key Hov Hallow.
    destruct (changedValues _ !! key) as [v|] eqn:Hv; [|reflexivity].
    apply changedValues_sound in Hv as (imp & Hin & Hfire & Hset & Hheld & _).
    assert (Hkey : In key (setKeys imp))
      by (apply in_map_iff; exists (key, v); split; [reflexivity|exact Hset]).
    unfold heldBack in Hheld.
    rewrite (Hallow imp Hin Hfire Hkey), bool_decide_eq_true_2 in Hheld by exact Hov.
    discriminate Hheld.
  - intros entry. split.
    + revert entry.
      apply (applyImplications_invariant
               (fun result => forall entry, In entry (skippedImplications result) ->
                  exists imp k, In imp rules /\ fires state imp = true /\
                    In k (setKeys imp) /\ heldBack imp userOverrides k = true /\
                    entry = (imp_id imp ++ ":" ++ k)%string)).
      * intros entry [].
      * intros imp result [k v] Hin Hfire Hentry IH. unfold applyEntry.
        destruct (imp_allowOverride imp && bool_decide (k ∈ userOverrides)) eqn:Hheld.
        -- cbn [skippedImplications]. intros entry He.
           apply in_app_iff in He as [He|[<-|[]]]; [auto|].
           exists imp, k. repeat split; try assumption.
           apply in_map_iff. exists (k, v). split; [reflexivity|exact Hentry].
        -- destruct (strictEq (get state k) v); [exact IH|]. exact IH.
    + intros (imp & k & Hin & Hfire & Hkey & Hheld & ->).
      unfold applyImplicationsWith.
      apply (proj2 (In_sortByPriority _ _)) in Hin.
      apply in_split in Hin as (pre & post & ->).
      rewrite fold_left_app. cbn [fold_left].
      generalize (fold_left (applyImplication state userOverrides) pre
                    (mkImplicationResult ∅ [] [])).
      intros result.
      pose proof (applyImplication_skips state userOverrides result imp k Hfire Hkey Hheld)
        as Hstart.
      revert Hstart. generalize (applyImplication state userOverrides result imp).
      induction post as [|r post IH]; intros acc Hacc; cbn [fold_left]; [exact Hacc|].
      apply IH, applyImplication_skipped_mono, Hacc.
Qed.

(** With no override nothing is skipped; a rule that does not allow
    overriding changes the key that the user has set. *)
Lemma override_examples :
  skippedImplications (applyImplicationsWith [specificRule true] ∅ ∅) = [] /\
  skippedImplications (applyImplicationsWith [specificRule true] ∅ {[ "k" ]}) = ["specific:k"] /\
  changedValues (applyImplicationsWith [specificRule true] ∅ {[ "k" ]}) !! "k" = None /\
  is_Some (changedValues (applyImplicationsWith [specificRule false] ∅ {[ "k" ]}) !! "k").
Proof. vm_compute. repeat split; eauto. Qed.

(** ** Inheritance: how the queries relate *)

(** X19.  [applyInheritance] is [getInheritedValues] cut down to the keys
    that the child lacks: on a key that the state holds it has no entry, on
    any other key the two maps agree. *)
Theorem applyInheritance_is_restriction (stepperName : string) (state : gmap string Value)
    (evaluate : string -> gmap string Value -> bool) (key : string) :
  applyInheritance stepperName state evaluate !! key =
  if strictEq (get state key) VUndefined
  then getInheritedValues stepperName state evaluate !! key
  else None.
Proof.
  unfold applyInheritance, getInheritedValues.
  destruct (getInheritanceRelation stepperName) as [relation|];
    [|rewrite lookup_empty; destruct (strictEq _ _); reflexivity].
  destruct (conditionFails relation state evaluate);
    [rewrite lookup_empty; destruct (strictEq _ _); reflexivity|].
  generalize (rel_fields relation) as fields.
  enough (Hgen : forall fields (changes inherited : gmap string Value),
            changes !! key = (if strictEq (get state key) VUndefined
                              then inherited !! key else None) ->
            fold_left (fun changes field =>
                         let childKey := fieldKey stepperName field in
                         let parentKey := fieldKey (rel_parent relation) field in
                         let childValue := get state childKey in
                         let parentValue := get state parentKey in
                         if strictEq childValue VUndefined &&
                            negb (strictEq parentValue VUndefined)
                         then <[childKey := parentValue]> changes
                         else changes) fields changes !! key =
            if strictEq (get state key) VUndefined
            then fold_left (fun inherited field =>
                              let parentValue :=
                                get state (fieldKey (rel_parent relation) field) in
                              if negb (strictEq parentValue VUndefined)
                              then <[fieldKey stepperName field := parentValue]> inherited
                              else inherited) fields inherited !! key
            else None).
  { intros fields. apply Hgen. rewrite !lookup_empty.
    destruct (strictEq _ _); reflexivity. }
  induction fields as [|field fields IH]; intros changes inherited Hinv; cbn [fold_left];
    [exact Hinv|].
  apply IH. cbn zeta.
  destruct (negb (strictEq (get state (fieldKey (rel_parent relation) field)) VUndefined));
    [|rewrite andb_false_r; exact Hinv].
  rewrite andb_true_r.
  destruct (decide (fieldKey stepperName field = key)) as [<-|Hne].
  - destruct (strictEq (get state (fieldKey stepperName field)) VUndefined).
    + rewrite !lookup_insert_eq. reflexivity.
    + exact Hinv.
  - rewrite (lookup_insert_ne inherited) by exact Hne.
    destruct (strictEq (get state (fieldKey stepperName field)) VUndefined);
      [rewrite lookup_insert_ne by exact Hne|]; exact Hinv.
Qed.

Lemma builtin_relation_fields stepperName relation :
  getInheritanceRelation stepperName = Some relation ->
  In relation INHERITANCE_RELATIONS /\ rel_child relation = stepperName /\
  rel_fields relation = COPYABLE_STEPPER_FIELDS.
Proof.
  intros H. apply find_some in H as [Hin Hchild]. apply String.eqb_eq in Hchild.
  split; [exact Hin|]. split; [exact Hchild|].
  unfold INHERITANCE_RELATIONS in Hin.
  repeat (destruct Hin as [<-|Hin]; [reflexivity|]). destruct Hin.
Qed.

(** X20.  Copying by hand and inheriting agree: for a stepper that inherits,
    [copyStepperSettings] from its parent with nothing skipped gives the
    map of [getInheritedValues]. *)
Theorem copy_from_parent_is_inherited (stepperName : string)
    (relation : InheritanceRelation) (state : gmap string Value)
    (evaluate : string -> gmap string Value -> bool) :
  getInheritanceRelation stepperName = Some relation ->
  shouldInherit stepperName state evaluate = true ->
  copyStepperSettings (rel_parent relation) stepperName state []
  = getInheritedValues stepperName state evaluate.
Proof.
  intros Hrel Hshould. unfold shouldInherit, getInheritedValues in *.
  rewrite Hrel in *. apply negb_true_iff in Hshould. rewrite Hshould.
  destruct (builtin_relation_fields _ _ Hrel) as (_ & _ & ->). reflexivity.
Qed.

Lemma copy_from_parent_is_inherited_witness :
  copyStepperSettings "stepper_x" "stepper_y" {[ "stepper_x.microsteps" := num 32 ]} []
  = getInheritedValues "stepper_y" {[ "stepper_x.microsteps" := num 32 ]}
      (fun c st => evaluateCondition (Some c) st).
Proof.
  apply (copy_from_parent_is_inherited "stepper_y"
           (mkRelation "stepper_y" "stepper_x" COPYABLE_STEPPER_FIELDS None
              "Y stepper uses same settings as X (common for CoreXY)")); reflexivity.
Defined.

(** X21.  When a stepper inherits, [hasCustomValues] holds exactly when
    [getCustomFields] lists a field; when it does not inherit, nothing is
    inherited and no field is listed, yet [hasCustomValues] holds. *)
Theorem custom_values_and_fields (stepperName : string) (state : gmap string Value)
    (evaluate : string -> gmap string Value -> bool) :
  if shouldInherit stepperName state evaluate
  then hasCustomValues stepperName state evaluate = true <->
       getCustomFields stepperName state evaluate <> []
  else hasCustomValues stepperName state evaluate = true /\
       getCustomFields stepperName state evaluate = [] /\
       getInheritedValues stepperName state evaluate = ∅ /\
       applyInheritance stepperName state evaluate = ∅.
Proof.
  unfold shouldInherit, hasCustomValues, getCustomFields, getInheritedValues,
    applyInheritance.
  destruct (getInheritanceRelation stepperName) as [relation|]; [|auto].
  destruct (conditionFails relation state evaluate); cbn [negb]; [auto|].
  generalize (rel_fields relation) as fields.
  induction fields as [|field fields IH]; cbn [existsb List.filter].
  - split; [discriminate|congruence].
  - destruct (differsFromParent stepperName relation state field); cbn [orb].
    + split; [discriminate|reflexivity].
    + exact IH.
Qed.

(** ** Inheritance: applying twice *)








(** Without the condition on the state the second call does change the
    store, also after a new render: an empty string of the parent is
    proposed again and again. *)
Lemma applyStepperInheritance_empty_parent :
  let s := mkStore {[ "stepper_x.driver_type" := VStr EmptyString ]} [] (-1) None in
  let s1 := applyStepperInheritance (ws_state s) "stepper_y" s in
  ws_history s1 = [ws_state s] /\
  ws_history (applyStepperInheritance (ws_state s1) "stepper_y" s1)
  = [ws_state s; ws_state s].
Proof. split; by_decision. Qed.

(** Without a new render the second call pushes the history once more: the
    callback still sees the state of its render, in which the child lacks
    the values. *)
Lemma applyStepperInheritance_stale :
  let s := mkStore {[ "stepper_x.microsteps" := num 32 ]} [] (-1) None in
  let s1 := applyStepperInheritance (ws_state s) "stepper_y" s in
  ws_history s1 = [ws_state s] /\
  ws_history (applyStepperInheritance (ws_state s1) "stepper_y" s1) = [ws_state s] /\
  ws_history (applyStepperInheritance (ws_state s) "stepper_y" s1)
  = [ws_state s; ws_state s1].
Proof. repeat apply conj; by_decision. Qed.

(** ** The store *)

Lemma cleanState_lookup (state : gmap string Value) (k : string) :
  cleanState state !! k =
  match state !! k with
  | Some v => if isEmptyValue v then None else Some v
  | None => None
  end.
Proof.
  unfold cleanState.
  apply (map_fold_weak_ind
           (fun (acc : gmap string Value) (m : gmap string Value) =>
              acc !! k = match m !! k with
                         | Some v => if isEmptyValue v then None else Some v
                         | None => None
                         end)).
  - rewrite lookup_empty. reflexivity.
  - intros i x m acc Hfresh IH.
    destruct (decide (i = k)) as [->|Hne].
    + rewrite lookup_insert_eq. rewrite Hfresh in IH.
      destruct (isEmptyValue x); cbn [negb]; [exact IH|apply lookup_insert_eq].
    + rewrite (lookup_insert_ne m) by exact Hne.
      destruct (isEmptyValue x); cbn [negb]; [exact IH|].
      rewrite lookup_insert_ne by exact Hne. exact IH.
Qed.

Lemma noEmptyValues_setFields state fields :
  noEmptyValues state -> noEmptyValues (setFields state fields).
Proof.
  intros H k v. rewrite setFields_lookup.
  destruct (fields !! k) as [w|].
  - destruct (isEmptyValue w) eqn:Hw; [discriminate|]. intros [= <-]. exact Hw.
  - apply H.
Qed.

Lemma noEmptyValues_cleanState state : noEmptyValues (cleanState state).
Proof.
  intros k v. rewrite cleanState_lookup. destruct (state !! k) as [w|]; [|discriminate].
  destruct (isEmptyValue w) eqn:Hw; [discriminate|]. intros [= <-]. exact Hw.
Qed.

Lemma noEmptyValues_empty : noEmptyValues ∅.
Proof. intros k v H. rewrite lookup_empty in H. discriminate H. Qed.

Lemma noEmptyValues_delete state k : noEmptyValues state -> noEmptyValues (delete k state).
Proof.
  intros H k' v Hk. apply lookup_delete_Some in Hk as [_ Hk]. apply (H _ _ Hk).
Qed.

Lemma noEmptyValues_insert state k v :
  isEmptyValue v = false -> noEmptyValues state -> noEmptyValues (<[k := v]> state).
Proof.
  intros Hv H k' v' Hk. apply lookup_insert_Some in Hk as [[_ <-]|[_ Hk]];
    [exact Hv|apply (H _ _ Hk)].
Qed.

Lemma noEmptyValues_entryAt history i :
  Forall noEmptyValues history -> noEmptyValues (entryAt history i).
Proof.
  intros H. unfold entryAt. destruct (i <? 0)%Z; [apply noEmptyValues_empty|].
  destruct (history !! Z.to_nat i) as [x|] eqn:Hx; [|apply noEmptyValues_empty].
  cbn [default]. rewrite Forall_forall in H. apply H.
  apply list_elem_of_lookup. eauto.
Qed.

Lemma Forall_tl {A} (P : A -> Prop) l : Forall P l -> Forall P (tl l).
Proof. intros H. destruct H; [constructor|assumption]. Qed.

Lemma length_tl {A} (l : list A) : length (tl l) = length l - 1.
Proof. destruct l; cbn; lia. Qed.

Lemma wellFormed_pushHistory s : wellFormed s -> wellFormed (Store.pushHistory s).
Proof.
  intros (Hstate & Hhist & Hlen & Hidx). unfold Store.pushHistory.
  set (new := (sliceTo (ws_history s) (ws_historyIndex s + 1) ++ [ws_state s])%list).
  assert (Hnew : Forall noEmptyValues new).
  { apply Forall_app. split; [|constructor; [exact Hstate|constructor]].
    unfold sliceTo. destruct (_ <? 0)%Z; apply Forall_take; exact Hhist. }
  assert (Hsize : 1 <= length new <= 21).
  { unfold new. rewrite length_app. cbn [length]. unfold sliceTo.
    destruct (_ <? 0)%Z; rewrite length_firstn; lia. }
  unfold wellFormed. cbn [ws_state ws_history ws_historyIndex].
  destruct (20 <? length new) eqn:Hbig.
  - apply Nat.ltb_lt in Hbig. rewrite length_tl.
    split; [exact Hstate|]. split; [apply Forall_tl, Hnew|]. lia.
  - apply Nat.ltb_ge in Hbig. split; [exact Hstate|]. split; [exact Hnew|]. lia.
Qed.

Lemma wellFormed_withState s newState :
  wellFormed s -> noEmptyValues newState -> wellFormed (Store.withState s newState).
Proof.
  intros Hs Hnew. destruct (wellFormed_pushHistory s Hs) as (_ & Hhist & Hlen & Hidx).
  unfold Store.withState. split; [exact Hnew|]. split; [exact Hhist|]. split; assumption.
Qed.

Lemma wellFormed_perform s action : wellFormed s -> wellFormed (perform s action).
Proof.
  intros Hs. destruct action as [key value|fields|key|panel|newState| | | |]; cbn [perform].
  - apply (wellFormed_withState _ _ Hs). destruct Hs as (Hstate & _).
    destruct (isEmptyValue value) eqn:Hv;
      [apply noEmptyValues_delete|apply noEmptyValues_insert]; assumption.
  - apply (wellFormed_withState _ _ Hs), noEmptyValues_setFields, Hs.
  - apply (wellFormed_withState _ _ Hs), noEmptyValues_delete, Hs.
  - exact Hs.
  - apply (wellFormed_withState _ _ Hs), noEmptyValues_cleanState.
  - destruct (wellFormed_pushHistory s Hs) as (_ & Hhist & Hlen & Hidx).
    unfold Store.resetState. split; [apply noEmptyValues_empty|].
    split; [exact Hhist|]. split; assumption.
  - apply wellFormed_pushHistory, Hs.
  - destruct Hs as (Hstate & Hhist & Hlen & Hidx). unfold Store.undo.
    destruct (0 <? ws_historyIndex s)%Z eqn:Hpos; [|repeat split; assumption || lia].
    apply Z.ltb_lt in Hpos. unfold wellFormed. cbn [ws_state ws_history ws_historyIndex].
    split; [apply noEmptyValues_entryAt, Hhist|]. split; [exact Hhist|]. lia.
  - destruct Hs as (Hstate & Hhist & Hlen & Hidx). unfold Store.redo.
    destruct (ws_historyIndex s <? _)%Z eqn:Hpos; [|repeat split; assumption || lia].
    apply Z.ltb_lt in Hpos. unfold wellFormed. cbn [ws_state ws_history ws_historyIndex].
    split; [apply noEmptyValues_entryAt, Hhist|]. split; [exact Hhist|]. lia.
Qed.

Lemma wellFormed_initial : wellFormed Store.initial.
Proof.
  unfold wellFormed, Store.initial. cbn [ws_state ws_history ws_historyIndex length].
  split; [apply noEmptyValues_empty|]. split; [constructor|]. lia.
Qed.


(** X24.  Merging composes: two merges in a row leave the state of one
    merge of the second diff laid over the first; [setField] is the merge
    of a single entry, [deleteField] the merge of an [undefined] entry; and
    [getFieldValue] reads back what [setField] wrote, or the default after
    an empty value. *)
Theorem store_merges_compose (s : WizardStore) (fields1 fields2 : gmap string Value)
    (key : string) (value defaultValue : Value) :
  ws_state (Store.setFields fields2 (Store.setFields fields1 s))
    = ws_state (Store.setFields (fields2 ∪ fields1) s) /\
  ws_state (Store.setField key value s) = ws_state (Store.setFields {[ key := value ]} s) /\
  ws_state (Store.deleteField key s) = ws_state (Store.setField key VUndefined s) /\
  Store.getFieldValue key defaultValue (Store.setField key value s)
    = if isEmptyValue value then defaultValue else value.
Proof.
  cbn [Store.setFields Store.setField Store.deleteField Store.withState ws_state].
  split; [|split; [|split]].
  - apply map_eq. intros k. rewrite !setFields_lookup, lookup_union.
    destruct (fields2 !! k) as [v2|], (fields1 !! k) as [v1|]; reflexivity.
  - apply map_eq. intros k. rewrite setFields_lookup.
    destruct (decide (key = k)) as [->|Hne].
    + rewrite lookup_singleton_eq.
      destruct (isEmptyValue value); [apply lookup_delete_eq|apply lookup_insert_eq].
    + rewrite lookup_singleton_ne by exact Hne.
      destruct (isEmptyValue value);
        [apply lookup_delete_ne|apply lookup_insert_ne]; exact Hne.
  - reflexivity.
  - unfold Store.getFieldValue, get. cbn [Store.setField Store.withState ws_state].
    destruct (isEmptyValue value) eqn:Hv.
    + rewrite lookup_delete_eq. reflexivity.
    + rewrite lookup_insert_eq. cbn [default].
      destruct value as [| |b|n|str]; try discriminate Hv; reflexivity.
Qed.

(** After a push the history ends with the state, and before it stands the
    entry the index pointed to. *)
Lemma pushHistory_shape s :
  wellFormed s -> (0 <= ws_historyIndex s)%Z ->
  exists before,
    ws_history (Store.pushHistory s) = (before ++ [ws_state s])%list /\
    ws_historyIndex (Store.pushHistory s) = Z.of_nat (length before) /\
    0 < length before /\
    before !! (length before - 1) = ws_history s !! Z.to_nat (ws_historyIndex s).
Proof.
  intros (_ & _ & Hlen & Hidx) Hpos. unfold Store.pushHistory.
  cbn [ws_history ws_historyIndex]. unfold sliceTo.
  destruct (ws_historyIndex s + 1 <? 0)%Z eqn:Hneg; [apply Z.ltb_lt in Hneg; lia|].
  set (n := Z.to_nat (ws_historyIndex s + 1)).
  assert (Hn : n = S (Z.to_nat (ws_historyIndex s))) by (unfold n; lia).
  assert (Hpre : length (firstn n (ws_history s)) = n) by (rewrite length_firstn; lia).
  assert (Hlast : firstn n (ws_history s) !! (n - 1)
                  = ws_history s !! Z.to_nat (ws_historyIndex s)).
  { rewrite lookup_take_lt by lia. f_equal. lia. }
  destruct (20 <? length (firstn n (ws_history s) ++ [ws_state s])) eqn:Hbig.
  - apply Nat.ltb_lt in Hbig. rewrite length_app, Hpre in Hbig. cbn [length] in Hbig.
    destruct (firstn n (ws_history s)) as [|x pre] eqn:Hfirst; [cbn in Hpre; lia|].
    cbn [app tl]. exists pre. cbn [length] in Hpre.
    rewrite length_app. cbn [length]. split; [reflexivity|]. split; [lia|].
    split; [lia|]. rewrite <- Hlast.
    replace (n - 1) with (S (length pre - 1)) by lia. reflexivity.
  - exists (firstn n (ws_history s)). rewrite length_app, Hpre. cbn [length].
    split; [reflexivity|]. split; [lia|]. split; [lia|exact Hlast].
Qed.

Lemma undo_at state history index panel :
  (0 < index)%Z ->
  Store.undo (mkStore state history index panel)
  = mkStore (entryAt history (index - 1)) history (index - 1) panel.
Proof.
  intros H. unfold Store.undo. cbn [ws_state ws_history ws_historyIndex ws_activePanel].
  apply Z.ltb_lt in H. rewrite H. reflexivity.
Qed.

Lemma redo_at state history index panel :
  (index < Z.of_nat (length history) - 1)%Z ->
  Store.redo (mkStore state history index panel)
  = mkStore (entryAt history (index + 1)) history (index + 1) panel.
Proof.
  intros H. unfold Store.redo. cbn [ws_state ws_history ws_historyIndex ws_activePanel].
  apply Z.ltb_lt in H. rewrite H. reflexivity.
Qed.

Lemma entryAt_nat history n : entryAt history (Z.of_nat n) = default ∅ (history !! n).
Proof.
  unfold entryAt. destruct (Z.of_nat n <? 0)%Z eqn:H; [apply Z.ltb_lt in H; lia|].
  rewrite Nat2Z.id. reflexivity.
Qed.

(** X25.  Undo after a change does not return to the state before the
    change but to the history entry the index pointed to, and redo then
    brings back the state before the change: the change itself is lost. *)
Theorem undo_after_change (s : WizardStore) (fields : gmap string Value) :
  wellFormed s -> (0 <= ws_historyIndex s)%Z ->
  ws_state (Store.undo (Store.setFields fields s))
    = entryAt (ws_history s) (ws_historyIndex s) /\
  ws_state (Store.redo (Store.undo (Store.setFields fields s))) = ws_state s.
Proof.
  intros Hs Hpos.
  destruct (pushHistory_shape s Hs Hpos) as (before & Hhist & Hidx & Hlen & Hlast).
  unfold Store.setFields, Store.withState. rewrite Hidx, Hhist.
  rewrite undo_at by lia.
  replace (Z.of_nat (length before) - 1)%Z with (Z.of_nat (length before - 1)) by lia.
  split.
  - cbn [ws_state]. rewrite entryAt_nat, lookup_app_l by lia. rewrite Hlast.
    rewrite <- (Z2Nat.id (ws_historyIndex s)) at 2 by exact Hpos.
    rewrite entryAt_nat. reflexivity.
  - rewrite redo_at by (rewrite length_app; cbn [length]; lia).
    cbn [ws_state].
    replace (Z.of_nat (length before - 1) + 1)%Z with (Z.of_nat (length before)) by lia.
    rewrite entryAt_nat, lookup_app_r by lia.
    rewrite Nat.sub_diag. reflexivity.
Qed.

Lemma undo_after_change_witness :
  ws_state (Store.undo (Store.setFields {[ "b" := num 2 ]}
              (Store.setFields {[ "a" := num 1 ]} Store.initial)))
    = entryAt (ws_history (Store.setFields {[ "a" := num 1 ]} Store.initial))
              (ws_historyIndex (Store.setFields {[ "a" := num 1 ]} Store.initial)) /\
  ws_state (Store.redo (Store.undo (Store.setFields {[ "b" := num 2 ]}
              (Store.setFields {[ "a" := num 1 ]} Store.initial))))
    = ws_state (Store.setFields {[ "a" := num 1 ]} Store.initial).
Proof.
  apply (undo_after_change (Store.setFields {[ "a" := num 1 ]} Store.initial)).
  - apply (wellFormed_perform Store.initial (SetFields {[ "a" := num 1 ]})).
    apply wellFormed_initial.
  - vm_compute. discriminate.
Defined.

(** After two changes in a row one undo goes back by both, and the first
    undo on a fresh store does nothing. *)
Lemma undo_skips_a_state :
  let s1 := Store.setField "a" (num 1) Store.initial in
  let s2 := Store.setField "a" (num 2) s1 in
  Store.undo s1 = s1 /\
  ws_state s2 = {[ "a" := num 2 ]} /\ ws_state (Store.undo s2) = ∅.
Proof. repeat split; by_decision. Qed.

(** ** Conditions that are a bare key *)

Lemma append_empty_r (a : string) : (a ++ EmptyString)%string = a.
Proof.
  induction a as [|x a IH]; [reflexivity|].
  change (String x (a ++ EmptyString)%string = String x a). rewrite IH. reflexivity.
Qed.

Lemma revString_twice s a b : revString (revString s a) b = revString a (s ++ b)%string.
Proof.
  revert a. induction s as [|c r IH]; intros a; [reflexivity|].
  cbn [revString]. rewrite IH. reflexivity.
Qed.

Lemma revString_involutive s : revString (revString s EmptyString) EmptyString = s.
Proof. rewrite revString_twice. cbn [revString]. apply append_empty_r. Qed.

Lemma dropWhile_identChars s :
  allChars isIdentChar s = true -> dropWhile isSpace s = s.
Proof.
  destruct s as [|c r]; [reflexivity|]. cbn [allChars dropWhile].
  intros H. apply andb_true_iff in H as [Hc _].
  destruct (identChar_plain c Hc) as (-> & _). reflexivity.
Qed.

Lemma trim_identChars s : allChars isIdentChar s = true -> trim s = s.
Proof.
  intros H. unfold trim, trimStart, trimEnd. rewrite (dropWhile_identChars s H).
  rewrite dropWhile_identChars; [apply revString_involutive|].
  rewrite allChars_revString, H. reflexivity.
Qed.

Lemma tails_identChars s :
  allChars isIdentChar s = true -> geTail s = None /\ eqTail s = None.
Proof.
  intros H. unfold geTail, eqTail. rewrite (dropWhile_identChars s H).
  destruct s as [|c r]; [split; reflexivity|].
  cbn [allChars] in H. apply andb_true_iff in H as [Hc _].
  destruct (identChar_plain c Hc) as (_ & _ & Hge & Heq & _).
  destruct c as [[] [] [] [] [] [] [] []]; try discriminate Hge; try discriminate Heq;
    split; reflexivity.
Qed.

Lemma lazyPrefix_identChars {A} (tail : string -> option A) pre s :
  (forall r, allChars isIdentChar r = true -> tail r = None) ->
  allChars isIdentChar s = true -> lazyPrefix tail pre s = None.
Proof.
  intros Htail. revert pre. induction s as [|c r IH]; intros pre H; [reflexivity|].
  cbn [lazyPrefix]. cbn [allChars] in H. apply andb_true_iff in H as [Hc Hr].
  destruct (isDot c); [|reflexivity]. rewrite (Htail r Hr). apply IH, Hr.
Qed.

Lemma includes_and_identChars s :
  allChars isIdentChar s = true -> includes " and " s = false.
Proof.
  induction s as [|c r IH]; [reflexivity|]. cbn [allChars includes]. intros H.
  apply andb_true_iff in H as [Hc Hr]. rewrite (IH Hr), orb_false_r.
  destruct (identChar_plain c Hc) as (_ & _ & _ & _ & Hsp).
  unfold startsWith. cbn [String.prefix].
  destruct (ascii_dec " " c) as [<-|_]; [discriminate Hsp|reflexivity].
Qed.

(** X26.  On a condition that is a bare identifier (no word of the
    condition language and, as written and in lower case, no name of a
    member of [Object.prototype]) the two evaluators agree: both answer the
    truthiness of the state's value for the key. *)
Theorem bare_key_evaluators_agree (key : string) (state : gmap string Value) :
  isIdentifier key = true ->
  evaluateCondition (Some key) state = ToBoolean (get state key) /\
  evaluateSimpleCondition key state = ToBoolean (get state key).
Proof.
  intros Hid. split.
  { apply evaluate_identifier, tokenize_identifier, Hid. }
  assert (Hall : allChars isIdentChar key = true /\ key <> EmptyString).
  { unfold isIdentifier in Hid. destruct key as [|c rest]; [discriminate Hid|].
    do 3 (apply andb_true_iff in Hid as [Hid _]).
    apply andb_true_iff in Hid as [_ Hall].
    split; [exact Hall|discriminate]. }
  destruct Hall as [Hall Hne].
  unfold evaluateSimpleCondition. cbn [evaluateSimpleConditionFrom].
  apply String.eqb_neq in Hne. rewrite Hne.
  unfold geMatch, eqMatch.
  rewrite (lazyPrefix_identChars geTail EmptyString key
             (fun r Hr => proj1 (tails_identChars r Hr)) Hall).
  rewrite (lazyPrefix_identChars eqTail EmptyString key
             (fun r Hr => proj2 (tails_identChars r Hr)) Hall).
  rewrite (includes_and_identChars key Hall), (trim_identChars key Hall). reflexivity.
Qed.

Lemma bare_key_evaluators_agree_witness :
  evaluateCondition (Some "stepper_x.motor_port") {[ "stepper_x.motor_port" := VStr "M0" ]}
  = ToBoolean (get {[ "stepper_x.motor_port" := VStr "M0" ]} "stepper_x.motor_port") /\
  evaluateSimpleCondition "stepper_x.motor_port" {[ "stepper_x.motor_port" := VStr "M0" ]}
  = ToBoolean (get {[ "stepper_x.motor_port" := VStr "M0" ]} "stepper_x.motor_port").
Proof.
  apply (bare_key_evaluators_agree "stepper_x.motor_port"). reflexivity.
Defined.

(** On a word of the condition language the two differ: [true] is a
    literal for one and a key for the other.  So they do on a word that in
    lower case names a member of [Object.prototype]: the tokenizer of the
    one finds the member under the word, the other reads the key. *)
Lemma keyword_evaluators_differ :
  evaluateCondition (Some "true") ∅ = true /\ evaluateSimpleCondition "true" ∅ = false /\
  evaluateCondition (Some "CONSTRUCTOR") {[ "CONSTRUCTOR" := VStr "x" ]} = false /\
  evaluateSimpleCondition "CONSTRUCTOR" {[ "CONSTRUCTOR" := VStr "x" ]} = true.
Proof. vm_compute. auto. Qed.

(** ** The hook: implications *)



(** Without a new render the second call pushes the history once more. *)
Lemma applyImplicationsToState_stale :
  let s := mkStore {[ "z_config.motor_count" := num 4 ]} [] (-1) None in
  let s1 := applyImplicationsToState (ws_state s) s in
  ws_history s1 = [ws_state s] /\
  ws_history (applyImplicationsToState (ws_state s1) s1) = [ws_state s] /\
  ws_history (applyImplicationsToState (ws_state s) s1) = [ws_state s; ws_state s1].
Proof. repeat apply conj; by_decision. Qed.

(** ** Dynamic implications *)

Lemma roundHalf_on_bed (x : Q) :
  Qlt 0 x ->
  (0 <= MathRound (Qdiv x (inject_Z 2)))%Z /\
  Qle (inject_Z (MathRound (Qdiv x (inject_Z 2)))) x.
Proof.
  intros Hx. unfold MathRound.
  set (q := Qplus (Qdiv x (inject_Z 2)) (1 # 2)).
  assert (Hpos : Qle 0 q).
  { unfold q, Qle, Qlt in *. destruct x as [n d]. cbn in *. lia. }
  split.
  - change 0%Z with (Qfloor 0). apply Qfloor_resp_le, Hpos.
  - destruct (Qlt_le_dec x 1) as [Hsmall|Hbig].
    + assert (Hlt : Qlt q 1).
      { unfold q, Qle, Qlt in *. destruct x as [n d]. cbn in *. lia. }
      assert (Hfloor : (Qfloor q < 1)%Z).
      { rewrite Zlt_Qlt. apply (Qle_lt_trans _ q); [apply Qfloor_le|exact Hlt]. }
      apply (Qle_trans _ 0); [|apply Qlt_le_weak, Hx].
      change (Qle (inject_Z (Qfloor q)) (inject_Z 0)). rewrite <- Zle_Qle. lia.
    + apply (Qle_trans _ q); [apply Qfloor_le|].
      unfold q, Qle, Qlt in *. destruct x as [n d]. cbn in *. nia.
Qed.

(** X28.  The safe homing position lies on the bed: for bed sizes that are
    positive numbers, and no homing position set, the dynamic implications
    propose whole numbers for both coordinates, each between 0 and the bed
    size. *)
Theorem safe_home_is_on_the_bed (state : gmap string Value) (x y : Q) :
  get state "printer.bed_size_x" = VNum (Fin x) ->
  get state "printer.bed_size_y" = VNum (Fin y) ->
  Qlt 0 x -> Qlt 0 y ->
  ToBoolean (get state "safe_z_home.home_xy_position") = false ->
  exists n m : Z,
    calculateDynamicImplications state
    = <["safe_z_home.home_y" := num m]> (<["safe_z_home.home_x" := num n]> ∅) /\
    (0 <= n)%Z /\ Qle (inject_Z n) x /\ (0 <= m)%Z /\ Qle (inject_Z m) y.
Proof.
  intros Hx Hy Hxpos Hypos Hhome.
  exists (MathRound (Qdiv x (inject_Z 2))), (MathRound (Qdiv y (inject_Z 2))).
  destruct (roundHalf_on_bed x Hxpos) as [Hn0 Hn].
  destruct (roundHalf_on_bed y Hypos) as [Hm0 Hm].
  split; [|auto].
  unfold calculateDynamicImplications. rewrite Hx, Hy, Hhome. cbn [ToBoolean ToNumber].
  assert (Hbx : Qeq_bool x 0 = false).
  { destruct (Qeq_bool x 0) eqn:He; [|reflexivity].
    apply Qeq_bool_eq in He. rewrite He in Hxpos. discriminate Hxpos. }
  assert (Hby : Qeq_bool y 0 = false).
  { destruct (Qeq_bool y 0) eqn:He; [|reflexivity].
    apply Qeq_bool_eq in He. rewrite He in Hypos. discriminate Hypos. }
  rewrite Hbx, Hby. reflexivity.
Qed.

Lemma safe_home_is_on_the_bed_witness :
  exists n m : Z,
    calculateDynamicImplications
      {[ "printer.bed_size_x" := num 235; "printer.bed_size_y" := num 300 ]}
    = <["safe_z_home.home_y" := num m]> (<["safe_z_home.home_x" := num n]> ∅) /\
    (0 <= n)%Z /\ Qle (inject_Z n) (inject_Z 235) /\
    (0 <= m)%Z /\ Qle (inject_Z m) (inject_Z 300).
Proof.
  apply (safe_home_is_on_the_bed
           {[ "printer.bed_size_x" := num 235; "printer.bed_size_y" := num 300 ]});
    reflexivity.
Defined.

(** ** Required fields *)

Lemma builtin_requiredWhen def c :
  In def FIELD_DEFINITIONS -> fd_requiredWhen def = Some c ->
  c <> EmptyString /\ (c = canbusCondition -> fd_key def = "mcu.toolboard.canbus_uuid").
Proof.
  intros Hin. unfold FIELD_DEFINITIONS in Hin.
  repeat (destruct Hin as [<-|Hin];
          [cbn; intros Hc;
           first [ discriminate Hc
                 | injection Hc as <-;
                   split; [discriminate|unfold canbusCondition; intros H;
                                        first [discriminate H | reflexivity]] ]|]).
  destruct Hin.
Qed.

(** X29.  An empty field of the built-in table, other than the CAN UUID, is
    reported as required exactly when it carries the flag [required] or its
    [requiredWhen] condition holds for [evaluateCondition]; otherwise
    nothing is reported for it. *)
Theorem empty_field_required_decision (def : FieldDefinition) (state : gmap string Value) :
  In def FIELD_DEFINITIONS ->
  fd_key def <> "mcu.toolboard.canbus_uuid" ->
  isEmpty (get state (fd_key def)) = true ->
  validateField def state =
  if fd_required def ||
     match fd_requiredWhen def with
     | Some c => evaluateCondition (Some c) state
     | None => false
     end
  then Some (fieldError def (fd_label def ++ " is required"))
  else None.
Proof.
  intros Hin Hkey Hempty. unfold validateField. rewrite Hempty, andb_true_r.
  destruct (fd_requiredWhen def) as [c|] eqn:Hc; [|reflexivity].
  destruct (builtin_requiredWhen def c Hin Hc) as [Hne Hcan].
  apply String.eqb_neq in Hne. rewrite Hne. cbn [negb andb].
  rewrite (simple_condition_agrees def c state Hin Hc); [reflexivity|].
  intros H. apply Hkey, Hcan, H.
Qed.

Lemma empty_field_required_decision_witness :
  validateField
    (fieldWhen "stepper_z1.motor_port" "Stepper Z1 Motor Port" "z_config.motor_count >= 2")
    {[ "z_config.motor_count" := num 2 ]}
  = Some (fieldError
            (fieldWhen "stepper_z1.motor_port" "Stepper Z1 Motor Port"
               "z_config.motor_count >= 2")
            "Stepper Z1 Motor Port is required").
Proof.
  rewrite (empty_field_required_decision
             (fieldWhen "stepper_z1.motor_port" "Stepper Z1 Motor Port"
                "z_config.motor_count >= 2")
             {[ "z_config.motor_count" := num 2 ]}).
  - vm_compute. reflexivity.
  - unfold FIELD_DEFINITIONS. do 19 right. left. reflexivity.
  - discriminate.
  - reflexivity.
Defined.

(** ** Exclusive groups: a value that names no option *)

(** X30.  Selecting a value that names no option of the group clears the
    selection: the diff marks the group's key DELETE, the merge removes the
    key and nothing else, and no option is selected afterwards. *)
Theorem unknown_option_clears_selection (group : ExclusiveGroup) (optionValue : string)
    (state : gmap string Value) :
  findOption group optionValue = None ->
  selectOption group optionValue = {[ grp_stateKey group := VUndefined ]} /\
  setFields state (selectOption group optionValue) = delete (grp_stateKey group) state /\
  getSelectedOption group (setFields state (selectOption group optionValue)) = None.
Proof.
  intros Hfind. unfold selectOption. rewrite Hfind.
  assert (Hmerge : setFields state {[ grp_stateKey group := VUndefined ]}
                   = delete (grp_stateKey group) state).
  { apply map_eq. intros k. rewrite setFields_lookup.
    destruct (decide (grp_stateKey group = k)) as [<-|Hne].
    - rewrite lookup_singleton_eq, lookup_delete_eq. reflexivity.
    - rewrite lookup_singleton_ne, lookup_delete_ne by exact Hne. reflexivity. }
  split; [reflexivity|]. split; [exact Hmerge|].
  rewrite Hmerge. unfold getSelectedOption, get. rewrite lookup_delete_eq. cbn [default].
  induction (grp_options group) as [|o options IH]; [reflexivity|exact IH].
Qed.

Lemma unknown_option_clears_selection_witness :
  selectOption retractionGroup "C" = {[ "choice" := VUndefined ]} /\
  setFields {[ "choice" := VStr "A" ]} (selectOption retractionGroup "C")
    = delete "choice" {[ "choice" := VStr "A" ]} /\
  getSelectedOption retractionGroup
    (setFields {[ "choice" := VStr "A" ]} (selectOption retractionGroup "C")) = None.
Proof.
  apply (unknown_option_clears_selection retractionGroup "C"). reflexivity.
Defined.
